(** * convert_to_fraction.h: decimal to fraction conversion

    A shallow embedding of [cvt_2_fraction::toFract] (src/convert_to_fraction.h)
    and of the parts of the C++ language and of Boost.Rational it runs on.

    - [double] is IEEE 754 binary64, taken bit for bit from the Standard
      Library's [SpecFloat] (53 bits of precision, [emax = 1024]); every
      operation rounds to nearest, ties to even, and each C++ operator is one
      rounded operation (no fused multiply-add contraction).
    - [int_type] is a two's complement integer of [w] bits carried as a [Z];
      arithmetic wraps around, which is what the usual targets do for the
      signed overflow that C++ leaves undefined.
    - [Fraction<int_type>] is [boost::rational]: a numerator and a denominator
      normalised by the constructor.
    - [assert] is active unless the translation unit is compiled with NDEBUG;
      the flag is an argument of the model.
    - The [std::cerr] reports guarded by [DebugReporting] do not touch the
      computed values and are left out. *)

From Stdlib Require Import ZArith Lia Bool List Znumtheory.
From Stdlib Require Import Floats.SpecFloat.
From Stdlib Require Import Strings.String Strings.Ascii.
From Stdlib Require Import Numbers.DecimalString Numbers.DecimalZ.
Import ListNotations.

Local Open Scope Z_scope.

(** ** IEEE 754 binary64 *)

Module Double.

Definition prec : Z := 53.
Definition emax : Z := 1024.

Definition double : Type := spec_float.

Definition add : double -> double -> double := SFadd prec emax.
Definition sub : double -> double -> double := SFsub prec emax.
Definition mul : double -> double -> double := SFmul prec emax.
Definition div : double -> double -> double := SFdiv prec emax.
Definition abs : double -> double := SFabs.

(** [a < b], [a <= b]; [a > b] is [ltb b a] and [a >= b] is [leb b a].
    Every comparison with a NaN is false. *)
Definition ltb : double -> double -> bool := SFltb.
Definition leb : double -> double -> bool := SFleb.

(** [double(k)] for an integer [k]: the nearest double. *)
Definition of_int (k : Z) : double := binary_normalize prec emax k 0 false.

(** The integer part of a double, rounded toward zero; [None] for NaN and
    the infinities. *)
Definition trunc (x : double) : option Z :=
  match x with
  | S754_zero _ => Some 0
  | S754_finite s m e =>
      Some (cond_Zopp s (if 0 <=? e then Zpos m * 2 ^ e
                         else Z.quot (Zpos m) (2 ^ (- e))))
  | S754_infinity _ | S754_nan => None
  end.

(** The largest integer not above a double. *)
Definition floor (x : double) : option Z :=
  match x with
  | S754_zero _ => Some 0
  | S754_finite s m e =>
      Some (if 0 <=? e then cond_Zopp s (Zpos m) * 2 ^ e
            else Z.div (cond_Zopp s (Zpos m)) (2 ^ (- e)))
  | S754_infinity _ | S754_nan => None
  end.

Definition is_finite (x : double) : bool :=
  match x with
  | S754_zero _ | S754_finite _ _ _ => true
  | S754_infinity _ | S754_nan => false
  end.

(** A double as the operations produce it: the mantissa is canonical and
    the exponent is in range. *)
Definition valid (x : double) : bool := valid_binary prec emax x.

(** Sign tests that let a NaN through: "not negative" and "above zero". *)
Definition nonneg_or_nan (x : double) : bool :=
  match x with
  | S754_nan | S754_zero _ => true
  | S754_infinity s | S754_finite s _ _ => negb s
  end.

Definition pos_or_nan (x : double) : bool :=
  match x with
  | S754_nan => true
  | S754_zero _ => false
  | S754_infinity s | S754_finite s _ _ => negb s
  end.

(** A canonical double of magnitude below 1: a zero, or a mantissa of at
    most 53 bits with an exponent of at most -53. *)
Definition below_one (x : double) : bool :=
  match x with
  | S754_zero _ => true
  | S754_finite _ m e => (e <=? -53) && canonical_mantissa prec emax m e
  | S754_infinity _ | S754_nan => false
  end.

(** [m * 2^k] for [k >= 0], as [SpecFloat.shl_align] computes it. *)
Definition shl_pos (m : positive) (k : Z) : positive :=
  match k with Zpos p => Pos.iter xO m p | _ => m end.

Definition zero : double := S754_zero false.
Definition one : double := Eval vm_compute in of_int 1.

(** [DBL_EPSILON] and [FLT_EPSILON] of <cfloat>. *)
Definition DBL_EPSILON : double := S754_finite false 4503599627370496 (-104).
Definition FLT_EPSILON : double := S754_finite false 4503599627370496 (-75).

End Double.

Import Double.

(** ** [int_type]: a signed integer of [w] bits *)

Section IntType.

Variable w : Z.

Definition MaxValue : Z := 2 ^ (w - 1) - 1.
Definition MinValue : Z := - 2 ^ (w - 1).

Definition in_range (z : Z) : bool := (MinValue <=? z) && (z <=? MaxValue).

(** Two's complement wrap-around of a mathematical result. *)
Definition wrap (z : Z) : Z := (z + 2 ^ (w - 1)) mod 2 ^ w - 2 ^ (w - 1).

Definition iadd (a b : Z) : Z := wrap (a + b).
Definition imul (a b : Z) : Z := wrap (a * b).
Definition ineg (a : Z) : Z := wrap (- a).
Definition idiv (a b : Z) : Z := wrap (Z.quot a b).

(** [int_type(x)] for a double [x].  C++ defines the conversion only when
    the truncated value is representable; otherwise the model returns what
    the x86 conversion instructions return, the "integer indefinite" value
    [MinValue]. *)
Definition to_int (x : double) : Z :=
  match trunc x with
  | Some z => if in_range z then z else MinValue
  | None => MinValue
  end.

(** *** [boost::rational<int_type>] *)

Record Fraction : Type := mkFraction { numerator : Z; denominator : Z }.

(** Modelled from the spec: boost/rational.hpp is not among the sources.
    The two-argument constructor stores the fraction normalised
    (Boost's [normalize()]): a zero denominator throws [bad_rational], a
    zero numerator gives 0/1, otherwise both parts are divided by their
    gcd and the sign is moved to the numerator; a denominator that cannot
    be negated throws too.  [None] stands for the exception. *)
Definition rational (n d : Z) : option Fraction :=
  if d =? 0 then None
  else if n =? 0 then Some (mkFraction 0 1)
  else
    let g := wrap (Z.gcd n d) in
    let n' := idiv n g in
    let d' := idiv d g in
    if d' <? - MaxValue then None
    else if d' <? 0 then Some (mkFraction (ineg n') (ineg d'))
    else Some (mkFraction n' d').

(** Modelled from the spec: [operator+=(int_type)], the spec's
    [plusInteger]: [numerator += k * denominator], without a new
    normalisation. *)
Definition plus_integer (f : Fraction) (k : Z) : Fraction :=
  mkFraction (iadd (numerator f) (imul k (denominator f))) (denominator f).

(** [toFloat]: [double(numerator) / double(denominator)]. *)
Definition toFloat (f : Fraction) : double :=
  div (of_int (numerator f)) (of_int (denominator f)).

(** ** [toFract] *)

(** How a call ends.  [OutOfFuel] is not a behaviour of the program: it
    says that the loop was still running when the model's step budget was
    used up. *)
Inductive outcome : Type :=
| Returned (f : Fraction)
| InvalidArgument (max : Z)
| BadRational
| AssertionFailed
| OutOfFuel.

(** The two bounds, "A" = a/b and "B" = c/d. *)
Record bounds : Type := mkBounds { low : Fraction; high : Fraction }.

Definition testLow (val : double) (b : bounds) : double :=
  sub (mul (of_int (denominator (low b))) val) (of_int (numerator (low b))).

Definition testHigh (val : double) (b : bounds) : double :=
  sub (of_int (numerator (high b))) (mul (of_int (denominator (high b))) val).

Definition x1 (val : double) (b : bounds) : double :=
  div (testHigh val b) (testLow val b).

Definition x2 (val : double) (b : bounds) : double :=
  div (testLow val b) (testHigh val b).

(** The safety checks of lines 337 and 367. *)
Definition guard1 (val : double) (b : bounds) : bool :=
  leb (of_int MaxValue)
      (add (mul (add (x1 val b) one) (of_int (denominator (low b))))
           (of_int (denominator (high b)))).

Definition guard2 (val : double) (b : bounds) : bool :=
  leb (of_int MaxValue)
      (add (of_int (denominator (low b)))
           (mul (add (x2 val b) one) (of_int (denominator (high b))))).

(** The two asserts that open and close the loop body. *)
Definition bracketed (val : double) (b : bounds) : bool :=
  leb (toFloat (low b)) val && leb val (toFloat (high b)).

(** The asserts that open the loop body pass, or are compiled out. *)
Definition entry_ok (ndebug : bool) (val : double) (b : bounds) : Prop :=
  ndebug = true \/ bracketed val b = true.

(** What one pass through the loop body does. *)
Inductive step_result : Type :=
| Break (b : bounds)       (* leave the loop with these bounds *)
| Continue (b : bounds)    (* go round again *)
| Throw                    (* bad_rational out of a constructor *)
| Abort.                   (* a failed assert *)

(** Lines 342-361: the update of the [x1 > x2] branch. *)
Definition update1 (val : double) (b : bounds) : option bounds :=
  let n := to_int (x1 val b) in
  let h_num := iadd (imul n (numerator (low b))) (numerator (high b)) in
  let h_denom := iadd (imul n (denominator (low b))) (denominator (high b)) in
  let l_num := iadd h_num (numerator (low b)) in
  let l_denom := iadd h_denom (denominator (low b)) in
  match rational l_num l_denom with
  | None => None
  | Some lo =>
      match rational h_num h_denom with
      | None => None
      | Some hi => Some (mkBounds lo hi)
      end
  end.

(** Lines 372-391: the update of the other branch. *)
Definition update2 (val : double) (b : bounds) : option bounds :=
  let n := to_int (x2 val b) in
  let l_num := iadd (numerator (low b)) (imul n (numerator (high b))) in
  let l_denom := iadd (denominator (low b)) (imul n (denominator (high b))) in
  let h_num := iadd l_num (numerator (high b)) in
  let h_denom := iadd l_denom (denominator (high b)) in
  match rational h_num h_denom with
  | None => None
  | Some hi =>
      match rational l_num l_denom with
      | None => None
      | Some lo => Some (mkBounds lo hi)
      end
  end.

Definition step (ndebug : bool) (val Precision : double) (b : bounds)
  : step_result :=
  if negb ndebug && negb (bracketed val b) then Abort
  else if ltb (testHigh val b) Precision then Break b
  else if ltb (testLow val b) Precision
       then Break (mkBounds (low b) (low b))
  else
    let upd :=
      if ltb (x2 val b) (x1 val b)
      then (if guard1 val b then None else Some (update1 val b))
      else (if guard2 val b then None else Some (update2 val b)) in
    match upd with
    | None => Break b
    | Some None => Throw
    | Some (Some b') =>
        if negb ndebug && negb (bracketed val b') then Abort
        else Continue b'
    end.

(** [for (;;)] with a step budget. *)
Fixpoint loop (fuel : nat) (ndebug : bool) (val Precision : double)
  (b : bounds) (intPart : Z) : outcome :=
  match fuel with
  | O => OutOfFuel
  | S fuel' =>
      match step ndebug val Precision b with
      | Break b' => Returned (plus_integer (high b') intPart)
      | Continue b' => loop fuel' ndebug val Precision b' intPart
      | Throw => BadRational
      | Abort => AssertionFailed
      end
  end.

Definition initial : bounds := mkBounds (mkFraction 0 1) (mkFraction 1 1).

(** The fractional remainder [val - double(int_type(val))]. *)
Definition intPart_of (val : double) : Z := to_int val.
Definition remainder (val : double) : double :=
  sub val (of_int (intPart_of val)).

Definition toFract (fuel : nat) (ndebug : bool) (val Precision : double)
  : outcome :=
  let intPart := intPart_of val in
  let val' := remainder val in
  if ltb one (abs val') then InvalidArgument MaxValue
  else loop fuel ndebug val' Precision initial intPart.

(** The outcome of the first [k] passes through the loop body:
    [Continue b'] when the loop is still running, with the bounds it has
    reached; otherwise how the loop was left. *)
Fixpoint passes (k : nat) (ndebug : bool) (val Precision : double)
  (b : bounds) : step_result :=
  match k with
  | O => Continue b
  | S k' =>
      match step ndebug val Precision b with
      | Continue b' => passes k' ndebug val Precision b'
      | r => r
      end
  end.

(** [|toFloat(f) - val|], what test.cpp compares with the tolerance. *)
Definition round_trip_error (f : Fraction) (val : double) : double :=
  abs (sub (toFloat f) val).

(** After [k] passes that went round again, pass [k + 1] of the call
    [toFract(val, Precision)] finds one of the two precision tests true. *)
Definition left_on_precision_test (k : nat) (ndebug : bool)
  (val Precision : double) : bool :=
  match passes k ndebug (remainder val) Precision initial with
  | Continue bk =>
      ltb (testHigh (remainder val) bk) Precision
      || ltb (testLow (remainder val) bk) Precision
  | _ => false
  end.

(** Bounds as the descent keeps them while nothing overflows: two
    fractions of [0, 1] with positive denominators that fit [int_type]
    and with [high.num * low.den - low.num * high.den = 1]. *)
Definition adjacent (b : bounds) : Prop :=
  0 <= numerator (low b) <= denominator (low b) /\
  0 <= numerator (high b) <= denominator (high b) /\
  1 <= denominator (low b) <= MaxValue /\
  1 <= denominator (high b) <= MaxValue /\
  numerator (high b) * denominator (low b)
  - numerator (low b) * denominator (high b) = 1.

(** The update of this pass stays within [int_type]: the multiplier is
    not negative and the larger new denominator is at most [MaxValue]. *)
Definition update_fits (val : double) (b : bounds) : Prop :=
  if ltb (x2 val b) (x1 val b)
  then 0 <= to_int (x1 val b) /\
       (to_int (x1 val b) + 1) * denominator (low b)
       + denominator (high b) <= MaxValue
  else 0 <= to_int (x2 val b) /\
       denominator (low b)
       + (to_int (x2 val b) + 1) * denominator (high b) <= MaxValue.

End IntType.

Arguments mkFraction _ _ : clear implicits.
Arguments mkBounds _ _ : clear implicits.

(** ** The instantiations and inputs used below *)

(** [int] / [int32_t] and [long] / [int64_t] of test.cpp. *)
Definition int32 : Z := 32.
Definition int64 : Z := 64.

(** [-0.5] and [-10.0]. *)
Definition minus_half : double := S754_finite true 4503599627370496 (-53).
Definition minus_ten : double := S754_finite true 5629499534213120 (-49).

(** [1E-9] and [1E-6], the correctly rounded decimal literals. *)
Definition tol_1e9 : double := div (of_int 1) (of_int 1000000000).
Definition tol_1e6 : double := div (of_int 1) (of_int 1000000).

(** [2^-70], a positive tolerance below the spacing of the doubles near 1. *)
Definition tol_tiny : double := S754_finite false 4503599627370496 (-122).

(** [2.0 / 49.0] and [-1.0]. *)
Definition two_49ths : double := div (of_int 2) (of_int 49).
Definition minus_one : double := S754_finite true 4503599627370496 (-52).

(** [2^-40]. *)
Definition two_m40 : double := S754_finite false 4503599627370496 (-92).

(** [0.5] and [-2.75]. *)
Definition half : double := div (of_int 1) (of_int 2).
Definition minus_2_75 : double := div (of_int (-11)) (of_int 4).

(** [0.1], [0.3] and [1.0 / 3.0]. *)
Definition tenth : double := div (of_int 1) (of_int 10).
Definition three_tenths : double := div (of_int 3) (of_int 10).
Definition third : double := div (of_int 1) (of_int 3).

(** [2147483647.0], the largest [int32] value, and [2147483648.0]. *)
Definition int32_max_d : double := of_int 2147483647.
Definition int32_max_succ_d : double := of_int 2147483648.

(** [715827883.0 + 1.0 / 3.0]. *)
Definition big_third : double := add (of_int 715827883) third.

(** [1.0 - 19.0 / 30.0], the double that prints as 0.3666666666666667. *)
Definition eleven_thirtieths : double :=
  sub (of_int 1) (div (of_int 19) (of_int 30)).

(** ** The rest of the header: overloads and text *)

(** [float] is IEEE 754 binary32; a float is widened to a double before
    anything is done with it. *)
Definition float : Type := spec_float.
Definition valid_float (x : float) : bool := valid_binary 24 128 x.

(** [double(x)] for a float [x]: the same number, with the mantissa laid
    out for 53 bits. *)
Definition double_of_float (x : float) : double :=
  match x with
  | S754_finite s m e => binary_normalize prec emax (cond_Zopp s (Zpos m)) e false
  | _ => x
  end.

Definition toFract_float (w : Z) (fuel : nat) (ndebug : bool) (val : float)
  : outcome :=
  toFract w fuel ndebug (double_of_float val) FLT_EPSILON.


(** The one-argument overloads (lines 250-260): [toFract(double)] with
    [DBL_EPSILON], [toFract(float)] with [FLT_EPSILON]. *)
Definition toFract_double (w : Z) (fuel : nat) (ndebug : bool) (val : double)
  : outcome :=
  toFract w fuel ndebug val DBL_EPSILON.


(** [std::format("{}", k)] for an integer [k]: its decimal digits, with a
    minus sign when it is negative. *)
Definition Z_to_string (k : Z) : string :=
  NilEmpty.string_of_int (Z.to_int k).

(** [toString] (line 25): [std::format("{}/{}", ...)] of the numerator
    and the denominator.  The [std::formatter] specialisation of line 418
    writes the same text. *)
Definition toString (f : Fraction) : string :=
  (Z_to_string (numerator f) ++ "/" ++ Z_to_string (denominator f))%string.

(** A text without the separator. *)
Fixpoint slash_free (s : string) : bool :=
  match s with
  | EmptyString => true
  | String c s' => negb (Ascii.eqb c "/") && slash_free s'
  end.


(** ** Further inputs *)

(** [2.0], [5.0] and the float [0.75f]. *)
Definition two : double := of_int 2.
Definition five : double := of_int 5.
Definition three_quarters_f : float := S754_finite false 12582912 (-24).


(** ** Integers below a double

    The safety checks compare an estimate computed in binary64 with
    [double(MaxValue)].  What they guarantee is stated on integers, with
    the order between an integer and a double written out on the
    mantissa and the exponent. *)

(** [N <= m * 2^e], for an integer [N], without leaving the integers. *)
Definition ile (N m e : Z) : Prop :=
  N * 2 ^ Z.max 0 (- e) <= m * 2 ^ Z.max 0 e.

(** [N <= x] for an integer [N] and a double [x] that is neither negative
    nor a NaN; [+inf] is above every integer. *)
Definition int_below (N : Z) (x : double) : Prop :=
  match x with
  | S754_infinity s => s = false
  | S754_zero _ => N <= 0
  | S754_finite s m e => s = false /\ ile N (Zpos m) e
  | S754_nan => False
  end.

(** * Properties *)

(** ** The loop body, case by case *)

Section StepFacts.

Variable w : Z.
Variables (ndebug : bool) (val Precision : double) (b : bounds).

Lemma step_entry :
  entry_ok ndebug val b -> negb ndebug && negb (bracketed val b) = false.
Proof.
  intros [-> | ->]; [reflexivity | apply andb_false_r].
Qed.

Lemma step_high :
  entry_ok ndebug val b -> ltb (testHigh val b) Precision = true ->
  step w ndebug val Precision b = Break b.
Proof.
  intros He Hh. unfold step. now rewrite (step_entry He), Hh.
Qed.

Lemma step_low :
  entry_ok ndebug val b -> ltb (testHigh val b) Precision = false ->
  ltb (testLow val b) Precision = true ->
  step w ndebug val Precision b = Break (mkBounds (low b) (low b)).
Proof.
  intros He Hh Hl. unfold step. now rewrite (step_entry He), Hh, Hl.
Qed.

Lemma step_guard1 :
  entry_ok ndebug val b -> ltb (testHigh val b) Precision = false ->
  ltb (testLow val b) Precision = false ->
  ltb (x2 val b) (x1 val b) = true -> guard1 w val b = true ->
  step w ndebug val Precision b = Break b.
Proof.
  intros He Hh Hl Hx Hg. unfold step.
  now rewrite (step_entry He), Hh, Hl, Hx, Hg.
Qed.

Lemma step_guard2 :
  entry_ok ndebug val b -> ltb (testHigh val b) Precision = false ->
  ltb (testLow val b) Precision = false ->
  ltb (x2 val b) (x1 val b) = false -> guard2 w val b = true ->
  step w ndebug val Precision b = Break b.
Proof.
  intros He Hh Hl Hx Hg. unfold step.
  now rewrite (step_entry He), Hh, Hl, Hx, Hg.
Qed.

(** A pass that goes round again went through one of the two updates. *)
Lemma step_continue_inv (b' : bounds) :
  step w ndebug val Precision b = Continue b' ->
  ltb (testHigh val b) Precision = false /\
  ltb (testLow val b) Precision = false /\
  ((ltb (x2 val b) (x1 val b) = true /\ guard1 w val b = false /\
    update1 w val b = Some b') \/
   (ltb (x2 val b) (x1 val b) = false /\ guard2 w val b = false /\
    update2 w val b = Some b')).
Proof.
  unfold step.
  destruct (negb ndebug && negb (bracketed val b)); [discriminate|].
  destruct (ltb (testHigh val b) Precision); [discriminate|].
  destruct (ltb (testLow val b) Precision); [discriminate|].
  destruct (ltb (x2 val b) (x1 val b)).
  - destruct (guard1 w val b); [discriminate|].
    destruct (update1 w val b) as [u|]; [|discriminate].
    destruct (negb ndebug && negb (bracketed val u)); [discriminate|].
    intros [= ->]. repeat split. left. repeat split.
  - destruct (guard2 w val b); [discriminate|].
    destruct (update2 w val b) as [u|]; [|discriminate].
    destruct (negb ndebug && negb (bracketed val u)); [discriminate|].
    intros [= ->]. repeat split. right. repeat split.
Qed.

(** A pass that leaves the loop does so through a precision test or
    through a safety check. *)
Lemma step_break_inv (b' : bounds) :
  step w ndebug val Precision b = Break b' ->
  (ltb (testHigh val b) Precision = true /\ b' = b) \/
  (ltb (testHigh val b) Precision = false /\
   ltb (testLow val b) Precision = true /\
   b' = mkBounds (low b) (low b)) \/
  (ltb (testHigh val b) Precision = false /\
   ltb (testLow val b) Precision = false /\
   (if ltb (x2 val b) (x1 val b) then guard1 w val b else guard2 w val b)
     = true /\ b' = b).
Proof.
  unfold step.
  destruct (negb ndebug && negb (bracketed val b)); [discriminate|].
  destruct (ltb (testHigh val b) Precision).
  { intros [= <-]. now left. }
  destruct (ltb (testLow val b) Precision).
  { intros [= <-]. right; left. now repeat split. }
  destruct (ltb (x2 val b) (x1 val b)).
  - destruct (guard1 w val b).
    + intros [= <-]. right; right. now repeat split.
    + destruct (update1 w val b) as [u|]; [|discriminate].
      destruct (negb ndebug && negb (bracketed val u)); discriminate.
  - destruct (guard2 w val b).
    + intros [= <-]. right; right. now repeat split.
    + destruct (update2 w val b) as [u|]; [|discriminate].
      destruct (negb ndebug && negb (bracketed val u)); discriminate.
Qed.

End StepFacts.

(** The loop never raises the range error: that is done before it starts. *)
Lemma loop_not_invalid_argument (w : Z) (fuel : nat) (ndebug : bool)
  (val Precision : double) (b : bounds) (intPart max : Z) :
  loop w fuel ndebug val Precision b intPart <> InvalidArgument max.
Proof.
  revert b. induction fuel as [|fuel IH]; intros b; simpl; [discriminate|].
  destruct (step w ndebug val Precision b); try discriminate. apply IH.
Qed.

(** Passes that go round again can be split off the front of a run. *)
Lemma loop_after_passes (w : Z) (k j : nat) (ndebug : bool)
  (val Precision : double) (b bk : bounds) (intPart : Z) :
  passes w k ndebug val Precision b = Continue bk ->
  loop w (k + j) ndebug val Precision b intPart
  = loop w j ndebug val Precision bk intPart.
Proof.
  revert b. induction k as [|k IH]; intros b; simpl.
  - now intros [= ->].
  - destruct (step w ndebug val Precision b); try discriminate. apply IH.
Qed.

Lemma loop_returned_inv (w : Z) (fuel : nat) (ndebug : bool)
  (val Precision : double) (b : bounds) (intPart : Z) (f : Fraction) :
  loop w fuel ndebug val Precision b intPart = Returned f ->
  exists (k : nat) (bk b' : bounds),
    (k < fuel)%nat /\
    passes w k ndebug val Precision b = Continue bk /\
    step w ndebug val Precision bk = Break b' /\
    f = plus_integer w (high b') intPart.
Proof.
  revert b. induction fuel as [|fuel IH]; intros b; simpl; [discriminate|].
  destruct (step w ndebug val Precision b) as [b1|b1| |] eqn:Hs;
    try discriminate.
  - intros [= <-]. exists O, b, b1. repeat split; [lia | exact Hs].
  - intros H. destruct (IH _ H) as (k & bk & b' & Hk & Hp & Hb & Hf).
    exists (S k), bk, b'. repeat split; [lia | | exact Hb | exact Hf].
    simpl. now rewrite Hs.
Qed.

(** ** C6: the two precision tests and their order *)

(** C6: each pass computes [testLow = low.denominator * val - low.numerator]
    and [testHigh = high.numerator - high.denominator * val]; the test on
    [testHigh] comes first and makes [high] the answer; only when it fails
    does [testLow < Precision] make [low] the answer, [high] being set to
    [low] before the loop is left. *)
Theorem precision_tests_in_order (w : Z) (fuel : nat) (ndebug : bool)
  (val Precision : double) (b : bounds) (intPart : Z) :
  entry_ok ndebug val b ->
  testLow val b
  = sub (mul (of_int (denominator (low b))) val) (of_int (numerator (low b)))
  /\ testHigh val b
     = sub (of_int (numerator (high b)))
           (mul (of_int (denominator (high b))) val)
  /\ (ltb (testHigh val b) Precision = true ->
      step w ndebug val Precision b = Break b /\
      loop w (S fuel) ndebug val Precision b intPart
      = Returned (plus_integer w (high b) intPart))
  /\ (ltb (testHigh val b) Precision = false ->
      ltb (testLow val b) Precision = true ->
      step w ndebug val Precision b = Break (mkBounds (low b) (low b)) /\
      loop w (S fuel) ndebug val Precision b intPart
      = Returned (plus_integer w (low b) intPart)).
Proof.
  intros He. split; [reflexivity|]. split; [reflexivity|]. split.
  - intros Hh. pose proof (step_high w _ _ _ _ He Hh) as Hs.
    split; [exact Hs|]. simpl. now rewrite Hs.
  - intros Hh Hl. pose proof (step_low w _ _ _ _ He Hh Hl) as Hs.
    split; [exact Hs|]. simpl. now rewrite Hs.
Qed.

(** With [val = 0.1] the first pass turns the bounds into 1/11 and 1/10;
    on the second pass [testHigh = 1 - 10 * 0.1 = 0] is below the tolerance
    and 1/10 is returned. *)
Lemma precision_tests_in_order_witness :
  loop int32 1 false tenth DBL_EPSILON
       (mkBounds (mkFraction 1 11) (mkFraction 1 10)) 0
  = Returned (mkFraction 1 10).
Proof.
  apply (precision_tests_in_order int32 0 false tenth DBL_EPSILON
           (mkBounds (mkFraction 1 11) (mkFraction 1 10)) 0).
  - right. vm_compute. reflexivity.
  - vm_compute. reflexivity.
Defined.

(** ** C3: the safety check comes before the update *)

(** C3: when no precision test has ended the loop and the floating-point
    estimate of the next denominator, [(x1 + 1) * low.denominator +
    high.denominator] in the [x1 > x2] branch and [low.denominator +
    (x2 + 1) * high.denominator] in the other, reaches [double(MaxValue)],
    the loop is left at once with the bounds untouched, and the function
    returns the current [high] plus the integer part: no exception, no
    update. *)
Theorem overflow_guard_before_update (w : Z) (fuel : nat) (ndebug : bool)
  (val Precision : double) (b : bounds) (intPart : Z) :
  entry_ok ndebug val b ->
  ltb (testHigh val b) Precision = false ->
  ltb (testLow val b) Precision = false ->
  (if ltb (x2 val b) (x1 val b) then guard1 w val b else guard2 w val b)
    = true ->
  step w ndebug val Precision b = Break b /\
  loop w (S fuel) ndebug val Precision b intPart
  = Returned (plus_integer w (high b) intPart).
Proof.
  intros He Hh Hl Hg.
  assert (Hs : step w ndebug val Precision b = Break b).
  { destruct (ltb (x2 val b) (x1 val b)) eqn:Hx.
    - now apply step_guard1.
    - now apply step_guard2. }
  split; [exact Hs|]. simpl. now rewrite Hs.
Qed.

(** With 32 bits, [val = 2^-40] and [DBL_EPSILON]: [x1] is about [2^40], the
    estimate is far above [2^31 - 1], and the first pass already returns the
    initial [high], 1/1. *)
Lemma overflow_guard_before_update_witness :
  step int32 false two_m40 DBL_EPSILON initial = Break initial /\
  loop int32 1 false two_m40 DBL_EPSILON initial 0
  = Returned (mkFraction 1 1).
Proof.
  apply (overflow_guard_before_update int32 0 false two_m40 DBL_EPSILON
           initial 0).
  - right. vm_compute. reflexivity.
  - vm_compute. reflexivity.
  - vm_compute. reflexivity.
  - vm_compute. reflexivity.
Defined.

(** ** C7: the mediant update *)

(** Rounding keeps the sign it is given. *)
Lemma binary_round_aux_sign (s : bool) (m e : Z) (l : location) :
  match binary_round_aux prec emax s m e l with
  | S754_zero s' | S754_infinity s' | S754_finite s' _ _ => s' = s
  | S754_nan => True
  end.
Proof.
  unfold binary_round_aux.
  destruct (shr_fexp prec emax m e l) as [mrs' e'].
  destruct (shr_fexp prec emax _ e' loc_Exact) as [mrs'' e''].
  destruct (shr_m mrs''); [reflexivity | | exact I].
  destruct (e'' <=? emax - prec); reflexivity.
Qed.

(** A value that is not below a positive tolerance is positive, or a NaN. *)
Lemma not_below_positive (x P : double) :
  ltb zero P = true -> ltb x P = false -> pos_or_nan x = true.
Proof.
  destruct P as [[]|[]| |[] mp ep], x as [[]|[]| |[] mx ex];
    simpl; intros; try reflexivity; discriminate.
Qed.


(** On a non-negative double the C++ conversion is the floor, as long as
    the floor is an [int_type] value. *)
Lemma to_int_floor (w : Z) (x : double) (k : Z) :
  nonneg_or_nan x = true -> floor x = Some k -> in_range w k = true ->
  to_int w x = k.
Proof.
  unfold to_int.
  destruct x as [s|s| |[] m e]; simpl; try discriminate.
  - intros _ [= <-] ->. reflexivity.
  - intros _ [= <-].
    destruct (0 <=? e) eqn:He.
    + intros ->. reflexivity.
    + apply Z.leb_gt in He.
      rewrite Z.quot_div_nonneg by (try apply Z.pow_pos_nonneg; lia).
      intros ->. reflexivity.
Qed.

Lemma update1_inv (w : Z) (val : double) (b b' : bounds) :
  update1 w val b = Some b' ->
  rational w (iadd w (imul w (to_int w (x1 val b)) (numerator (low b)))
                     (numerator (high b)))
             (iadd w (imul w (to_int w (x1 val b)) (denominator (low b)))
                     (denominator (high b))) = Some (high b')
  /\ rational w
       (iadd w (iadd w (imul w (to_int w (x1 val b)) (numerator (low b)))
                       (numerator (high b))) (numerator (low b)))
       (iadd w (iadd w (imul w (to_int w (x1 val b)) (denominator (low b)))
                       (denominator (high b))) (denominator (low b)))
     = Some (low b').
Proof.
  unfold update1.
  set (h_num := iadd w (imul w _ (numerator (low b))) _).
  set (h_denom := iadd w (imul w _ (denominator (low b))) _).
  destruct (rational w (iadd w h_num _) (iadd w h_denom _)) as [lo|] eqn:E1;
    [|discriminate].
  destruct (rational w h_num h_denom) as [hi|] eqn:E2; [|discriminate].
  intros H. injection H as H. subst b'. split; reflexivity.
Qed.

Lemma update2_inv (w : Z) (val : double) (b b' : bounds) :
  update2 w val b = Some b' ->
  rational w (iadd w (numerator (low b))
                     (imul w (to_int w (x2 val b)) (numerator (high b))))
             (iadd w (denominator (low b))
                     (imul w (to_int w (x2 val b)) (denominator (high b))))
  = Some (low b')
  /\ rational w
       (iadd w (iadd w (numerator (low b))
                       (imul w (to_int w (x2 val b)) (numerator (high b))))
               (numerator (high b)))
       (iadd w (iadd w (denominator (low b))
                       (imul w (to_int w (x2 val b)) (denominator (high b))))
               (denominator (high b)))
     = Some (high b').
Proof.
  unfold update2.
  set (l_num := iadd w (numerator (low b)) _).
  set (l_denom := iadd w (denominator (low b)) _).
  destruct (rational w (iadd w l_num _) (iadd w l_denom _)) as [hi|] eqn:E1;
    [|discriminate].
  destruct (rational w l_num l_denom) as [lo|] eqn:E2; [|discriminate].
  intros H. injection H as H. subst b'. split; reflexivity.
Qed.



(** ** Operations on binary64 that are exact

    What [toFract] does first, taking the integer part away, involves no
    rounding at all; the lemmas below follow [SpecFloat]'s definitions
    through these exact cases. *)

(** *** Mantissas: number of bits, shifts to the left *)

Lemma fexp_eq (x : Z) : fexp prec emax x = Z.max (x - 53) (-1074).
Proof. reflexivity. Qed.

Lemma digits2_pos_bounds (m : positive) :
  2 ^ (Zpos (digits2_pos m) - 1) <= Zpos m < 2 ^ Zpos (digits2_pos m).
Proof.
  induction m as [m IH|m IH|]; cbn [digits2_pos].
  - rewrite Pos2Z.inj_succ.
    replace (Z.succ (Zpos (digits2_pos m)) - 1)
      with (Z.succ (Zpos (digits2_pos m) - 1)) by lia.
    rewrite !Z.pow_succ_r by lia. lia.
  - rewrite Pos2Z.inj_succ.
    replace (Z.succ (Zpos (digits2_pos m)) - 1)
      with (Z.succ (Zpos (digits2_pos m) - 1)) by lia.
    rewrite !Z.pow_succ_r by lia. lia.
  - simpl. lia.
Qed.

Lemma digits2_pos_unique (m : positive) (d : Z) :
  2 ^ (d - 1) <= Zpos m < 2 ^ d -> Zpos (digits2_pos m) = d.
Proof.
  intros [Hl Hu]. pose proof (digits2_pos_bounds m) as [Hl' Hu'].
  assert (0 < d).
  { destruct (Z.ltb_spec 0 d); trivial.
    assert (2 ^ d <= 2 ^ 0) by (destruct (Z.eq_dec d 0) as [->|];
      [lia | rewrite Z.pow_neg_r by lia; simpl; lia]).
    simpl in *. lia. }
  assert (d - 1 < Zpos (digits2_pos m)).
  { apply (Z.pow_lt_mono_r_iff 2); lia. }
  assert (Zpos (digits2_pos m) - 1 < d).
  { apply (Z.pow_lt_mono_r_iff 2); lia. }
  lia.
Qed.

Lemma iter_xO_mul (m p : positive) :
  Zpos (Pos.iter xO m p) = Zpos m * 2 ^ Zpos p.
Proof.
  induction p as [|p IH] using Pos.peano_ind.
  - simpl. lia.
  - rewrite Pos.iter_succ, Pos2Z.inj_succ, Z.pow_succ_r by lia.
    rewrite Pos2Z.inj_xO, IH. lia.
Qed.

Lemma shl_pos_mul (m : positive) (k : Z) :
  0 <= k -> Zpos (shl_pos m k) = Zpos m * 2 ^ k.
Proof.
  destruct k as [|p|p]; intros Hk; simpl shl_pos.
  - simpl. lia.
  - apply iter_xO_mul.
  - lia.
Qed.

Lemma digits2_pos_shl (m : positive) (k : Z) :
  0 <= k -> Zpos (digits2_pos (shl_pos m k)) = Zpos (digits2_pos m) + k.
Proof.
  intros Hk. apply digits2_pos_unique. rewrite shl_pos_mul by trivial.
  pose proof (digits2_pos_bounds m) as [Hl Hu].
  replace (Zpos (digits2_pos m) + k - 1) with (Zpos (digits2_pos m) - 1 + k)
    by lia.
  rewrite !Z.pow_add_r by lia.
  assert (0 < 2 ^ k) by (apply Z.pow_pos_nonneg; lia).
  split; [apply Z.mul_le_mono_nonneg_r | apply Z.mul_lt_mono_pos_r]; lia.
Qed.

Lemma shl_align_left (m : positive) (e e' : Z) :
  e' <= e -> shl_align m e e' = (shl_pos m (e - e'), e').
Proof.
  intros He. unfold shl_align, shl_pos.
  destruct (e' - e) as [|p|p] eqn:Hd.
  - replace (e - e') with 0 by lia. f_equal. lia.
  - lia.
  - replace (e - e') with (Zpos p) by lia. reflexivity.
Qed.

Lemma shl_align_none (m : positive) (e e' : Z) :
  e <= e' -> shl_align m e e' = (m, e).
Proof.
  intros He. unfold shl_align.
  destruct (e' - e) as [|p|p] eqn:Hd; try reflexivity. lia.
Qed.

(** *** Shifting to the right *)

Lemma iter_pos_comm {A : Type} (f : A -> A) (p : positive) (x : A) :
  iter_pos f p (f x) = f (iter_pos f p x).
Proof.
  revert x. induction p as [p IH|p IH|]; intros x; simpl.
  - now rewrite !IH.
  - now rewrite !IH.
  - reflexivity.
Qed.

Lemma iter_pos_succ {A : Type} (f : A -> A) (p : positive) (x : A) :
  iter_pos f (Pos.succ p) x = f (iter_pos f p x).
Proof.
  revert x. induction p as [p IH|p IH|]; intros x; simpl.
  - now rewrite !IH, !iter_pos_comm.
  - now rewrite !iter_pos_comm.
  - reflexivity.
Qed.

Lemma shr_1_m (mrs : shr_record) :
  0 <= shr_m mrs -> shr_m (shr_1 mrs) = shr_m mrs / 2.
Proof.
  destruct mrs as [m r s]. cbn [shr_m]. intros Hm.
  destruct m as [|[p|p|]|p]; cbn [shr_1 shr_m]; try lia.
  - reflexivity.
  - apply (Z.div_unique _ _ _ 1); lia.
  - apply (Z.div_unique _ _ _ 0); lia.
  - reflexivity.
Qed.

Lemma shr_m_iter (p : positive) (mrs : shr_record) :
  0 <= shr_m mrs ->
  shr_m (iter_pos shr_1 p mrs) = shr_m mrs / 2 ^ Zpos p.
Proof.
  intros Hm. induction p as [|p IH] using Pos.peano_ind.
  - simpl iter_pos. rewrite shr_1_m by trivial. reflexivity.
  - rewrite iter_pos_succ, shr_1_m, IH.
    + rewrite Pos2Z.inj_succ, Z.pow_succ_r, Z.div_div by lia.
      f_equal. lia.
    + rewrite IH. apply Z.div_pos; [lia | apply Z.pow_pos_nonneg; lia].
Qed.

Lemma shr_1_exact (z : Z) :
  shr_1 (Build_shr_record (2 * z) false false) = Build_shr_record z false false.
Proof.
  destruct z as [|p|p]; reflexivity.
Qed.

Lemma shr_iter_exact (p : positive) (z : Z) :
  iter_pos shr_1 p (Build_shr_record (z * 2 ^ Zpos p) false false)
  = Build_shr_record z false false.
Proof.
  revert z. induction p as [|p IH] using Pos.peano_ind; intros z.
  - replace (z * 2 ^ 1) with (2 * z) by lia. apply shr_1_exact.
  - rewrite iter_pos_succ, Pos2Z.inj_succ, Z.pow_succ_r by lia.
    replace (z * (2 * 2 ^ Zpos p)) with (2 * z * 2 ^ Zpos p) by lia.
    rewrite IH. apply shr_1_exact.
Qed.

(** *** Canonical doubles *)

Lemma canonical_fexp (m : positive) (e : Z) :
  canonical_mantissa prec emax m e = true <->
  fexp prec emax (Zpos (digits2_pos m) + e) = e.
Proof. unfold canonical_mantissa. apply Z.eqb_eq. Qed.

Lemma valid_finite (s : bool) (m : positive) (e : Z) :
  valid (S754_finite s m e) = true ->
  fexp prec emax (Zpos (digits2_pos m) + e) = e /\ e <= 971.
Proof.
  unfold valid, valid_binary, bounded. intros H.
  apply andb_prop in H as [Hc He]. apply canonical_fexp in Hc.
  apply Z.leb_le in He. split; [exact Hc | exact He].
Qed.

(** *** Rounding what needs no rounding *)

Lemma binary_round_aux_canonical (s : bool) (m : positive) (e : Z) :
  fexp prec emax (Zpos (digits2_pos m) + e) = e -> e <= 971 ->
  binary_round_aux prec emax s (Zpos m) e loc_Exact = S754_finite s m e.
Proof.
  intros Hc He. unfold binary_round_aux, shr_fexp.
  cbn [Zdigits2 shr_record_of_loc]. rewrite Hc, Z.sub_diag.
  cbn [shr shr_m loc_of_shr_record round_nearest_even Zdigits2
       shr_record_of_loc shr_r shr_s].
  rewrite Hc, Z.sub_diag. cbn [shr shr_m].
  replace (e <=? emax - prec) with true; [reflexivity|].
  symmetry. apply Z.leb_le. exact He.
Qed.

Lemma binary_round_aux_shr (s : bool) (m p : positive) (e : Z) :
  fexp prec emax (Zpos (digits2_pos m) + (e + Zpos p)) = e + Zpos p ->
  e + Zpos p <= 971 ->
  binary_round_aux prec emax s (Zpos (Pos.iter xO m p)) e loc_Exact
  = S754_finite s m (e + Zpos p).
Proof.
  intros Hc He. unfold binary_round_aux, shr_fexp.
  cbn [Zdigits2 shr_record_of_loc].
  change (Pos.iter xO m p) with (shl_pos m (Zpos p)).
  rewrite digits2_pos_shl by lia.
  replace (Zpos (digits2_pos m) + Zpos p + e)
    with (Zpos (digits2_pos m) + (e + Zpos p)) by lia.
  rewrite Hc. replace (e + Zpos p - e) with (Zpos p) by lia.
  cbn [shr]. rewrite shl_pos_mul by lia. rewrite shr_iter_exact.
  cbn [shr_m loc_of_shr_record round_nearest_even Zdigits2
       shr_record_of_loc shr_r shr_s].
  rewrite Hc, Z.sub_diag. cbn [shr shr_m].
  replace (e + Zpos p <=? emax - prec) with true; [reflexivity|].
  symmetry. apply Z.leb_le. exact He.
Qed.

Lemma binary_round_left (s : bool) (m : positive) (e e' : Z) :
  fexp prec emax (Zpos (digits2_pos m) + e) = e' -> e' <= e -> e' <= 971 ->
  binary_round prec emax s m e = S754_finite s (shl_pos m (e - e')) e'.
Proof.
  intros Hc Hl He. unfold binary_round.
  rewrite Hc, shl_align_left by trivial.
  apply binary_round_aux_canonical; [|exact He].
  rewrite digits2_pos_shl by lia.
  replace (Zpos (digits2_pos m) + (e - e') + e')
    with (Zpos (digits2_pos m) + e) by lia.
  exact Hc.
Qed.

Lemma binary_round_right (s : bool) (m p : positive) (e : Z) :
  fexp prec emax (Zpos (digits2_pos m) + (e + Zpos p)) = e + Zpos p ->
  e + Zpos p <= 971 ->
  binary_round prec emax s (Pos.iter xO m p) e = S754_finite s m (e + Zpos p).
Proof.
  intros Hc He. unfold binary_round.
  change (Pos.iter xO m p) with (shl_pos m (Zpos p)).
  rewrite digits2_pos_shl by lia.
  replace (Zpos (digits2_pos m) + Zpos p + e)
    with (Zpos (digits2_pos m) + (e + Zpos p)) by lia.
  rewrite Hc, shl_align_none by lia.
  change (shl_pos m (Zpos p)) with (Pos.iter xO m p).
  now apply binary_round_aux_shr.
Qed.

Lemma of_int_cond_Zopp (s : bool) (x : positive) :
  of_int (cond_Zopp s (Zpos x)) = binary_round prec emax s x 0.
Proof. destruct s; reflexivity. Qed.

Lemma below_one_not_above (x : double) :
  below_one x = true -> ltb one (abs x) = false.
Proof.
  destruct x as [s|s| |s m e]; simpl; try discriminate; try reflexivity.
  intros H. apply andb_prop in H as [He _]. apply Z.leb_le in He.
  unfold ltb, SFltb, SFcompare, one.
  destruct (Z.compare_spec (-52) e); [lia | lia | reflexivity].
Qed.

(** *** The fractional remainder *)

Lemma digits2_pos_le (m : positive) (k : Z) :
  0 <= k -> Zpos m < 2 ^ k -> Zpos (digits2_pos m) <= k.
Proof.
  intros Hk Hm. pose proof (digits2_pos_bounds m) as [Hl _].
  assert (Zpos (digits2_pos m) - 1 < k); [|lia].
  apply (Z.pow_lt_mono_r_iff 2); lia.
Qed.

Lemma digits2_pos_gt (m : positive) (k : Z) :
  2 ^ k <= Zpos m -> k < Zpos (digits2_pos m).
Proof.
  intros Hm. pose proof (digits2_pos_bounds m) as [_ Hu].
  apply (Z.pow_lt_mono_r_iff 2); lia.
Qed.

Lemma cond_Zopp_sub (s : bool) (a b : Z) :
  cond_Zopp s a - cond_Zopp s b = cond_Zopp s (a - b).
Proof. destruct s; simpl; lia. Qed.

Lemma binary_normalize_cond_Zopp (s : bool) (r : positive) (e : Z) :
  binary_normalize prec emax (cond_Zopp s (Zpos r)) e false
  = binary_round prec emax s r e.
Proof. destruct s; reflexivity. Qed.

Lemma sub_same_exponent (s : bool) (m q : positive) (e : Z) :
  sub (S754_finite s m e) (S754_finite s q e)
  = binary_normalize prec emax (cond_Zopp s (Zpos m - Zpos q)) e false.
Proof.
  unfold sub, SFsub. rewrite Z.min_id, !shl_align_none by lia.
  cbn [fst]. now rewrite cond_Zopp_sub.
Qed.

(** What is left of a double when its integer part is taken away. *)
Lemma remainder_below_one (x : double) (z : Z) :
  valid x = true -> trunc x = Some z -> below_one (sub x (of_int z)) = true.
Proof.
  destruct x as [s|s| |s m e]; try discriminate.
  - intros _ [= <-]. destruct s; reflexivity.
  - intros Hv Hz. apply valid_finite in Hv as [Hc He].
    unfold trunc in Hz.
    assert (Hz' : z = cond_Zopp s (if 0 <=? e then Zpos m * 2 ^ e
                                   else Z.quot (Zpos m) (2 ^ (- e))))
      by congruence.
    clear Hz. subst z.
    destruct (0 <=? e) eqn:He0;
      [apply Z.leb_le in He0 | apply Z.leb_gt in He0].
    + (* an integer already *)
      assert (Hi : of_int (cond_Zopp s (Zpos m * 2 ^ e)) = S754_finite s m e).
      { destruct e as [|p|p]; [| |lia].
        - rewrite Z.pow_0_r, Z.mul_1_r, of_int_cond_Zopp.
          rewrite (binary_round_left s m 0 0) by (trivial; lia).
          reflexivity.
        - rewrite <- iter_xO_mul, of_int_cond_Zopp.
          now rewrite binary_round_right. }
      rewrite Hi, sub_same_exponent, Z.sub_diag. destruct s; reflexivity.
    + (* an integer part of [-e] bits less than the mantissa *)
      assert (Hk : 0 < 2 ^ (- e)) by (apply Z.pow_pos_nonneg; lia).
      rewrite Z.quot_div_nonneg by lia.
      rewrite fexp_eq in Hc.
      destruct (Zpos m / 2 ^ (- e)) as [|q|q] eqn:Hq.
      * (* the integer part is 0 *)
        apply Z.div_small_iff in Hq as [Hq|Hq]; [|lia|lia].
        assert (Zpos (digits2_pos m) <= - e) by (apply digits2_pos_le; lia).
        replace (cond_Zopp s 0) with 0 by (destruct s; reflexivity).
        cbn [below_one of_int binary_normalize sub SFsub].
        apply andb_true_intro. split.
        -- apply Z.leb_le. lia.
        -- apply canonical_fexp. rewrite fexp_eq. exact Hc.
      * assert (Hm : 2 ^ (- e) <= Zpos m).
        { destruct (Z.le_gt_cases (2 ^ (- e)) (Zpos m)) as [H|H]; trivial.
          rewrite Z.div_small in Hq by lia. discriminate. }
        pose proof (digits2_pos_gt _ _ Hm) as Hg.
        assert (Hd : Zpos (digits2_pos m) = 53) by lia.
        pose proof (digits2_pos_bounds m) as [Hml Hmu]. rewrite Hd in Hml, Hmu.
        assert (He52 : -52 <= e) by lia.
        assert (Hdq : Zpos (digits2_pos q) = 53 + e).
        { apply digits2_pos_unique. rewrite <- Hq. split.
          - apply Z.div_le_lower_bound; [lia|].
            rewrite <- Z.pow_add_r by lia.
            replace (- e + (53 + e - 1)) with (53 - 1) by lia. exact Hml.
          - apply Z.div_lt_upper_bound; [lia|].
            rewrite <- Z.pow_add_r by lia.
            replace (- e + (53 + e)) with 53 by lia. exact Hmu. }
        rewrite of_int_cond_Zopp.
        rewrite (binary_round_left s q 0 e);
          [ | rewrite fexp_eq; lia | lia | lia ].
        rewrite sub_same_exponent, shl_pos_mul by lia.
        replace (0 - e) with (- e) by lia.
        assert (Hr : Zpos m - Zpos q * 2 ^ (- e) = Zpos m mod 2 ^ (- e)).
        { rewrite <- Hq. rewrite Z.mod_eq by lia. lia. }
        rewrite Hr.
        pose proof (Z.mod_pos_bound (Zpos m) (2 ^ (- e)) Hk) as [Hr0 Hr1].
        destruct (Zpos m mod 2 ^ (- e)) as [|r|r]; [| |lia].
        -- destruct s; reflexivity.
        -- rewrite binary_normalize_cond_Zopp.
           assert (Hdr : Zpos (digits2_pos r) <= - e)
             by (apply digits2_pos_le; lia).
           pose proof (Pos2Z.is_pos (digits2_pos r)).
           rewrite (binary_round_left s r e
                      (fexp prec emax (Zpos (digits2_pos r) + e)));
             [ | reflexivity | rewrite fexp_eq; lia | rewrite fexp_eq; lia ].
           cbn [below_one]. apply andb_true_intro. split.
           ++ apply Z.leb_le. rewrite fexp_eq. lia.
           ++ apply canonical_fexp. rewrite digits2_pos_shl
                by (rewrite fexp_eq; lia).
              f_equal. lia.
      * pose proof (Z.div_pos (Zpos m) (2 ^ (- e))). lia.
Qed.

Lemma wrap_in_range (w z : Z) : in_range w z = true -> wrap w z = z.
Proof.
  unfold in_range, MinValue, MaxValue, wrap. intros H.
  apply andb_prop in H as [Hl Hu]. apply Z.leb_le in Hl, Hu.
  assert (Hw : 0 <= w - 1).
  { destruct (Z.le_gt_cases 0 (w - 1)) as [H|H]; trivial.
    rewrite Z.pow_neg_r in Hl, Hu by lia. lia. }
  assert (H2 : 2 ^ w = 2 * 2 ^ (w - 1)).
  { rewrite <- Z.pow_succ_r by trivial. f_equal. lia. }
  rewrite H2, Z.mod_small by lia. lia.
Qed.

Lemma to_int_in_range (w : Z) (x : double) (z : Z) :
  trunc x = Some z -> in_range w z = true -> to_int w x = z.
Proof. unfold to_int. now intros -> ->. Qed.

(** *** Multiplying by 1, subtracting 0, subtracting from 1 *)

Lemma mul_one_exact (s : bool) (m : positive) (e : Z) :
  fexp prec emax (Zpos (digits2_pos m) + e) = e -> e <= 971 ->
  mul (of_int 1) (S754_finite s m e) = S754_finite s m e.
Proof.
  intros Hc He.
  change (of_int 1) with (S754_finite false 4503599627370496 (-52)).
  unfold mul, SFmul. cbn [xorb].
  change (4503599627370496 * m)%positive with (Pos.iter xO m 52).
  rewrite binary_round_aux_shr.
  - f_equal. lia.
  - replace (-52 + e + 52) with e by lia. exact Hc.
  - lia.
Qed.

Lemma sub_zero_exact (s : bool) (m : positive) (e : Z) :
  sub (S754_finite s m e) (of_int 0) = S754_finite s m e.
Proof. reflexivity. Qed.

Lemma round_nearest_even_range (m : Z) (l : location) :
  m <= round_nearest_even m l <= m + 1.
Proof.
  destruct l as [|[]]; simpl; try destruct (Z.even m); lia.
Qed.

(** A sum in [1, 2) rounds into [1, 2]. *)
Lemma binary_round_aux_unit_binade (M : positive) (e : Z) :
  e <= -53 -> Zpos (digits2_pos M) = 1 - e ->
  exists (m3 : positive) (e3 : Z),
    binary_round_aux prec emax false (Zpos M) e loc_Exact
    = S754_finite false m3 e3 /\
    ((e3 = -52 /\ 2 ^ 52 <= Zpos m3) \/ e3 = -51).
Proof.
  intros He Hd. unfold binary_round_aux, shr_fexp.
  cbn [Zdigits2 shr_record_of_loc]. rewrite Hd.
  replace (1 - e + e) with 1 by lia. change (fexp prec emax 1) with (-52).
  destruct (-52 - e) as [|p1|p1] eqn:Hp; try lia. cbn [shr].
  replace (e + Zpos p1) with (-52) by lia.
  set (mrs' := iter_pos shr_1 p1 _).
  assert (Hm1 : shr_m mrs' = Zpos M / 2 ^ Zpos p1)
    by (apply shr_m_iter; cbn; lia).
  pose proof (digits2_pos_bounds M) as [HMl HMu]. rewrite Hd in HMl, HMu.
  assert (Hp1 : 0 < 2 ^ Zpos p1) by (apply Z.pow_pos_nonneg; lia).
  assert (Hlo : 2 ^ 52 <= shr_m mrs').
  { rewrite Hm1. apply Z.div_le_lower_bound; [lia|].
    rewrite <- Z.pow_add_r by lia.
    replace (Zpos p1 + 52) with (1 - e - 1) by lia. exact HMl. }
  assert (Hhi : shr_m mrs' < 2 ^ 53).
  { rewrite Hm1. apply Z.div_lt_upper_bound; [lia|].
    rewrite <- Z.pow_add_r by lia.
    replace (Zpos p1 + 53) with (1 - e) by lia. exact HMu. }
  pose proof (round_nearest_even_range (shr_m mrs') (loc_of_shr_record mrs'))
    as [Hr1 Hr2].
  destruct (round_nearest_even (shr_m mrs') (loc_of_shr_record mrs'))
    as [|p2|p2]; try lia.
  cbn [Zdigits2].
  destruct (Z.eq_dec (Zpos p2) (2 ^ 53)) as [Heq|Hne].
  - injection Heq as ->. exists 4503599627370496%positive, (-51).
    split; [reflexivity | now right].
  - assert (Hd2 : Zpos (digits2_pos p2) = 53)
      by (apply digits2_pos_unique; lia).
    rewrite Hd2. change (fexp prec emax (53 + -52) - -52) with 0.
    cbn [shr shr_m]. exists p2, (-52). split; [reflexivity | left].
    split; [reflexivity | lia].
Qed.

Lemma one_minus_negative (m : positive) (e : Z) :
  fexp prec emax (Zpos (digits2_pos m) + e) = e -> e <= -53 ->
  exists (m3 : positive) (e3 : Z),
    sub one (S754_finite true m e) = S754_finite false m3 e3 /\
    ((e3 = -52 /\ 2 ^ 52 <= Zpos m3) \/ e3 = -51).
Proof.
  intros Hc He. rewrite fexp_eq in Hc.
  assert (Hd : Zpos (digits2_pos m) <= 53) by lia.
  pose proof (digits2_pos_bounds m) as [_ Hm].
  assert (Hm' : Zpos m < 2 ^ (- e)).
  { apply Z.lt_le_trans with (1 := Hm). apply Z.pow_le_mono_r; lia. }
  unfold sub, SFsub, one. rewrite Z.min_r by lia.
  rewrite shl_align_left, shl_align_none by lia.
  cbn [fst cond_Zopp].
  set (M := (shl_pos 4503599627370496 (-52 - e) + m)%positive).
  replace (Zpos (shl_pos 4503599627370496 (-52 - e)) - - Zpos m)
    with (Zpos M) by (unfold M; lia).
  cbn [binary_normalize].
  assert (HM : Zpos M = 2 ^ (- e) + Zpos m).
  { unfold M. rewrite Pos2Z.inj_add, shl_pos_mul by lia.
    change (Zpos 4503599627370496) with (2 ^ 52).
    rewrite <- Z.pow_add_r by lia. do 2 f_equal. lia. }
  assert (HdM : Zpos (digits2_pos M) = 1 - e).
  { apply digits2_pos_unique. rewrite HM.
    replace (1 - e - 1) with (- e) by lia.
    replace (1 - e) with (Z.succ (- e)) by lia.
    rewrite Z.pow_succ_r by lia. lia. }
  unfold binary_round. rewrite HdM.
  replace (1 - e + e) with 1 by lia. change (fexp prec emax 1) with (-52).
  rewrite shl_align_none by lia.
  now apply binary_round_aux_unit_binade.
Qed.

Lemma finite_cmp_ge (m3 mp : positive) (e3 ep : Z) :
  ep < e3 \/ (ep = e3 /\ Zpos mp <= Zpos m3) ->
  SFltb (S754_finite false m3 e3) (S754_finite false mp ep) = false.
Proof.
  intros H. unfold SFltb. cbn [SFcompare].
  change (Pos.compare_cont Eq m3 mp) with (Pos.compare m3 mp).
  destruct (Z.compare_spec e3 ep) as [Heq|Hlt|Hgt]; try reflexivity.
  - destruct (Pos.compare_spec m3 mp); try reflexivity. lia.
  - lia.
Qed.

Lemma finite_leb_inv (mp m1 : positive) (ep e1 : Z) :
  SFleb (S754_finite false mp ep) (S754_finite false m1 e1) = true ->
  ep < e1 \/ (ep = e1 /\ Zpos mp <= Zpos m1).
Proof.
  unfold SFleb. cbn [SFcompare].
  change (Pos.compare_cont Eq mp m1) with (Pos.compare mp m1).
  destruct (Z.compare_spec ep e1) as [Heq|Hlt|Hgt]; try discriminate.
  - destruct (Pos.compare_spec mp m1); try discriminate; intros _; lia.
  - intros _. lia.
Qed.

Lemma unit_binade_not_below (m3 : positive) (e3 : Z) (P : double) :
  (e3 = -52 /\ 2 ^ 52 <= Zpos m3) \/ e3 = -51 ->
  leb P one = true -> ltb (S754_finite false m3 e3) P = false.
Proof.
  intros H3 HP.
  destruct P as [sp|[]| |[] mp ep].
  - reflexivity.
  - reflexivity.
  - cbv in HP. discriminate HP.
  - reflexivity.
  - reflexivity.
  - apply finite_leb_inv in HP. apply finite_cmp_ge.
    change (2 ^ 52) with (Zpos 4503599627370496) in H3.
    lia.
Qed.

Lemma remainder_in_range (w : Z) (val : double) (z : Z) :
  trunc val = Some z -> in_range w z = true ->
  intPart_of w val = z /\ remainder w val = sub val (of_int z).
Proof.
  intros Hz Hr. unfold remainder, intPart_of.
  rewrite (to_int_in_range w val z Hz Hr). split; reflexivity.
Qed.

(** The range check of line 274 passes whenever the integer part fits. *)
Lemma remainder_not_above_one (w : Z) (val : double) (z : Z) :
  valid val = true -> trunc val = Some z -> in_range w z = true ->
  ltb one (abs (remainder w val)) = false.
Proof.
  intros Hv Hz Hr.
  destruct (remainder_in_range w val z Hz Hr) as [_ ->].
  apply below_one_not_above. now apply remainder_below_one.
Qed.

Lemma negative_below_positive (m : positive) (e : Z) (P : double) :
  ltb zero P = true -> ltb (S754_finite true m e) P = true.
Proof.
  destruct P as [sp|[]| |[] mp ep]; intros H; try reflexivity;
    cbv in H; discriminate H.
Qed.

(** ** C2: the range error *)

(** C2, as the code has it: the range error is raised only for a value whose
    integer part does not fit [int_type].  For every double whose integer
    part, truncated toward zero, fits (the largest [int_type] value
    included), the remainder is at most 1 in magnitude, the check of line
    274 passes and no range error is raised, whatever the tolerance. *)
Theorem range_error_only_out_of_range (w : Z) (fuel : nat) (ndebug : bool)
  (val Precision : double) (z : Z) :
  valid val = true -> trunc val = Some z -> in_range w z = true ->
  ltb one (abs (remainder w val)) = false /\
  forall max : Z, toFract w fuel ndebug val Precision <> InvalidArgument max.
Proof.
  intros Hv Hz Hr.
  pose proof (remainder_not_above_one w val z Hv Hz Hr) as Hb.
  split; [exact Hb|]. intros max. unfold toFract. rewrite Hb.
  apply loop_not_invalid_argument.
Qed.

(** [toFract<int>(2147483647.0, 1E-9)] raises nothing. *)
Lemma range_error_only_out_of_range_witness :
  toFract int32 8 false int32_max_d tol_1e9
  <> InvalidArgument (MaxValue int32).
Proof.
  apply (range_error_only_out_of_range int32 8 false int32_max_d tol_1e9
           2147483647).
  - vm_compute. reflexivity.
  - vm_compute. reflexivity.
  - vm_compute. reflexivity.
Defined.

(** [2147483647.0] has the integer part [MaxValue] of 32 bits and is not
    refused: [toFract<int>] returns 2147483647/1. *)
Lemma range_boundary_counterexample :
  trunc int32_max_d = Some (MaxValue int32)
  /\ toFract int32 8 false int32_max_d tol_1e9
     = Returned (mkFraction 2147483647 1).
Proof.
  split; vm_compute; reflexivity.
Qed.

(** ** C10: a negative remainder *)

(** Every negative value that is not an integer: take a double whose
    integer part fits and whose remainder is negative, and a tolerance in
    (0, 1].  On the first pass [testLow] is the remainder itself and
    [testHigh] is [1 - remainder], which is not below the tolerance, while
    [testLow] is.  With the asserts compiled out [low] = 0/1 is selected and
    the call returns [intPart]/1; with the asserts active the first of
    them, [toFloat(low) <= val], fails before any test is made. *)
Theorem negative_remainder_dropped (w : Z) (fuel : nat)
  (val Precision : double) (z : Z) :
  valid val = true -> trunc val = Some z -> in_range w z = true ->
  ltb (remainder w val) zero = true ->
  ltb zero Precision = true -> leb Precision one = true ->
  let r := remainder w val in
  testLow r initial = r
  /\ testHigh r initial = sub one r
  /\ ltb (testHigh r initial) Precision = false
  /\ ltb (testLow r initial) Precision = true
  /\ toFract w (S fuel) true val Precision = Returned (mkFraction z 1)
  /\ toFract w (S fuel) false val Precision = AssertionFailed.
Proof.
  intros Hv Hz Hr Hneg HP0 HP1 r.
  destruct (remainder_in_range w val z Hz Hr) as [Hi Hrem].
  pose proof (remainder_below_one val z Hv Hz) as Hb.
  pose proof (remainder_not_above_one w val z Hv Hz Hr) as Hab.
  unfold toFract. rewrite Hab, Hi. fold r. subst r.
  rewrite Hrem in *. clear Hrem Hab.
  destruct (sub val (of_int z)) as [s|s| |[] m e];
    try discriminate Hb; try (cbv in Hneg; discriminate Hneg).
  cbn [below_one] in Hb. apply andb_prop in Hb as [He Hc].
  apply Z.leb_le in He. apply canonical_fexp in Hc.
  assert (HtL : testLow (S754_finite true m e) initial = S754_finite true m e).
  { unfold testLow. cbn [initial low numerator denominator].
    rewrite mul_one_exact by (trivial; lia). apply sub_zero_exact. }
  assert (HtH : testHigh (S754_finite true m e) initial
                = sub one (S754_finite true m e)).
  { unfold testHigh. cbn [initial high numerator denominator].
    rewrite mul_one_exact by (trivial; lia). reflexivity. }
  assert (Hh : ltb (testHigh (S754_finite true m e) initial) Precision = false).
  { rewrite HtH. destruct (one_minus_negative m e Hc He) as (m3 & e3 & -> & H3).
    now apply unit_binade_not_below. }
  assert (Hl : ltb (testLow (S754_finite true m e) initial) Precision = true).
  { rewrite HtL. now apply negative_below_positive. }
  do 4 (split; [assumption|]). split.
  - cbn [loop]. rewrite (step_low w true _ _ _ (or_introl eq_refl) Hh Hl).
    unfold plus_integer, iadd, imul.
    cbn [high low initial numerator denominator].
    rewrite Z.mul_1_r, (wrap_in_range w z Hr), Z.add_0_l.
    now rewrite (wrap_in_range w z Hr).
  - cbn [loop]. unfold step.
    replace (bracketed (S754_finite true m e) initial) with false
      by reflexivity.
    reflexivity.
Qed.

(** [toFract<int>(-2.75, 1E-9)] without asserts: -2/1. *)
Lemma negative_remainder_dropped_witness :
  toFract int32 1 true minus_2_75 tol_1e9 = Returned (mkFraction (-2) 1).
Proof.
  assert (H1 : valid minus_2_75 = true) by (vm_compute; reflexivity).
  assert (H2 : trunc minus_2_75 = Some (-2)) by (vm_compute; reflexivity).
  assert (H3 : in_range int32 (-2) = true) by (vm_compute; reflexivity).
  assert (H4 : ltb (remainder int32 minus_2_75) zero = true)
    by (vm_compute; reflexivity).
  assert (H5 : ltb zero tol_1e9 = true) by (vm_compute; reflexivity).
  assert (H6 : leb tol_1e9 one = true) by (vm_compute; reflexivity).
  exact (proj1 (proj2 (proj2 (proj2 (proj2
    (negative_remainder_dropped int32 0 minus_2_75 tol_1e9 (-2)
       H1 H2 H3 H4 H5 H6)))))).
Defined.

(** C10: the code is at odds with itself on a negative remainder.  For
    [toFract<int>(-0.5, 1E-9)] the range check lets the value through, the
    integer part is 0 and the remainder is -0.5.  As test.cpp is built,
    asserts active, the call does not return 0/1: it stops on
    [assert(toFloat(low) <= val)] of line 288, which states that the
    remainder must not be negative.  With the asserts compiled out it
    returns 0/1, at distance 0.5 from the value, far above the tolerance. *)
Theorem negative_remainder_counterexample :
  trunc minus_half = Some 0
  /\ in_range int32 0 = true
  /\ ltb zero tol_1e9 = true /\ leb tol_1e9 one = true
  /\ ltb (remainder int32 minus_half) zero = true
  /\ toFract int32 8 false minus_half tol_1e9 = AssertionFailed
  /\ toFract int32 8 true minus_half tol_1e9 = Returned (mkFraction 0 1)
  /\ ltb (round_trip_error (mkFraction 0 1) minus_half) tol_1e9 = false.
Proof.
  repeat split; vm_compute; reflexivity.
Qed.

(** ** The denominators *)

Lemma wrap_small (w z : Z) : 0 <= z <= MaxValue w -> wrap w z = z.
Proof.
  intros [H0 H1]. apply wrap_in_range. unfold in_range, MinValue.
  unfold MaxValue in H1.
  apply andb_true_intro. split; apply Z.leb_le; [|exact H1].
  assert (0 <= 2 ^ (w - 1)) by (apply Z.pow_nonneg; lia). lia.
Qed.

(** A determinant of 1 makes a fraction irreducible. *)
Lemma determinant_gcd (a b c d : Z) : a * d - c * b = 1 -> Z.gcd a b = 1.
Proof.
  intros H. apply Z.divide_1_r_nonneg; [apply Z.gcd_nonneg|].
  rewrite <- H. apply Z.divide_sub_r.
  - apply Z.divide_mul_l, Z.gcd_divide_l.
  - apply Z.divide_mul_r, Z.gcd_divide_r.
Qed.

(** The constructor leaves an irreducible fraction that fits as it is. *)
Lemma rational_reduced (w n d : Z) :
  0 <= n <= MaxValue w -> 1 <= d <= MaxValue w -> Z.gcd n d = 1 ->
  rational w n d = Some (mkFraction n d).
Proof.
  intros Hn Hd Hg. unfold rational.
  destruct (Z.eqb_spec d 0) as [->|_]; [lia|].
  destruct (Z.eqb_spec n 0) as [->|Hn0].
  - rewrite Z.gcd_0_l, Z.abs_eq in Hg by lia. now subst d.
  - rewrite Hg. unfold idiv. rewrite (wrap_small w 1) by lia.
    rewrite !Z.quot_1_r, !wrap_small by lia.
    destruct (Z.ltb_spec d (- MaxValue w)); [lia|].
    destruct (Z.ltb_spec d 0); [lia|]. reflexivity.
Qed.

(** The two constructions on integers: with determinant 1 and no
    overflow the constructor stores the candidates as they are. *)
Lemma mediant_high_side (w n ln ld hn hd : Z) :
  0 <= ln <= ld -> 0 <= hn <= hd -> 1 <= ld -> 1 <= hd ->
  hn * ld - ln * hd = 1 ->
  0 <= n -> (n + 1) * ld + hd <= MaxValue w ->
  rational w (iadd w (imul w n ln) hn) (iadd w (imul w n ld) hd)
  = Some (mkFraction (n * ln + hn) (n * ld + hd))
  /\ rational w (iadd w (iadd w (imul w n ln) hn) ln)
                (iadd w (iadd w (imul w n ld) hd) ld)
     = Some (mkFraction (n * ln + hn + ln) (n * ld + hd + ld)).
Proof.
  intros Hln Hhn Hld Hhd Hdet Hn Hfit.
  assert (Hnl : 0 <= n * ln <= n * ld)
    by (split; [apply Z.mul_nonneg_nonneg
               | apply Z.mul_le_mono_nonneg_l]; lia).
  assert (Hnd : (n + 1) * ld = n * ld + ld) by ring.
  unfold iadd, imul.
  rewrite (wrap_small w (n * ln)), (wrap_small w (n * ld)) by lia.
  rewrite (wrap_small w (n * ln + hn)), (wrap_small w (n * ld + hd)) by lia.
  rewrite (wrap_small w (n * ln + hn + ln)) by lia.
  rewrite (wrap_small w (n * ld + hd + ld)) by lia.
  split; apply rational_reduced; try lia;
    apply (determinant_gcd _ _ ln ld); nia.
Qed.

Lemma mediant_low_side (w n ln ld hn hd : Z) :
  0 <= ln <= ld -> 0 <= hn <= hd -> 1 <= ld -> 1 <= hd ->
  hn * ld - ln * hd = 1 ->
  0 <= n -> ld + (n + 1) * hd <= MaxValue w ->
  rational w (iadd w ln (imul w n hn)) (iadd w ld (imul w n hd))
  = Some (mkFraction (ln + n * hn) (ld + n * hd))
  /\ rational w (iadd w (iadd w ln (imul w n hn)) hn)
                (iadd w (iadd w ld (imul w n hd)) hd)
     = Some (mkFraction (ln + n * hn + hn) (ld + n * hd + hd)).
Proof.
  intros Hln Hhn Hld Hhd Hdet Hn Hfit.
  assert (Hnl : 0 <= n * hn <= n * hd)
    by (split; [apply Z.mul_nonneg_nonneg
               | apply Z.mul_le_mono_nonneg_l]; lia).
  assert (Hnd : (n + 1) * hd = n * hd + hd) by ring.
  unfold iadd, imul.
  rewrite (wrap_small w (n * hn)), (wrap_small w (n * hd)) by lia.
  rewrite (wrap_small w (ln + n * hn)), (wrap_small w (ld + n * hd)) by lia.
  rewrite (wrap_small w (ln + n * hn + hn)) by lia.
  rewrite (wrap_small w (ld + n * hd + hd)) by lia.
  split; apply rational_reduced; try lia;
    apply (determinant_gcd _ _ (- hn) (- hd)); nia.
Qed.

(** A mediant update that stays within [int_type] (the multiplier is not
    negative and the larger new denominator is at most [MaxValue]) takes
    bounds with determinant 1 to bounds with determinant 1, lowers neither
    denominator and raises at least one of them. *)
Lemma fitting_update_denominators (w : Z) (ndebug : bool)
  (val Precision : double) (b b' : bounds) :
  adjacent w b ->
  step w ndebug val Precision b = Continue b' ->
  update_fits w val b ->
  denominator (low b) <= denominator (low b')
  /\ denominator (high b) <= denominator (high b')
  /\ (denominator (low b) < denominator (low b')
      \/ denominator (high b) < denominator (high b'))
  /\ adjacent w b'.
Proof.
  intros (Hln & Hhn & Hld & Hhd & Hdet) Hs Hf.
  destruct (step_continue_inv w _ _ _ _ _ Hs) as (_ & _ & Hu).
  unfold update_fits in Hf.
  destruct Hu as [(Hx & _ & Hu) | (Hx & _ & Hu)]; rewrite Hx in Hf;
    destruct Hf as [Hn0 Hfit].
  - apply update1_inv in Hu. destruct Hu as [Hh Hl].
    revert Hh Hl Hn0 Hfit. generalize (to_int w (x1 val b)). intros n.
    intros Hh Hl Hn0 Hfit.
    destruct (mediant_high_side w n _ _ _ _ Hln Hhn (proj1 Hld) (proj1 Hhd)
                Hdet Hn0 Hfit) as [Eh El].
    rewrite Eh in Hh. rewrite El in Hl.
    injection Hh as Hh. injection Hl as Hl.
    unfold adjacent. rewrite <- Hh, <- Hl. cbn [numerator denominator].
    repeat split; try lia; nia.
  - apply update2_inv in Hu. destruct Hu as [Hl Hh].
    revert Hh Hl Hn0 Hfit. generalize (to_int w (x2 val b)). intros n.
    intros Hh Hl Hn0 Hfit.
    destruct (mediant_low_side w n _ _ _ _ Hln Hhn (proj1 Hld) (proj1 Hhd)
                Hdet Hn0 Hfit) as [El Eh].
    rewrite Eh in Hh. rewrite El in Hl.
    injection Hh as Hh. injection Hl as Hl.
    unfold adjacent. rewrite <- Hh, <- Hl. cbn [numerator denominator].
    repeat split; try lia; nia.
Qed.

(** ** The safety checks, up to 53 bits

    [double(MaxValue)] is exact when [int_type] has at most 53 bits, and
    an estimate that stays below it then bounds the integers it stands
    for: rounding to nearest never takes a sum or a product below an
    integer of at most 53 bits that the exact result is not below. *)

(** *** The order between integers and dyadic numbers *)

Lemma pow2_pos (k : Z) : 0 <= k -> 0 < 2 ^ k.
Proof. intros. apply Z.pow_pos_nonneg; lia. Qed.

Lemma ile_scale (N m e K : Z) :
  0 <= K -> 0 <= e + K -> (ile N m e <-> N * 2 ^ K <= m * 2 ^ (e + K)).
Proof.
  intros HK HeK. unfold ile.
  destruct (Z.le_gt_cases 0 e) as [He|He].
  - rewrite Z.max_l, Z.max_r by lia. rewrite Z.pow_0_r, Z.mul_1_r.
    rewrite Z.pow_add_r, Z.mul_assoc by lia.
    pose proof (pow2_pos K HK). split; intros H'; nia.
  - rewrite Z.max_r, Z.max_l by lia. rewrite Z.pow_0_r, Z.mul_1_r.
    replace K with (- e + (e + K)) at 1 by lia.
    rewrite Z.pow_add_r, Z.mul_assoc by lia.
    pose proof (pow2_pos (e + K) HeK). split; intros H'; nia.
Qed.

Lemma ile_mono (N N' m m' e : Z) :
  N' <= N -> m <= m' -> ile N m e -> ile N' m' e.
Proof.
  unfold ile. intros HN Hm H.
  pose proof (pow2_pos (Z.max 0 (- e))). pose proof (pow2_pos (Z.max 0 e)).
  assert (N' * 2 ^ Z.max 0 (- e) <= N * 2 ^ Z.max 0 (- e))
    by (apply Z.mul_le_mono_nonneg_r; lia).
  assert (m * 2 ^ Z.max 0 e <= m' * 2 ^ Z.max 0 e)
    by (apply Z.mul_le_mono_nonneg_r; lia).
  lia.
Qed.

Lemma ile_zero (m e : Z) : 0 <= m -> ile 0 m e.
Proof.
  unfold ile. intros Hm. pose proof (pow2_pos (Z.max 0 e)). nia.
Qed.

(** The same value with the exponent lowered by [k]. *)
Lemma ile_shift (N m e k : Z) :
  0 <= k -> (ile N (m * 2 ^ k) (e - k) <-> ile N m e).
Proof.
  intros Hk.
  set (K := Z.max 0 (- (e - k))).
  rewrite (ile_scale N (m * 2 ^ k) (e - k) K) by lia.
  rewrite (ile_scale N m e K) by lia.
  replace (e + K) with (k + (e - k + K)) by lia.
  rewrite (Z.pow_add_r 2 k) by lia. rewrite Z.mul_assoc. reflexivity.
Qed.

(** Dropping [p] bits of the mantissa keeps an integer bound as long as
    the new exponent is not positive. *)
Lemma ile_div (N m e p : Z) :
  0 < p -> e + p <= 0 -> ile N m e -> ile N (m / 2 ^ p) (e + p).
Proof.
  intros Hp He H.
  apply (ile_scale N m e (- e)) in H; [|lia|lia].
  rewrite Z.add_opp_diag_r, Z.pow_0_r, Z.mul_1_r in H.
  apply (ile_scale N (m / 2 ^ p) (e + p) (- (e + p))); [lia|lia|].
  rewrite Z.add_opp_diag_r, Z.pow_0_r, Z.mul_1_r.
  apply Z.div_le_lower_bound; [apply pow2_pos; lia|].
  rewrite Z.mul_comm, <- Z.mul_assoc, <- Z.pow_add_r by lia.
  replace (- (e + p) + p) with (- e) by lia. exact H.
Qed.

(** *** Rounding keeps integer lower bounds *)

Lemma ile_zero_mantissa (N e : Z) : ile N 0 e -> N <= 0.
Proof.
  unfold ile. intros H. pose proof (pow2_pos (Z.max 0 (- e))). nia.
Qed.

(** Rounding the exact value [M * 2^e] to nearest: the result is not below
    any integer of at most 53 bits that the exact value is not below; it
    is canonical when the input needed no shift to the left; and its
    exponent is at most one above the target. *)
Lemma round_aux_lower (M : positive) (e N : Z) :
  0 <= N <= 2 ^ 53 -> ile N (Zpos M) e ->
  let fe := fexp prec emax (Zpos (digits2_pos M) + e) in
  match binary_round_aux prec emax false (Zpos M) e loc_Exact with
  | S754_infinity s => s = false /\ 971 < Z.max e fe + 1
  | S754_zero _ => N <= 0
  | S754_finite s m' e' =>
      s = false /\ ile N (Zpos m') e' /\ e' <= Z.max e fe + 1 /\
      (e <= fe -> canonical_mantissa prec emax m' e' = true)
  | S754_nan => False
  end.
Proof.
  intros HN Hile fe.
  unfold binary_round_aux, shr_fexp. cbn [Zdigits2 shr_record_of_loc].
  fold fe.
  pose proof (digits2_pos_bounds M) as [HMl HMu].
  assert (Hfe : fe = Z.max (Zpos (digits2_pos M) + e - 53) (-1074))
    by apply fexp_eq.
  set (d := Zpos (digits2_pos M)) in *.
  assert (Hd : 1 <= d) by (unfold d; lia).
  destruct (fe - e) as [|p|p] eqn:Hk.
  - (* the input is canonical already *)
    cbn [shr shr_m loc_of_shr_record round_nearest_even Zdigits2
         shr_record_of_loc shr_r shr_s].
    fold d. fold fe. rewrite Hk. cbn [shr shr_m].
    destruct (e <=? emax - prec) eqn:Hov.
    + repeat split; trivial; [lia|]. intros _. apply canonical_fexp.
      fold d. fold fe. lia.
    + apply Z.leb_gt in Hov. unfold emax, prec in Hov. split; [trivial|lia].
  - (* [p] bits are rounded away *)
    cbn [shr]. set (mrs' := iter_pos shr_1 p _).
    assert (Hm1 : shr_m mrs' = Zpos M / 2 ^ Zpos p)
      by (apply shr_m_iter; cbn; lia).
    replace (e + Zpos p) with fe by lia.
    assert (Hp : 0 < 2 ^ Zpos p) by (apply pow2_pos; lia).
    assert (Hm1ge : 0 <= shr_m mrs')
      by (rewrite Hm1; apply Z.div_pos; lia).
    assert (Hm1lt : shr_m mrs' < 2 ^ 53).
    { rewrite Hm1. apply Z.div_lt_upper_bound; [lia|].
      rewrite <- Z.pow_add_r by lia.
      apply Z.lt_le_trans with (1 := HMu). apply Z.pow_le_mono_r; lia. }
    assert (Hnormal : -1074 < fe -> 2 ^ 52 <= shr_m mrs').
    { intros Hn. rewrite Hm1. apply Z.div_le_lower_bound; [lia|].
      rewrite <- Z.pow_add_r by lia.
      replace (Zpos p + 52) with (d - 1) by lia. exact HMl. }
    assert (Hile1 : ile N (shr_m mrs') fe).
    { destruct (Z.le_gt_cases fe 0) as [Hf|Hf].
      - rewrite Hm1. replace fe with (e + Zpos p) by lia.
        apply ile_div; trivial; lia.
      - specialize (Hnormal ltac:(lia)). unfold ile.
        rewrite Z.max_l, Z.max_r by lia. rewrite Z.pow_0_r, Z.mul_1_r.
        assert (2 <= 2 ^ fe).
        { change 2 with (2 ^ 1) at 1. apply Z.pow_le_mono_r; lia. }
        change (2 ^ 53) with (2 ^ 52 * 2) in HN. nia. }
    pose proof (round_nearest_even_range (shr_m mrs')
                  (loc_of_shr_record mrs')) as [Hr1 Hr2].
    destruct (round_nearest_even (shr_m mrs') (loc_of_shr_record mrs'))
      as [|p2|p2] eqn:Hm2; [ | | lia].
    + (* rounded to zero *)
      cbn [Zdigits2]. rewrite fexp_eq.
      destruct (Z.max (0 + fe - 53) (-1074) - fe) as [|q|q] eqn:Hk2;
        try lia; cbn [shr shr_m]; apply (ile_zero_mantissa N fe);
        replace 0 with (shr_m mrs') by lia; exact Hile1.
    + cbn [Zdigits2].
      destruct (Z.eq_dec (Zpos p2) (2 ^ 53)) as [Heq|Hne].
      * (* the mantissa has grown to 54 bits *)
        injection Heq as ->.
        change (Zpos (digits2_pos 9007199254740992)) with 54.
        rewrite fexp_eq. replace (Z.max (54 + fe - 53) (-1074) - fe) with 1
          by lia.
        cbn [shr iter_pos shr_1 shr_m].
        destruct (fe + 1 <=? emax - prec) eqn:Hov.
        -- split; [trivial|]. split.
           { apply (proj1 (ile_shift N (Zpos 4503599627370496) (fe + 1) 1
                             ltac:(lia))).
             replace (fe + 1 - 1) with fe by lia.
             apply (ile_mono N N (shr_m mrs')); [lia | | exact Hile1].
             change (Zpos 4503599627370496 * 2 ^ 1) with (2 ^ 53). lia. }
           split; [lia|]. intros _. apply canonical_fexp.
           change (Zpos (digits2_pos 4503599627370496)) with 53.
           rewrite fexp_eq. lia.
        -- apply Z.leb_gt in Hov. unfold emax, prec in Hov.
           split; [trivial|lia].
      * assert (Hp2 : Zpos p2 < 2 ^ 53) by lia.
        assert (Hd2 : Zpos (digits2_pos p2) <= 53)
          by (apply digits2_pos_le; lia).
        rewrite fexp_eq.
        destruct (Z.max (Zpos (digits2_pos p2) + fe - 53) (-1074) - fe)
          as [|q|q] eqn:Hk2; try lia; cbn [shr shr_m];
          (destruct (fe <=? emax - prec) eqn:Hov;
           [ split; [trivial|]; split;
             [ apply (ile_mono N N (shr_m mrs')); [lia | lia | exact Hile1] |];
             split; [lia|]; intros _; apply canonical_fexp; rewrite fexp_eq
           | apply Z.leb_gt in Hov; unfold emax, prec in Hov;
             split; [trivial|lia] ]).
        -- lia.
        -- destruct (Z.le_gt_cases fe (-1074)) as [Hs|Hs]; [lia|].
           specialize (Hnormal Hs).
           assert (52 < Zpos (digits2_pos p2))
             by (apply digits2_pos_gt; lia).
           lia.
  - (* the mantissa is shorter than the target allows *)
    cbn [shr shr_m loc_of_shr_record round_nearest_even Zdigits2
         shr_record_of_loc shr_r shr_s].
    fold d. fold fe. rewrite Hk. cbn [shr shr_m].
    destruct (e <=? emax - prec) eqn:Hov.
    + repeat split; trivial; [lia|]. intros He. lia.
    + apply Z.leb_gt in Hov. unfold emax, prec in Hov. split; [trivial|lia].
Qed.

Lemma int_below_mono (N N' : Z) (x : double) :
  N' <= N -> int_below N x -> int_below N' x.
Proof.
  intros HN. destruct x as [s|s| |s m e]; cbn [int_below]; trivial.
  - lia.
  - intros [-> H]. split; [reflexivity|].
    apply (ile_mono N N' (Zpos m)); trivial; lia.
Qed.

Ltac int_below_cases H :=
  cbn [int_below] in H;
  match type of H with
  | False => contradiction
  | _ = false => subst
  | _ /\ _ => let E := fresh in destruct H as [E H]; subst
  | _ => idtac
  end.

(** The same for [binary_round], which first aligns the mantissa. *)
Lemma round_lower (M : positive) (e N : Z) :
  0 <= N <= 2 ^ 53 -> ile N (Zpos M) e ->
  let fe := fexp prec emax (Zpos (digits2_pos M) + e) in
  match binary_round prec emax false M e with
  | S754_infinity s => s = false /\ 971 < fe + 1
  | S754_zero _ => N <= 0
  | S754_finite s m' e' =>
      s = false /\ ile N (Zpos m') e' /\ e' <= fe + 1 /\
      canonical_mantissa prec emax m' e' = true
  | S754_nan => False
  end.
Proof.
  intros HN Hile fe. unfold binary_round. fold fe.
  destruct (Z.le_gt_cases fe e) as [Hfe|Hfe].
  - rewrite shl_align_left by trivial.
    assert (Hile' : ile N (Zpos (shl_pos M (e - fe))) fe).
    { rewrite shl_pos_mul by lia.
      replace fe with (e - (e - fe)) at 2 by lia.
      apply ile_shift; [lia | exact Hile]. }
    pose proof (round_aux_lower (shl_pos M (e - fe)) fe N HN Hile') as H.
    cbv zeta in H. rewrite digits2_pos_shl in H by lia.
    replace (Zpos (digits2_pos M) + (e - fe) + fe)
      with (Zpos (digits2_pos M) + e) in H by lia.
    fold fe in H. rewrite Z.max_id in H.
    destruct (binary_round_aux prec emax false _ fe loc_Exact); trivial.
    destruct H as (H1 & H2 & H3 & H4). repeat split; trivial. apply H4; lia.
  - rewrite shl_align_none by lia.
    pose proof (round_aux_lower M e N HN Hile) as H.
    cbv zeta in H. fold fe in H. rewrite Z.max_r in H by lia.
    destruct (binary_round_aux prec emax false _ e loc_Exact); trivial.
    destruct H as (H1 & H2 & H3 & H4). repeat split; trivial. apply H4; lia.
Qed.

(** Sums and products of lower bounds, up to [2^53]. *)
Lemma add_lower (N M : Z) (x y : double) :
  0 <= N -> 0 <= M -> N + M <= 2 ^ 53 ->
  int_below N x -> int_below M y -> int_below (N + M) (add x y).
Proof.
  intros HN HM HNM Hx Hy.
  destruct x as [sx|sx| |sx mx ex], y as [sy|sy| |sy my ey];
    int_below_cases Hx; int_below_cases Hy.
  - (* 0 + 0 *) destruct sx, sy; cbn; lia.
  - (* 0 + inf *) reflexivity.
  - (* 0 + finite *) cbn. split; [reflexivity|].
    apply (ile_mono M _ (Zpos my)); trivial; lia.
  - (* inf + 0 *) reflexivity.
  - (* inf + inf *) reflexivity.
  - (* inf + finite *) reflexivity.
  - (* finite + 0 *) cbn. split; [reflexivity|].
    apply (ile_mono N _ (Zpos mx)); trivial; lia.
  - (* finite + inf *) reflexivity.
  - (* finite + finite *)
    unfold add, SFadd. set (ez := Z.min ex ey).
    rewrite !shl_align_left by (unfold ez; lia). cbn [fst cond_Zopp].
    rewrite <- Pos2Z.inj_add. cbn [binary_normalize].
    set (S := (shl_pos mx (ex - ez) + shl_pos my (ey - ez))%positive).
    assert (Hile : ile (N + M) (Zpos S) ez).
    { set (K := Z.max 0 (- ez)).
      apply (ile_scale _ _ _ K); [unfold K; lia | unfold K; lia|].
      apply (ile_scale N (Zpos mx) ex K) in Hx; [|unfold K; lia|unfold K, ez; lia].
      apply (ile_scale M (Zpos my) ey K) in Hy; [|unfold K; lia|unfold K, ez; lia].
      unfold S. rewrite Pos2Z.inj_add, !shl_pos_mul by (unfold ez; lia).
      rewrite !Z.mul_add_distr_r, <- !Z.mul_assoc, <- !Z.pow_add_r
        by (unfold K, ez; lia).
      replace (ex - ez + (ez + K)) with (ex + K) by lia.
      replace (ey - ez + (ez + K)) with (ey + K) by lia.
      lia. }
    pose proof (round_lower S ez (N + M) ltac:(lia) Hile) as H.
    cbv zeta in H.
    destruct (binary_round prec emax false S ez); cbn [int_below]; trivial.
    + tauto.
    + tauto.
Qed.

Lemma mul_lower (N M : Z) (x : double) (my : positive) (ey : Z) :
  0 <= N -> 0 <= M -> N * M <= 2 ^ 53 ->
  int_below N x -> ile M (Zpos my) ey ->
  int_below (N * M) (mul x (S754_finite false my ey)).
Proof.
  intros HN HM HNM Hx Hy.
  destruct x as [sx|sx| |sx mx ex]; int_below_cases Hx.
  - (* 0 * y *) cbn. nia.
  - (* inf * y *) reflexivity.
  - unfold mul, SFmul. cbn [xorb].
    assert (Hile : ile (N * M) (Zpos (mx * my)) (ex + ey)).
    { set (K1 := Z.max 0 (- ex)). set (K2 := Z.max 0 (- ey)).
      apply (ile_scale _ _ _ (K1 + K2)); [unfold K1, K2; lia..|].
      apply (ile_scale N (Zpos mx) ex K1) in Hx; [|unfold K1; lia..].
      apply (ile_scale M (Zpos my) ey K2) in Hy; [|unfold K2; lia..].
      rewrite Pos2Z.inj_mul.
      replace (ex + ey + (K1 + K2)) with ((ex + K1) + (ey + K2)) by lia.
      rewrite !Z.pow_add_r by (unfold K1, K2; lia).
      pose proof (pow2_pos K1 ltac:(unfold K1; lia)).
      pose proof (pow2_pos K2 ltac:(unfold K2; lia)).
      assert (0 <= N * 2 ^ K1) by nia. assert (0 <= M * 2 ^ K2) by nia.
      replace (N * M * (2 ^ K1 * 2 ^ K2))
        with ((N * 2 ^ K1) * (M * 2 ^ K2)) by ring.
      replace (Zpos mx * Zpos my * (2 ^ (ex + K1) * 2 ^ (ey + K2)))
        with ((Zpos mx * 2 ^ (ex + K1)) * (Zpos my * 2 ^ (ey + K2))) by ring.
      apply Z.mul_le_mono_nonneg; lia. }
    pose proof (round_aux_lower (mx * my) (ex + ey) (N * M) ltac:(nia) Hile)
      as H.
    cbv zeta in H.
    destruct (binary_round_aux prec emax false _ (ex + ey) loc_Exact);
      cbn [int_below]; trivial; tauto.
Qed.

(** *** Integers of at most 53 bits as doubles *)

Lemma of_int_pos (q : positive) :
  Zpos (digits2_pos q) <= 53 ->
  of_int (Zpos q)
  = S754_finite false (shl_pos q (53 - Zpos (digits2_pos q)))
                (Zpos (digits2_pos q) - 53).
Proof.
  intros Hd. unfold of_int. cbn [binary_normalize].
  rewrite (binary_round_left false q 0 (Zpos (digits2_pos q) - 53)).
  - f_equal. f_equal. lia.
  - rewrite fexp_eq. lia.
  - lia.
  - lia.
Qed.

Lemma ile_of_int (q : positive) :
  Zpos (digits2_pos q) <= 53 ->
  ile (Zpos q) (Zpos (shl_pos q (53 - Zpos (digits2_pos q))))
      (Zpos (digits2_pos q) - 53).
Proof.
  intros Hd. rewrite shl_pos_mul by lia.
  replace (Zpos (digits2_pos q) - 53)
    with (0 - (53 - Zpos (digits2_pos q))) by lia.
  apply ile_shift; [lia|]. unfold ile. cbn. lia.
Qed.

Lemma of_int_canonical (q : positive) :
  Zpos (digits2_pos q) <= 53 ->
  canonical_mantissa prec emax (shl_pos q (53 - Zpos (digits2_pos q)))
    (Zpos (digits2_pos q) - 53) = true.
Proof.
  intros Hd. apply canonical_fexp. rewrite digits2_pos_shl, fexp_eq by lia.
  lia.
Qed.

Lemma digits_small (q : positive) : Zpos q < 2 ^ 53 -> Zpos (digits2_pos q) <= 53.
Proof. intros H. apply digits2_pos_le; lia. Qed.

(** *** Comparing with [double(MaxValue)] *)

Lemma leb_of_int_lower (q : positive) (E : double) :
  Zpos q < 2 ^ 53 ->
  int_below (Zpos q + 1) E ->
  (forall m e, E = S754_finite false m e ->
               canonical_mantissa prec emax m e = true) ->
  leb (of_int (Zpos q)) E = true.
Proof.
  intros Hq HE Hcan. pose proof (digits_small q Hq) as Hd.
  rewrite of_int_pos by trivial.
  destruct E as [s|s| |s m e]; int_below_cases HE.
  - lia.
  - reflexivity.
  - specialize (Hcan m e eq_refl). apply canonical_fexp in Hcan.
    rewrite fexp_eq in Hcan.
    pose proof (digits2_pos_bounds q) as [Hql Hqu].
    pose proof (digits2_pos_bounds m) as [Hml Hmu].
    set (dq := Zpos (digits2_pos q)) in *.
    set (dm := Zpos (digits2_pos m)) in *.
    assert (Hdq : 1 <= dq) by (unfold dq; lia).
    unfold leb, SFleb. cbn [SFcompare].
    change (Pos.compare_cont Eq) with Pos.compare.
    destruct (Z.compare_spec (dq - 53) e) as [Heq|Hlt|Hgt]; trivial.
    + (* same exponent: compare the mantissas *)
      subst e.
      apply (ile_scale _ _ _ (53 - dq)) in HE; [|lia..].
      replace (dq - 53 + (53 - dq)) with 0 in HE by lia.
      rewrite Z.pow_0_r, Z.mul_1_r in HE.
      assert (Hlt : Zpos (shl_pos q (53 - dq)) < Zpos m).
      { rewrite shl_pos_mul by lia.
        pose proof (pow2_pos (53 - dq) ltac:(lia)). nia. }
      destruct (Pos.compare_spec (shl_pos q (53 - dq)) m); trivial.
      lia.
    + (* a smaller exponent cannot reach [MaxValue + 1] *)
      exfalso.
      assert (Hdm : dm <= 53) by lia.
      apply (ile_scale _ _ _ (- e)) in HE; [|lia..].
      rewrite Z.add_opp_diag_r, Z.pow_0_r, Z.mul_1_r in HE.
      assert (Hm53 : Zpos m < 2 ^ 53).
      { apply Z.lt_le_trans with (1 := Hmu). apply Z.pow_le_mono_r; lia. }
      assert (H1 : 2 ^ (dq - 1) * 2 ^ (- e) <= (Zpos q + 1) * 2 ^ (- e)).
      { apply Z.mul_le_mono_nonneg_r; [apply Z.pow_nonneg|]; lia. }
      rewrite <- Z.pow_add_r in H1 by lia.
      assert (H2 : 2 ^ 53 <= 2 ^ (dq - 1 + - e))
        by (apply Z.pow_le_mono_r; lia).
      lia.
Qed.

(** *** The sum is canonical *)

Lemma add_canonical_r (x : double) (my : positive) (ey : Z) :
  canonical_mantissa prec emax my ey = true ->
  int_below 0 x ->
  forall m e, add x (S754_finite false my ey) = S754_finite false m e ->
              canonical_mantissa prec emax m e = true.
Proof.
  intros Hy Hx m e.
  destruct x as [sx|sx| |sx mx ex]; int_below_cases Hx.
  - cbn. now intros [= <- <-].
  - discriminate.
  - unfold add, SFadd. set (ez := Z.min ex ey).
    rewrite !shl_align_left by (unfold ez; lia). cbn [fst cond_Zopp].
    rewrite <- Pos2Z.inj_add. cbn [binary_normalize].
    set (S := (shl_pos mx (ex - ez) + shl_pos my (ey - ez))%positive).
    pose proof (round_lower S ez 0 ltac:(lia) (ile_zero (Zpos S) ez ltac:(lia))) as H.
    cbv zeta in H.
    destruct (binary_round prec emax false S ez); try discriminate.
    intros [= _ <- <-]. tauto.
Qed.

Lemma add_canonical_l (y : double) (mx : positive) (ex : Z) :
  canonical_mantissa prec emax mx ex = true ->
  int_below 0 y ->
  forall m e, add (S754_finite false mx ex) y = S754_finite false m e ->
              canonical_mantissa prec emax m e = true.
Proof.
  intros Hx Hy m e.
  destruct y as [sy|sy| |sy my ey]; int_below_cases Hy.
  - cbn. now intros [= <- <-].
  - discriminate.
  - unfold add, SFadd. set (ez := Z.min ex ey).
    rewrite !shl_align_left by (unfold ez; lia). cbn [fst cond_Zopp].
    rewrite <- Pos2Z.inj_add. cbn [binary_normalize].
    set (S := (shl_pos mx (ex - ez) + shl_pos my (ey - ez))%positive).
    pose proof (round_lower S ez 0 ltac:(lia) (ile_zero (Zpos S) ez ltac:(lia))) as H.
    cbv zeta in H.
    destruct (binary_round prec emax false S ez); try discriminate.
    intros [= _ <- <-]. tauto.
Qed.

(** *** The floor as a lower bound *)

Lemma int_below_floor (x : double) (k : Z) :
  nonneg_or_nan x = true -> floor x = Some k -> 0 <= k /\ int_below k x.
Proof.
  destruct x as [s|s| |s m e]; cbn [nonneg_or_nan floor]; try discriminate.
  - intros _ [= <-]. cbn. lia.
  - intros Hs. destruct s; [discriminate|]. clear Hs. cbn [cond_Zopp].
    intros H.
    assert (Hk : k = if 0 <=? e then Zpos m * 2 ^ e
                     else Zpos m / 2 ^ (- e)) by congruence.
    clear H. subst k.
    destruct (Z.leb_spec 0 e) as [He|He].
    + split; [pose proof (pow2_pos e He); nia|].
      unfold int_below. split; [reflexivity|]. unfold ile.
      rewrite (Z.max_l 0 (- e)), (Z.max_r 0 e) by lia.
      rewrite Z.pow_0_r. lia.
    + pose proof (pow2_pos (- e) ltac:(lia)) as Hp.
      split; [apply Z.div_pos; lia|].
      unfold int_below. split; [reflexivity|]. unfold ile.
      rewrite (Z.max_r 0 (- e)), (Z.max_l 0 e) by lia.
      rewrite Z.pow_0_r, Z.mul_1_r.
      rewrite Z.mul_comm. apply Z.mul_div_le. lia.
Qed.

(** *** Where a NaN can come from *)

Lemma shr_fexp_nonneg (m e : Z) (l : location) :
  0 <= m -> 0 <= shr_m (fst (shr_fexp prec emax m e l)).
Proof.
  intros Hm. unfold shr_fexp, shr.
  assert (H0 : shr_m (shr_record_of_loc m l) = m) by (destruct l as [|[]]; reflexivity).
  destruct (fexp prec emax (Zdigits2 m + e) - e) as [|p|p]; cbn [fst]; try lia.
  rewrite shr_m_iter by lia. rewrite H0.
  apply Z.div_pos; [lia | apply pow2_pos; lia].
Qed.

Lemma binary_round_aux_not_nan (s : bool) (m e : Z) (l : location) :
  0 <= m -> binary_round_aux prec emax s m e l <> S754_nan.
Proof.
  intros Hm. unfold binary_round_aux.
  pose proof (shr_fexp_nonneg m e l Hm) as H1.
  destruct (shr_fexp prec emax m e l) as [mrs' e']. cbn [fst] in H1.
  pose proof (round_nearest_even_range (shr_m mrs') (loc_of_shr_record mrs'))
    as [H2 _].
  pose proof (shr_fexp_nonneg
                (round_nearest_even (shr_m mrs') (loc_of_shr_record mrs'))
                e' loc_Exact ltac:(lia)) as H3.
  destruct (shr_fexp prec emax _ e' loc_Exact) as [mrs'' e''].
  cbn [fst] in H3.
  destruct (shr_m mrs''); [discriminate | | lia].
  destruct (e'' <=? emax - prec); discriminate.
Qed.

Lemma binary_round_not_nan (s : bool) (m : positive) (e : Z) :
  binary_round prec emax s m e <> S754_nan.
Proof.
  unfold binary_round. destruct (shl_align m e _) as [mz ez].
  apply binary_round_aux_not_nan. lia.
Qed.

Lemma binary_normalize_not_nan (m e : Z) (s : bool) :
  binary_normalize prec emax m e s <> S754_nan.
Proof.
  destruct m; cbn [binary_normalize];
    [discriminate | apply binary_round_not_nan..].
Qed.

Lemma binary_round_sign (s : bool) (m : positive) (e : Z) :
  match binary_round prec emax s m e with
  | S754_zero s' | S754_infinity s' | S754_finite s' _ _ => s' = s
  | S754_nan => True
  end.
Proof.
  unfold binary_round. destruct (shl_align m e _) as [mz ez].
  apply binary_round_aux_sign.
Qed.

Lemma sub_not_nan (x y : double) :
  x <> S754_nan -> is_finite y = true -> sub x y <> S754_nan.
Proof.
  unfold sub.
  destruct x as [sx|sx| |sx mx ex], y as [sy|sy| |sy my ey];
    cbn [is_finite SFsub]; intros Hx Hy; try discriminate Hy;
    try congruence; try discriminate.
  - destruct sx, sy; discriminate.
  - apply binary_normalize_not_nan.
Qed.

Lemma sub_finite_not_nan (x y : double) :
  is_finite x = true -> y <> S754_nan -> sub x y <> S754_nan.
Proof.
  unfold sub.
  destruct x as [sx|sx| |sx mx ex], y as [sy|sy| |sy my ey];
    cbn [is_finite SFsub]; intros Hx Hy; try discriminate Hy;
    try congruence; try discriminate.
  - destruct sx, sy; discriminate.
  - apply binary_normalize_not_nan.
Qed.

Lemma div_core_nonneg (a b : positive) (ea eb : Z) :
  0 <= fst (fst (SFdiv_core_binary prec emax (Zpos a) ea (Zpos b) eb)).
Proof.
  unfold SFdiv_core_binary.
  set (e' := Z.min _ _). set (s := ea - eb - e').
  set (m' := match s with Zpos _ => Z.shiftl (Zpos a) s | 0 => Zpos a
                     | Zneg _ => 0 end).
  assert (Hm : 0 <= m').
  { unfold m'. destruct s; try lia. apply Z.shiftl_nonneg. lia. }
  pose proof (Z_div_mod m' (Zpos b) ltac:(lia)) as H.
  destruct (Z.div_eucl m' (Zpos b)) as [q r]. cbn [fst]. nia.
Qed.

(** The quotient of two positive finite doubles is not negative and not a
    NaN. *)
Lemma div_finite_class (ma mb : positive) (ea eb : Z) :
  int_below 0 (div (S754_finite false ma ea) (S754_finite false mb eb)).
Proof.
  unfold div, SFdiv. pose proof (div_core_nonneg ma mb ea eb) as Hq.
  destruct (SFdiv_core_binary prec emax (Zpos ma) ea (Zpos mb) eb)
    as [[mz ez] lz]. cbn [fst] in Hq. cbn [xorb].
  pose proof (binary_round_aux_sign false mz ez lz) as Hs.
  pose proof (binary_round_aux_not_nan false mz ez lz Hq) as Hn.
  destruct (binary_round_aux prec emax false mz ez lz); cbn [int_below].
  - lia.
  - exact Hs.
  - congruence.
  - split; [exact Hs|]. apply ile_zero. lia.
Qed.

(** The product of a positive finite double and a non-negative one. *)
Lemma mul_finite_class (mx : positive) (ex : Z) (y : double) :
  int_below 0 y -> is_finite y = true ->
  int_below 0 (mul (S754_finite false mx ex) y).
Proof.
  destruct y as [sy|sy| |sy my ey]; cbn [is_finite]; intros Hy Hf;
    try discriminate Hf; int_below_cases Hy.
  - unfold mul. cbn [SFmul int_below]. lia.
  - unfold mul, SFmul. cbn [xorb].
    pose proof (round_aux_lower (mx * my) (ex + ey) 0 ltac:(lia)
                  (ile_zero (Zpos (mx * my)) (ex + ey) ltac:(lia))) as H.
    cbv zeta in H.
    destruct (binary_round_aux prec emax false _ (ex + ey) loc_Exact);
      cbn [int_below]; trivial; tauto.
Qed.

Lemma digits2_pos_mono (a b : positive) :
  Zpos a <= Zpos b -> Zpos (digits2_pos a) <= Zpos (digits2_pos b).
Proof.
  intros Hab.
  pose proof (digits2_pos_bounds a) as [Ha _].
  pose proof (digits2_pos_bounds b) as [_ Hb].
  destruct (Z.le_gt_cases (Zpos (digits2_pos a)) (Zpos (digits2_pos b)))
    as [H|H]; trivial.
  assert (2 ^ Zpos (digits2_pos b) <= 2 ^ (Zpos (digits2_pos a) - 1))
    by (apply Z.pow_le_mono_r; lia).
  lia.
Qed.

(** Taking a non-negative double away from a positive finite one neither
    overflows nor gives a NaN. *)
Lemma sub_from_finite (mx : positive) (ex : Z) (y : double) :
  Zpos (digits2_pos mx) + ex <= 1023 -> int_below 0 y ->
  sub (S754_finite false mx ex) y <> S754_nan /\
  sub (S754_finite false mx ex) y <> S754_infinity false.
Proof.
  intros Hx Hy.
  destruct y as [sy|sy| |sy my ey]; int_below_cases Hy.
  - cbn. split; discriminate.
  - cbn. split; discriminate.
  - unfold sub, SFsub. set (ez := Z.min ex ey).
    rewrite !shl_align_left by (unfold ez; lia). cbn [fst cond_Zopp].
    set (A := shl_pos mx (ex - ez)). set (B := shl_pos my (ey - ez)).
    split; [apply binary_normalize_not_nan|].
    destruct (Zpos A - Zpos B) as [|D|D] eqn:HD; cbn [binary_normalize].
    + discriminate.
    + pose proof (round_lower D ez 0 ltac:(lia)
                    (ile_zero (Zpos D) ez ltac:(lia))) as H.
      cbv zeta in H.
      destruct (binary_round prec emax false D ez); try discriminate.
      destruct H as [_ H]. rewrite fexp_eq in H.
      assert (Hd : Zpos (digits2_pos D) <= Zpos (digits2_pos A))
        by (apply digits2_pos_mono; lia).
      unfold A in Hd. rewrite digits2_pos_shl in Hd by (unfold ez; lia).
      lia.
    + pose proof (binary_round_sign true D ez) as H.
      destruct (binary_round prec emax true D ez); try discriminate.
      congruence.
Qed.

Lemma sub_from_zero (s : bool) (y : double) :
  int_below 0 y -> is_finite y = true ->
  pos_or_nan (sub (S754_zero s) y) = false.
Proof.
  destruct y as [sy|sy| |sy my ey]; cbn [is_finite]; intros Hy Hf;
    try discriminate Hf; int_below_cases Hy.
  - destruct s, sy; reflexivity.
  - reflexivity.
Qed.

(** *** The two distances and their quotients *)

Lemma of_int_cases (z : Z) :
  0 <= z < 2 ^ 53 ->
  of_int z = S754_zero false \/
  exists q : positive,
    z = Zpos q /\ Zpos (digits2_pos q) <= 53 /\
    of_int z = S754_finite false (shl_pos q (53 - Zpos (digits2_pos q)))
                           (Zpos (digits2_pos q) - 53).
Proof.
  intros Hz. destruct z as [|q|q]; [left; reflexivity | | lia].
  right. exists q. pose proof (digits_small q ltac:(lia)) as Hd.
  split; [reflexivity|]. split; [exact Hd|]. now apply of_int_pos.
Qed.

Lemma of_int_positive (z : Z) :
  1 <= z < 2 ^ 53 ->
  exists q : positive,
    z = Zpos q /\ Zpos (digits2_pos q) <= 53 /\
    of_int z = S754_finite false (shl_pos q (53 - Zpos (digits2_pos q)))
                           (Zpos (digits2_pos q) - 53).
Proof.
  intros Hz. destruct z as [|q|q]; try lia.
  exists q. pose proof (digits_small q ltac:(lia)) as Hd.
  split; [reflexivity|]. split; [exact Hd|]. now apply of_int_pos.
Qed.

Lemma int_below_not_nan (N : Z) (x : double) : int_below N x -> x <> S754_nan.
Proof. destruct x; cbn; try discriminate. contradiction. Qed.

Lemma sub_from_zero_class (s : bool) (y : double) :
  int_below 0 y ->
  sub (S754_zero s) y <> S754_nan /\ sub (S754_zero s) y <> S754_infinity false.
Proof.
  intros Hy. destruct y as [sy|sy| |sy my ey]; int_below_cases Hy.
  - destruct s, sy; split; discriminate.
  - split; discriminate.
  - split; discriminate.
Qed.

Lemma positive_finite (x : double) :
  pos_or_nan x = true -> x <> S754_nan -> x <> S754_infinity false ->
  exists m e, x = S754_finite false m e.
Proof.
  destruct x as [s|[]| |[] m e]; cbn; intros H1 H2 H3;
    try discriminate; try congruence.
  now exists m, e.
Qed.

Lemma positive_class (x : double) :
  pos_or_nan x = true -> x <> S754_nan ->
  x = S754_infinity false \/ exists m e, x = S754_finite false m e.
Proof.
  destruct x as [s|[]| |[] m e]; cbn; intros H1 H2;
    try discriminate; try congruence.
  - now left.
  - right. now exists m, e.
Qed.

Section Distances.

Variable w : Z.
Variables (val : double) (b : bounds).

Hypothesis Hval : int_below 0 val.
Hypothesis Hfin : is_finite val = true.
Hypothesis Hln : 0 <= numerator (low b) < 2 ^ 53.
Hypothesis Hhn : 0 <= numerator (high b) < 2 ^ 53.
Hypothesis Hld : 1 <= denominator (low b) < 2 ^ 53.
Hypothesis Hhd : 1 <= denominator (high b) < 2 ^ 53.

(** [testHigh] is neither a NaN nor [+inf]; [testLow] is not a NaN. *)
Lemma testHigh_shape :
  testHigh val b <> S754_nan /\ testHigh val b <> S754_infinity false.
Proof.
  unfold testHigh.
  destruct (of_int_positive (denominator (high b)) ltac:(lia))
    as (qd & Hqd & Hdd & Hd). rewrite Hd.
  pose proof (mul_finite_class (shl_pos qd (53 - Zpos (digits2_pos qd)))
                (Zpos (digits2_pos qd) - 53) val Hval Hfin) as HY.
  destruct (of_int_cases (numerator (high b)) ltac:(lia))
    as [Hn | (qn & Hqn & Hdn & Hn)]; rewrite Hn.
  - now apply sub_from_zero_class.
  - apply sub_from_finite; trivial.
    rewrite digits2_pos_shl by lia. lia.
Qed.

Lemma testLow_shape : testLow val b <> S754_nan.
Proof.
  unfold testLow.
  destruct (of_int_positive (denominator (low b)) ltac:(lia))
    as (qd & Hqd & Hdd & Hd). rewrite Hd.
  pose proof (mul_finite_class (shl_pos qd (53 - Zpos (digits2_pos qd)))
                (Zpos (digits2_pos qd) - 53) val Hval Hfin) as HY.
  apply sub_not_nan; [now apply int_below_not_nan in HY|].
  destruct (of_int_cases (numerator (low b)) ltac:(lia))
    as [Hn | (qn & Hqn & Hdn & Hn)]; rewrite Hn; reflexivity.
Qed.

(** Past the two precision tests, with a positive tolerance, both
    quotients are non-negative doubles or [+inf], never a NaN. *)
Lemma quotients_class (Precision : double) :
  ltb zero Precision = true ->
  ltb (testHigh val b) Precision = false ->
  ltb (testLow val b) Precision = false ->
  int_below 0 (x1 val b) /\ int_below 0 (x2 val b).
Proof.
  intros HP HtH HtL.
  apply (not_below_positive _ _ HP) in HtH.
  apply (not_below_positive _ _ HP) in HtL.
  destruct testHigh_shape as [H1 H2].
  destruct (positive_finite _ HtH H1 H2) as (mh & eh & Eh).
  destruct (positive_class _ HtL testLow_shape) as [El | (ml & el & El)];
    unfold x1, x2; rewrite Eh, El.
  - split; cbn; [lia | reflexivity].
  - split; apply div_finite_class.
Qed.

End Distances.

(** *** The safety checks are sound up to 53 bits *)

Lemma int_below_one : int_below 1 one.
Proof. split; [reflexivity|]. unfold ile. vm_compute. discriminate. Qed.

(** [(x + 1) * double(a)] is not below [c * a] when [x] is not below
    [c - 1], as long as [c * a] has at most 53 bits. *)
Lemma product_lower (a : Z) (X : double) (c : Z) :
  1 <= c -> 1 <= a < 2 ^ 53 -> c * a <= 2 ^ 53 ->
  int_below (c - 1) X ->
  int_below (c * a) (mul (add X one) (of_int a)).
Proof.
  intros Hc Ha Hca HX.
  destruct (of_int_positive a Ha) as (q & -> & Hd & ->).
  apply mul_lower; [lia | lia | exact Hca | | now apply ile_of_int].
  replace c with (c - 1 + 1) by lia.
  apply add_lower; [lia | lia | nia | exact HX | exact int_below_one].
Qed.

(** The multiplier at which the estimate reaches [MaxValue + 1]. *)
Lemma reach_bounds (M a d : Z) :
  1 <= a <= M -> 1 <= d <= M ->
  let c := (M - d) / a + 1 in
  1 <= c /\ M + 1 <= c * a + d /\ c * a + d <= 2 * M.
Proof.
  intros Ha Hd c.
  pose proof (Z.div_pos (M - d) a ltac:(lia) ltac:(lia)) as H0.
  pose proof (Z.mul_div_le (M - d) a ltac:(lia)) as H1.
  pose proof (Z.mul_succ_div_gt (M - d) a ltac:(lia)) as H2.
  unfold c. split; [lia|]. split; nia.
Qed.

(** A non-negative double that is below an integer has its floor below
    that integer. *)
Lemma class_floor (X : double) (N : Z) :
  int_below 0 X -> ~ int_below N X ->
  exists k, floor X = Some k /\ 0 <= k < N /\ nonneg_or_nan X = true.
Proof.
  intros H0 HN.
  destruct X as [s|s| |s m e]; int_below_cases H0.
  - exists 0. cbn in HN. cbn. repeat split; lia.
  - exfalso. apply HN. reflexivity.
  - destruct (int_below_floor (S754_finite false m e) _ eq_refl eq_refl)
      as [Hk Hb].
    eexists. split; [reflexivity|]. split; [|reflexivity].
    split; [exact Hk|].
    apply Z.nle_gt. intros Hle. apply HN.
    now apply (int_below_mono _ N) in Hb.
Qed.

Section Guards.

Variable w : Z.
Variables (val : double) (b : bounds).

Hypothesis Hw : 1 <= MaxValue w <= 2 ^ 52.
Hypothesis Hld : 1 <= denominator (low b) <= MaxValue w.
Hypothesis Hhd : 1 <= denominator (high b) <= MaxValue w.

(** The estimate of line 337 reaches [double(MaxValue)] as soon as [x1] is
    not below the largest multiplier whose update fits. *)
Lemma guard1_reached :
  int_below ((MaxValue w - denominator (high b)) / denominator (low b))
            (x1 val b) ->
  guard1 w val b = true.
Proof.
  intros HX. unfold guard1.
  destruct (reach_bounds (MaxValue w) _ _ Hld Hhd) as (Hc & Hlo & Hhi).
  set (c := (MaxValue w - denominator (high b)) / denominator (low b) + 1)
    in *.
  replace ((MaxValue w - denominator (high b)) / denominator (low b))
    with (c - 1) in HX by (unfold c; lia).
  assert (H53 : 2 * 2 ^ 52 = 2 ^ 53) by reflexivity.
  pose proof (product_lower (denominator (low b)) (x1 val b) c Hc
                ltac:(lia) ltac:(lia) HX) as HP.
  destruct (of_int_positive (denominator (high b)) ltac:(lia))
    as (qd & Hqd & Hdd & Hd).
  destruct (of_int_positive (MaxValue w) ltac:(lia))
    as (qm & Hqm & Hdm & _).
  rewrite Hqm. apply leb_of_int_lower; [lia | |].
  - apply (int_below_mono (c * denominator (low b) + denominator (high b)));
      [lia|].
    apply add_lower; [nia | lia | lia | exact HP |].
    rewrite Hd, Hqd. split; [reflexivity | now apply ile_of_int].
  - rewrite Hd. apply add_canonical_r; [now apply of_int_canonical|].
    apply (int_below_mono (c * denominator (low b))); [nia | exact HP].
Qed.

(** The same for the estimate of line 367 and [x2]. *)
Lemma guard2_reached :
  int_below ((MaxValue w - denominator (low b)) / denominator (high b))
            (x2 val b) ->
  guard2 w val b = true.
Proof.
  intros HX. unfold guard2.
  destruct (reach_bounds (MaxValue w) _ _ Hhd Hld) as (Hc & Hlo & Hhi).
  set (c := (MaxValue w - denominator (low b)) / denominator (high b) + 1)
    in *.
  replace ((MaxValue w - denominator (low b)) / denominator (high b))
    with (c - 1) in HX by (unfold c; lia).
  assert (H53 : 2 * 2 ^ 52 = 2 ^ 53) by reflexivity.
  pose proof (product_lower (denominator (high b)) (x2 val b) c Hc
                ltac:(lia) ltac:(lia) HX) as HP.
  destruct (of_int_positive (denominator (low b)) ltac:(lia))
    as (qd & Hqd & Hdd & Hd).
  destruct (of_int_positive (MaxValue w) ltac:(lia))
    as (qm & Hqm & Hdm & _).
  rewrite Hqm. apply leb_of_int_lower; [lia | |].
  - apply (int_below_mono (denominator (low b) + c * denominator (high b)));
      [lia|].
    apply add_lower; [lia | nia | lia | | exact HP].
    rewrite Hd, Hqd. split; [reflexivity | now apply ile_of_int].
  - rewrite Hd. apply add_canonical_l; [now apply of_int_canonical|].
    apply (int_below_mono (c * denominator (high b))); [nia | exact HP].
Qed.

Lemma in_range_small (k : Z) : 0 <= k <= MaxValue w -> in_range w k = true.
Proof.
  intros Hk. unfold in_range. apply andb_true_intro.
  split; apply Z.leb_le; [|lia].
  unfold MinValue. unfold MaxValue in *. lia.
Qed.

(** When the check of line 337 lets the update through, the multiplier is
    the floor of [x1] and the new denominators fit. *)
Lemma guard1_sound :
  int_below 0 (x1 val b) -> guard1 w val b = false ->
  0 <= to_int w (x1 val b) /\
  (to_int w (x1 val b) + 1) * denominator (low b) + denominator (high b)
  <= MaxValue w.
Proof.
  intros HX Hg.
  destruct (class_floor (x1 val b)
              ((MaxValue w - denominator (high b)) / denominator (low b)) HX)
    as (k & Hk & Hkr & Hnn).
  { intros H. apply guard1_reached in H. congruence. }
  pose proof (Z.mul_div_le (MaxValue w - denominator (high b))
                (denominator (low b)) ltac:(lia)) as H1.
  assert (Hfit : (k + 1) * denominator (low b) + denominator (high b)
                 <= MaxValue w) by nia.
  rewrite (to_int_floor w _ k Hnn Hk) by (apply in_range_small; nia).
  split; [lia | exact Hfit].
Qed.

(** When the check of line 367 lets the update through, the multiplier is
    the floor of [x2] and the new denominators fit. *)
Lemma guard2_sound :
  int_below 0 (x2 val b) -> guard2 w val b = false ->
  0 <= to_int w (x2 val b) /\
  denominator (low b) + (to_int w (x2 val b) + 1) * denominator (high b)
  <= MaxValue w.
Proof.
  intros HX Hg.
  destruct (class_floor (x2 val b)
              ((MaxValue w - denominator (low b)) / denominator (high b)) HX)
    as (k & Hk & Hkr & Hnn).
  { intros H. apply guard2_reached in H. congruence. }
  pose proof (Z.mul_div_le (MaxValue w - denominator (low b))
                (denominator (high b)) ltac:(lia)) as H1.
  assert (Hfit : denominator (low b) + (k + 1) * denominator (high b)
                 <= MaxValue w) by nia.
  rewrite (to_int_floor w _ k Hnn Hk) by (apply in_range_small; nia).
  split; [lia | exact Hfit].
Qed.

End Guards.

(** Beyond 53 bits the estimate is a rounded one.  With 64 bits, [x1 = 2]
    and these two coprime denominators it stays below [double(MaxValue)],
    although [(2 + 1) * ld + hd] is [2^63 + 62]. *)
Lemma estimate_rounded_64 :
  Z.gcd 2253264013309621887 2463579996925910209 = 1
  /\ MaxValue int64 < (2 + 1) * 2253264013309621887 + 2463579996925910209
  /\ leb (of_int (MaxValue int64))
         (add (mul (add (of_int 2) one) (of_int 2253264013309621887))
              (of_int 2463579996925910209)) = false.
Proof.
  repeat split; vm_compute; reflexivity.
Qed.

(** *** Along the passes of a call *)

Lemma MaxValue_53 (w : Z) : 2 <= w <= 53 -> 1 <= MaxValue w <= 2 ^ 52.
Proof.
  intros Hw. unfold MaxValue.
  assert (2 ^ 1 <= 2 ^ (w - 1)) by (apply Z.pow_le_mono_r; lia).
  assert (2 ^ (w - 1) <= 2 ^ 52) by (apply Z.pow_le_mono_r; lia).
  lia.
Qed.

(** Up to 53 bits a pass that goes round again has an update that stays
    within [int_type]: the safety check has seen to it. *)
Lemma step_update_fits (w : Z) (ndebug : bool) (val Precision : double)
  (b b' : bounds) :
  2 <= w <= 53 ->
  int_below 0 val -> is_finite val = true ->
  ltb zero Precision = true ->
  adjacent w b ->
  step w ndebug val Precision b = Continue b' ->
  update_fits w val b.
Proof.
  intros Hw Hval Hfin HP (Hln & Hhn & Hld & Hhd & Hdet) Hs.
  pose proof (MaxValue_53 w Hw) as HM.
  assert (H53 : 2 ^ 52 < 2 ^ 53) by reflexivity.
  destruct (step_continue_inv w _ _ _ _ _ Hs) as (HtH & HtL & Hu).
  destruct (quotients_class val b Hval Hfin ltac:(lia) ltac:(lia) ltac:(lia)
              ltac:(lia) Precision HP HtH HtL) as [Hx1 Hx2].
  unfold update_fits.
  destruct Hu as [(Hx & Hg & _) | (Hx & Hg & _)]; rewrite Hx.
  - now apply guard1_sound.
  - now apply guard2_sound.
Qed.

(** With a negative remainder the first pass does not go round again. *)
Lemma negative_first_pass (w : Z) (ndebug : bool) (m : positive) (e : Z)
  (Precision : double) (b' : bounds) :
  below_one (S754_finite true m e) = true ->
  ltb zero Precision = true ->
  step w ndebug (S754_finite true m e) Precision initial <> Continue b'.
Proof.
  intros Hb HP. cbn [below_one] in Hb. apply andb_prop in Hb as [He Hc].
  apply Z.leb_le in He. apply canonical_fexp in Hc.
  assert (HtL : testLow (S754_finite true m e) initial = S754_finite true m e).
  { unfold testLow. cbn [initial low numerator denominator].
    rewrite mul_one_exact by (trivial; lia). apply sub_zero_exact. }
  unfold step.
  destruct (negb ndebug && negb _); [discriminate|].
  destruct (ltb (testHigh _ initial) Precision); [discriminate|].
  rewrite HtL, (negative_below_positive m e Precision HP). discriminate.
Qed.

Lemma initial_adjacent (w : Z) : 1 <= MaxValue w -> adjacent w initial.
Proof. intros H. unfold adjacent. cbn. lia. Qed.

(** The bounds stay adjacent along the passes. *)
Lemma passes_adjacent (w : Z) (ndebug : bool) (val Precision : double)
  (k : nat) (b bk : bounds) :
  2 <= w <= 53 ->
  int_below 0 val -> is_finite val = true ->
  ltb zero Precision = true ->
  adjacent w b ->
  passes w k ndebug val Precision b = Continue bk ->
  adjacent w bk.
Proof.
  intros Hw Hval Hfin HP. revert b.
  induction k as [|k IH]; intros b Hb Hk; cbn [passes] in Hk.
  - now injection Hk as <-.
  - destruct (step w ndebug val Precision b) as [| b1 | |] eqn:Hs;
      try discriminate Hk.
    apply (IH b1); [|exact Hk].
    pose proof (step_update_fits w _ _ _ _ _ Hw Hval Hfin HP Hb Hs) as Hf.
    destruct (fitting_update_denominators w _ _ _ _ _ Hb Hs Hf)
      as (_ & _ & _ & H).
    exact H.
Qed.

(** When the first pass does not go round again, no later pass exists. *)
Lemma passes_first (w : Z) (ndebug : bool) (val Precision : double)
  (k : nat) (b bk b' : bounds) :
  (forall b1, step w ndebug val Precision b <> Continue b1) ->
  passes w k ndebug val Precision b = Continue bk ->
  step w ndebug val Precision bk = Continue b' -> False.
Proof.
  intros Hn Hk Hs. destruct k as [|k]; cbn [passes] in Hk.
  - injection Hk as <-. now apply Hn in Hs.
  - destruct (step w ndebug val Precision b) as [| b1 | |] eqn:E;
      try discriminate Hk.
    now apply (Hn b1).
Qed.


(** The denominators along a call, for an [int_type] of at most 53 bits
    ([int] and [int32_t] of test.cpp): with a valid value whose integer
    part fits and a positive tolerance, every pass that performs a mediant
    update starts from bounds with determinant 1 and ends with such
    bounds, lowers neither denominator and raises at least one of them;
    the safety check has kept the update within [int_type]. *)
Theorem mediant_update_denominators (w : Z) (ndebug : bool)
  (val Precision : double) (z : Z) (k : nat) (bk b' : bounds) :
  2 <= w <= 53 ->
  valid val = true -> trunc val = Some z -> in_range w z = true ->
  ltb zero Precision = true ->
  passes w k ndebug (remainder w val) Precision initial = Continue bk ->
  step w ndebug (remainder w val) Precision bk = Continue b' ->
  denominator (low bk) <= denominator (low b')
  /\ denominator (high bk) <= denominator (high b')
  /\ (denominator (low bk) < denominator (low b')
      \/ denominator (high bk) < denominator (high b'))
  /\ adjacent w bk /\ adjacent w b'.
Proof.
  intros Hw Hv Hz Hr HP Hk Hs.
  destruct (remainder_in_range w val z Hz Hr) as [_ Hrem].
  pose proof (remainder_below_one val z Hv Hz) as Hb.
  rewrite <- Hrem in Hb. clear Hrem.
  destruct (remainder w val) as [s|s| |[] m e] eqn:Er;
    try discriminate Hb.
  - (* the remainder is zero *)
    assert (Hc : int_below 0 (S754_zero s)) by (cbn; lia).
    assert (Hbk : adjacent w bk).
    { apply (passes_adjacent w ndebug (S754_zero s) Precision k initial bk
               Hw Hc eq_refl HP); [|exact Hk].
      apply initial_adjacent. apply MaxValue_53 in Hw. lia. }
    pose proof (step_update_fits w _ _ _ _ _ Hw Hc eq_refl HP Hbk Hs) as Hf.
    destruct (fitting_update_denominators w _ _ _ _ _ Hbk Hs Hf)
      as (H1 & H2 & H3 & H4).
    tauto.
  - (* a negative remainder: the first pass leaves the loop *)
    exfalso.
    apply (passes_first w ndebug (S754_finite true m e) Precision k initial
             bk b'); trivial.
    intros b1. now apply negative_first_pass.
  - assert (Hc : int_below 0 (S754_finite false m e))
      by (split; [reflexivity | apply ile_zero; lia]).
    assert (Hbk : adjacent w bk).
    { apply (passes_adjacent w ndebug _ Precision k initial bk
               Hw Hc eq_refl HP); [|exact Hk].
      apply initial_adjacent. apply MaxValue_53 in Hw. lia. }
    pose proof (step_update_fits w _ _ _ _ _ Hw Hc eq_refl HP Hbk Hs) as Hf.
    destruct (fitting_update_denominators w _ _ _ _ _ Hbk Hs Hf)
      as (H1 & H2 & H3 & H4).
    tauto.
Qed.

(** The first pass of [toFract<int>(0.3)]: from 0/1 and 1/1 to 1/4 and
    1/3. *)
Lemma mediant_update_denominators_witness :
  denominator (low initial) <= 4
  /\ denominator (high initial) <= 3
  /\ (denominator (low initial) < 4 \/ denominator (high initial) < 3)
  /\ adjacent int32 initial
  /\ adjacent int32 (mkBounds (mkFraction 1 4) (mkFraction 1 3)).
Proof.
  apply (mediant_update_denominators int32 false three_tenths DBL_EPSILON
           0 0%nat initial (mkBounds (mkFraction 1 4) (mkFraction 1 3))).
  - unfold int32. lia.
  - vm_compute. reflexivity.
  - vm_compute. reflexivity.
  - vm_compute. reflexivity.
  - vm_compute. reflexivity.
  - reflexivity.
  - vm_compute. reflexivity.
Defined.

(** The copy [high = low] that ends the loop on the [testLow] test is not
    an update, and it can lower the denominator of [high].  In
    [toFract<int>(0.5)] the first pass makes the bounds 1/2 and 2/3; the
    second finds [testLow = 0], copies [low] into [high] and ends the loop:
    the denominator of [high] has gone from 1 to 3 and then down to 2. *)
Example exit_copy_lowers_denominator :
  passes int32 1 false half DBL_EPSILON initial
  = Continue (mkBounds (mkFraction 1 2) (mkFraction 2 3))
  /\ step int32 false half DBL_EPSILON
          (mkBounds (mkFraction 1 2) (mkFraction 2 3))
     = Break (mkBounds (mkFraction 1 2) (mkFraction 1 2))
  /\ toFract int32 8 false half DBL_EPSILON = Returned (mkFraction 1 2).
Proof.
  repeat split; vm_compute; reflexivity.
Qed.

(** ** How the loop is left *)

(** A run that uses up its budget has gone round again every time. *)
Lemma loop_out_of_fuel (w : Z) (fuel : nat) (ndebug : bool)
  (val Precision : double) (b : bounds) (intPart : Z) :
  loop w fuel ndebug val Precision b intPart = OutOfFuel ->
  exists bk, passes w fuel ndebug val Precision b = Continue bk.
Proof.
  revert b. induction fuel as [|fuel IH]; intros b; cbn [loop passes].
  - intros _. now exists b.
  - destruct (step w ndebug val Precision b); try discriminate. apply IH.
Qed.

(** The loop carries no pass counter: passes that go round again leave
    nothing behind but the new bounds, whatever their number.  A call that
    returns has left the loop through [testHigh < Precision], through
    [testLow < Precision] or through a safety check, and what it returns is
    the [high] of that pass (the [low], on the second test) plus the
    integer part.  This holds for every width, value and tolerance. *)
Theorem loop_left_by_test_or_guard (w : Z) (ndebug : bool)
  (val Precision : double) (b : bounds) (intPart : Z) :
  (forall (k j : nat) (bk : bounds),
      passes w k ndebug val Precision b = Continue bk ->
      loop w (k + j) ndebug val Precision b intPart
      = loop w j ndebug val Precision bk intPart)
  /\ (forall (fuel : nat) (f : Fraction),
      loop w fuel ndebug val Precision b intPart = Returned f ->
      exists (k : nat) (bk : bounds),
        (k < fuel)%nat /\
        passes w k ndebug val Precision b = Continue bk /\
        ((ltb (testHigh val bk) Precision = true /\
          f = plus_integer w (high bk) intPart) \/
         (ltb (testHigh val bk) Precision = false /\
          ltb (testLow val bk) Precision = true /\
          f = plus_integer w (low bk) intPart) \/
         (ltb (testHigh val bk) Precision = false /\
          ltb (testLow val bk) Precision = false /\
          (if ltb (x2 val bk) (x1 val bk)
           then guard1 w val bk else guard2 w val bk) = true /\
          f = plus_integer w (high bk) intPart))).
Proof.
  split.
  - intros k j bk. apply loop_after_passes.
  - intros fuel f Hf.
    destruct (loop_returned_inv _ _ _ _ _ _ _ _ Hf)
      as (k & bk & b' & Hk & Hp & Hb & ->).
    exists k, bk. split; [exact Hk|]. split; [exact Hp|].
    destruct (step_break_inv _ _ _ _ _ _ Hb)
      as [(Hh & ->) | [(Hh & Hl & ->) | (Hh & Hl & Hg & ->)]].
    + left. now split.
    + right; left. now repeat split.
    + right; right. now repeat split.
Qed.

(** [toFract<int>(0.1)]: the second pass ends the loop on [testHigh]. *)
Lemma loop_left_by_test_or_guard_witness :
  exists (k : nat) (bk : bounds),
    (k < 5)%nat /\
    passes int32 k false tenth DBL_EPSILON initial = Continue bk /\
    ((ltb (testHigh tenth bk) DBL_EPSILON = true /\
      mkFraction 1 10 = plus_integer int32 (high bk) 0) \/
     (ltb (testHigh tenth bk) DBL_EPSILON = false /\
      ltb (testLow tenth bk) DBL_EPSILON = true /\
      mkFraction 1 10 = plus_integer int32 (low bk) 0) \/
     (ltb (testHigh tenth bk) DBL_EPSILON = false /\
      ltb (testLow tenth bk) DBL_EPSILON = false /\
      (if ltb (x2 tenth bk) (x1 tenth bk)
       then guard1 int32 tenth bk else guard2 int32 tenth bk) = true /\
      mkFraction 1 10 = plus_integer int32 (high bk) 0)).
Proof.
  apply (proj2 (loop_left_by_test_or_guard int32 false tenth
                  DBL_EPSILON initial 0) 5%nat (mkFraction 1 10)).
  vm_compute. reflexivity.
Defined.

(** With a tolerance that is not positive nothing of this bounds the
    passes.  In [toFract<int64_t>(2.0 / 49.0, -1.0)], asserts enabled, from
    the second pass on [low] is 2/49 with [testLow = -2^-52], [n] is 0, and
    each pass only adds 49 to the denominator of [high]: the loop is still
    running after 64 passes, and after 1000. *)
Example negative_tolerance_runs_on :
  passes int64 64 false (remainder int64 two_49ths) minus_one initial
  = Continue (mkBounds (mkFraction 2 49) (mkFraction 127 3111))
  /\ toFract int64 1000 false two_49ths minus_one = OutOfFuel.
Proof.
  split; vm_compute; reflexivity.
Qed.

(** ** C1, C5, C9: three inputs *)

(** C1: the round-trip bound does not hold on the code.
    - [toFract<int64_t>(-0.5, 1E-9)] without asserts leaves the loop on the
      [testLow] test of the first pass and returns 0/1, at distance 0.5 from
      the value; with asserts it stops on the assert of line 288.
    - [toFract<int>(715827883.0 + 1.0 / 3.0, 1E-6)], asserts active, leaves
      the loop on the [testLow] test of the second pass with 1/3; adding
      the integer part overflows, and -2147483646/3 is returned.
    - [toFract<int>(0.3666666666666667, 2^-70)] without asserts leaves the
      loop on the fourth pass with 11/30, one unit in the last place away
      from the value. *)
Theorem round_trip_bound_broken :
  (ltb zero tol_1e9 = true
   /\ in_range int64 0 = true /\ trunc minus_half = Some 0
   /\ left_on_precision_test int64 0 true minus_half tol_1e9 = true
   /\ toFract int64 8 true minus_half tol_1e9 = Returned (mkFraction 0 1)
   /\ ltb (round_trip_error (mkFraction 0 1) minus_half) tol_1e9 = false
   /\ toFract int64 8 false minus_half tol_1e9 = AssertionFailed)
  /\ (ltb zero tol_1e6 = true
      /\ in_range int32 715827883 = true
      /\ trunc big_third = Some 715827883
      /\ left_on_precision_test int32 1 false big_third tol_1e6 = true
      /\ toFract int32 8 false big_third tol_1e6
         = Returned (mkFraction (-2147483646) 3)
      /\ ltb (round_trip_error (mkFraction (-2147483646) 3) big_third)
             tol_1e6 = false)
  /\ (ltb zero tol_tiny = true
      /\ trunc eleven_thirtieths = Some 0
      /\ left_on_precision_test int32 3 true eleven_thirtieths tol_tiny = true
      /\ toFract int32 8 true eleven_thirtieths tol_tiny
         = Returned (mkFraction 11 30)
      /\ ltb (round_trip_error (mkFraction 11 30) eleven_thirtieths)
             tol_tiny = false).
Proof.
  repeat split; vm_compute; reflexivity.
Qed.

(** C5: the bracketing asserted by the code does not hold on the code.  For
    [val = 0.3666666666666667] (its remainder, in [0, 1]) the third update
    makes [high] 11/30, whose double is below [val]: by [2^-54], more than
    the tolerance [2^-70].  With the asserts active the call stops there,
    and it does with the default tolerance [DBL_EPSILON] too, for 32 and for
    64 bits. *)
Theorem bracketing_assert_fails :
  remainder int32 eleven_thirtieths = eleven_thirtieths
  /\ leb zero eleven_thirtieths = true
  /\ leb eleven_thirtieths one = true
  /\ passes int32 3 true eleven_thirtieths tol_tiny initial
     = Continue (mkBounds (mkFraction 15 41) (mkFraction 11 30))
  /\ bracketed eleven_thirtieths
       (mkBounds (mkFraction 15 41) (mkFraction 11 30)) = false
  /\ ltb (toFloat (mkFraction 11 30)) eleven_thirtieths = true
  /\ ltb tol_tiny (sub eleven_thirtieths (toFloat (mkFraction 11 30))) = true
  /\ toFract int32 8 false eleven_thirtieths tol_tiny = AssertionFailed
  /\ toFract int32 8 false eleven_thirtieths DBL_EPSILON = AssertionFailed
  /\ toFract int64 8 false eleven_thirtieths DBL_EPSILON = AssertionFailed.
Proof.
  repeat split; vm_compute; reflexivity.
Qed.

(** C9: the fraction returned is not always in lowest terms.
    [toFract<int>(715827883.0 + 1.0 / 3.0, 1E-6)] ends its loop with
    [high] = 1/3; [high += intPart] computes [1 + 715827883 * 3], which is
    2147483650 and does not fit 32 bits; the numerator stored is
    -2147483646, a multiple of the denominator 3. *)
Theorem returned_fraction_not_reduced :
  trunc big_third = Some 715827883
  /\ in_range int32 715827883 = true
  /\ passes int32 1 false (remainder int32 big_third) tol_1e6 initial
     = Continue (mkBounds (mkFraction 1 3) (mkFraction 1 2))
  /\ step int32 false (remainder int32 big_third) tol_1e6
          (mkBounds (mkFraction 1 3) (mkFraction 1 2))
     = Break (mkBounds (mkFraction 1 3) (mkFraction 1 3))
  /\ plus_integer int32 (mkFraction 1 3) 715827883
     = mkFraction (-2147483646) 3
  /\ toFract int32 8 false big_third tol_1e6
     = Returned (mkFraction (-2147483646) 3)
  /\ Z.gcd (Z.abs (-2147483646)) 3 = 3.
Proof.
  repeat split; vm_compute; reflexivity.
Qed.

(** * The rest of the code *)

(** ** The loop stays within [int_type] (up to 53 bits) *)

(** A pass that throws did so in a constructor, past both tests and past
    the safety check. *)
Lemma step_throw_inv (w : Z) (ndebug : bool) (val Precision : double)
  (b : bounds) :
  step w ndebug val Precision b = Throw ->
  ltb (testHigh val b) Precision = false /\
  ltb (testLow val b) Precision = false /\
  ((ltb (x2 val b) (x1 val b) = true /\ guard1 w val b = false /\
    update1 w val b = None) \/
   (ltb (x2 val b) (x1 val b) = false /\ guard2 w val b = false /\
    update2 w val b = None)).
Proof.
  unfold step.
  destruct (negb ndebug && negb (bracketed val b)); [discriminate|].
  destruct (ltb (testHigh val b) Precision); [discriminate|].
  destruct (ltb (testLow val b) Precision); [discriminate|].
  destruct (ltb (x2 val b) (x1 val b)).
  - destruct (guard1 w val b); [discriminate|].
    destruct (update1 w val b) as [u|].
    + destruct (negb ndebug && negb (bracketed val u)); discriminate.
    + intros _. repeat split. left. repeat split.
  - destruct (guard2 w val b); [discriminate|].
    destruct (update2 w val b) as [u|].
    + destruct (negb ndebug && negb (bracketed val u)); discriminate.
    + intros _. repeat split. right. repeat split.
Qed.

(** The two updates on bounds with determinant 1, when nothing
    overflows: the constructors get the candidates and keep them. *)
Lemma update1_exact (w : Z) (val : double) (b : bounds) :
  adjacent w b ->
  0 <= to_int w (x1 val b) ->
  (to_int w (x1 val b) + 1) * denominator (low b) + denominator (high b)
  <= MaxValue w ->
  let n := to_int w (x1 val b) in
  update1 w val b
  = Some (mkBounds
            (mkFraction ((n + 1) * numerator (low b) + numerator (high b))
                        ((n + 1) * denominator (low b) + denominator (high b)))
            (mkFraction (n * numerator (low b) + numerator (high b))
                        (n * denominator (low b) + denominator (high b)))).
Proof.
  intros (Hln & Hhn & Hld & Hhd & Hdet) Hn0 Hfit. unfold update1.
  revert Hn0 Hfit. generalize (to_int w (x1 val b)). intros n Hn0 Hfit.
  cbv zeta.
  destruct (mediant_high_side w n _ _ _ _ Hln Hhn (proj1 Hld) (proj1 Hhd)
              Hdet Hn0 Hfit) as [Eh El].
  rewrite El, Eh. do 3 f_equal; lia.
Qed.

Lemma update2_exact (w : Z) (val : double) (b : bounds) :
  adjacent w b ->
  0 <= to_int w (x2 val b) ->
  denominator (low b) + (to_int w (x2 val b) + 1) * denominator (high b)
  <= MaxValue w ->
  let n := to_int w (x2 val b) in
  update2 w val b
  = Some (mkBounds
            (mkFraction (numerator (low b) + n * numerator (high b))
                        (denominator (low b) + n * denominator (high b)))
            (mkFraction (numerator (low b) + (n + 1) * numerator (high b))
                        (denominator (low b)
                         + (n + 1) * denominator (high b)))).
Proof.
  intros (Hln & Hhn & Hld & Hhd & Hdet) Hn0 Hfit. unfold update2.
  revert Hn0 Hfit. generalize (to_int w (x2 val b)). intros n Hn0 Hfit.
  cbv zeta.
  destruct (mediant_low_side w n _ _ _ _ Hln Hhn (proj1 Hld) (proj1 Hhd)
              Hdet Hn0 Hfit) as [El Eh].
  rewrite Eh, El. do 3 f_equal; lia.
Qed.

(** On a double that is not negative the conversion to [int_type]
    truncates like the floor. *)
Lemma trunc_floor (x : double) :
  nonneg_or_nan x = true -> trunc x = floor x.
Proof.
  destruct x as [s|s| |[] m e]; cbn [nonneg_or_nan trunc floor negb];
    try discriminate; trivial.
  intros _. cbn [cond_Zopp]. destruct (Z.leb_spec 0 e) as [He|He]; trivial.
  rewrite Z.quot_div_nonneg; trivial; [lia|].
  apply pow2_pos. lia.
Qed.

(** Past the safety check the multiplier is a defined conversion and the
    update is the pair of exact candidates. *)
Lemma checked_update (w : Z) (val Precision : double) (b : bounds) :
  2 <= w <= 53 ->
  int_below 0 val -> is_finite val = true ->
  ltb zero Precision = true ->
  adjacent w b ->
  ltb (testHigh val b) Precision = false ->
  ltb (testLow val b) Precision = false ->
  (guard1 w val b = false ->
   exists n,
     0 <= n /\ trunc (x1 val b) = Some n /\
     (n + 1) * denominator (low b) + denominator (high b) <= MaxValue w /\
     update1 w val b
     = Some (mkBounds
               (mkFraction ((n + 1) * numerator (low b) + numerator (high b))
                           ((n + 1) * denominator (low b)
                            + denominator (high b)))
               (mkFraction (n * numerator (low b) + numerator (high b))
                           (n * denominator (low b) + denominator (high b)))))
  /\ (guard2 w val b = false ->
      exists n,
        0 <= n /\ trunc (x2 val b) = Some n /\
        denominator (low b) + (n + 1) * denominator (high b) <= MaxValue w /\
        update2 w val b
        = Some (mkBounds
                  (mkFraction (numerator (low b) + n * numerator (high b))
                              (denominator (low b)
                               + n * denominator (high b)))
                  (mkFraction (numerator (low b)
                               + (n + 1) * numerator (high b))
                              (denominator (low b)
                               + (n + 1) * denominator (high b))))).
Proof.
  intros Hw Hval Hfin HP Hadj HtH HtL.
  pose proof Hadj as (Hln & Hhn & Hld & Hhd & Hdet).
  pose proof (MaxValue_53 w Hw) as HM.
  assert (H53 : 2 ^ 52 < 2 ^ 53) by reflexivity.
  destruct (quotients_class val b Hval Hfin ltac:(lia) ltac:(lia) ltac:(lia)
              ltac:(lia) Precision HP HtH HtL) as [Hx1 Hx2].
  split; intros Hg.
  - destruct (guard1_sound w val b HM Hld Hhd Hx1 Hg) as [Hn0 Hfit].
    pose proof (update1_exact w val b Hadj Hn0 Hfit) as Hu. cbv zeta in Hu.
    destruct (class_floor (x1 val b)
                ((MaxValue w - denominator (high b)) / denominator (low b))
                Hx1) as (k & Hk & Hkr & Hnn).
    { intros H. apply (guard1_reached w val b HM Hld Hhd) in H. congruence. }
    assert (Hki : in_range w k = true).
    { apply (in_range_small w HM).
      pose proof (Z.mul_div_le (MaxValue w - denominator (high b))
                    (denominator (low b)) ltac:(lia)). nia. }
    pose proof (to_int_floor w _ k Hnn Hk Hki) as Hto.
    exists (to_int w (x1 val b)). split; [exact Hn0|]. split.
    + rewrite trunc_floor by exact Hnn. now rewrite Hto.
    + split; [exact Hfit | exact Hu].
  - destruct (guard2_sound w val b HM Hld Hhd Hx2 Hg) as [Hn0 Hfit].
    pose proof (update2_exact w val b Hadj Hn0 Hfit) as Hu. cbv zeta in Hu.
    destruct (class_floor (x2 val b)
                ((MaxValue w - denominator (low b)) / denominator (high b))
                Hx2) as (k & Hk & Hkr & Hnn).
    { intros H. apply (guard2_reached w val b HM Hld Hhd) in H. congruence. }
    assert (Hki : in_range w k = true).
    { apply (in_range_small w HM).
      pose proof (Z.mul_div_le (MaxValue w - denominator (low b))
                    (denominator (high b)) ltac:(lia)). nia. }
    pose proof (to_int_floor w _ k Hnn Hk Hki) as Hto.
    exists (to_int w (x2 val b)). split; [exact Hn0|]. split.
    + rewrite trunc_floor by exact Hnn. now rewrite Hto.
    + split; [exact Hfit | exact Hu].
Qed.

(** No constructor throws in the loop. *)
Lemma step_not_throw (w : Z) (ndebug : bool) (val Precision : double)
  (b : bounds) :
  2 <= w <= 53 ->
  int_below 0 val -> is_finite val = true ->
  ltb zero Precision = true ->
  adjacent w b ->
  step w ndebug val Precision b <> Throw.
Proof.
  intros Hw Hval Hfin HP Hadj Hs.
  destruct (step_throw_inv _ _ _ _ _ Hs) as (HtH & HtL & Hu).
  destruct (checked_update w val Precision b Hw Hval Hfin HP Hadj HtH HtL)
    as [H1 H2].
  destruct Hu as [(_ & Hg & Hn) | (_ & Hg & Hn)].
  - destruct (H1 Hg) as (n & _ & _ & _ & E). congruence.
  - destruct (H2 Hg) as (n & _ & _ & _ & E). congruence.
Qed.

(** Without asserts no pass aborts. *)
Lemma step_not_abort (w : Z) (val Precision : double) (b : bounds) :
  step w true val Precision b <> Abort.
Proof.
  unfold step. cbn [negb andb].
  destruct (ltb (testHigh val b) Precision); [discriminate|].
  destruct (ltb (testLow val b) Precision); [discriminate|].
  destruct (if ltb (x2 val b) (x1 val b)
            then if guard1 w val b then None else Some (update1 w val b)
            else if guard2 w val b then None else Some (update2 w val b))
    as [[u|]|]; discriminate.
Qed.

(** How a run from bounds with determinant 1 can end. *)
Lemma loop_outcome (w : Z) (fuel : nat) (ndebug : bool)
  (val Precision : double) (b : bounds) (intPart : Z) :
  2 <= w <= 53 ->
  int_below 0 val -> is_finite val = true ->
  ltb zero Precision = true ->
  adjacent w b ->
  match loop w fuel ndebug val Precision b intPart with
  | Returned _ | OutOfFuel => True
  | AssertionFailed => ndebug = false
  | BadRational | InvalidArgument _ => False
  end.
Proof.
  intros Hw Hval Hfin HP. revert b.
  induction fuel as [|fuel IH]; intros b Hadj; cbn [loop]; [exact I|].
  destruct (step w ndebug val Precision b) as [b1|b1| |] eqn:Hs.
  - exact I.
  - apply IH.
    pose proof (step_update_fits w _ _ _ _ _ Hw Hval Hfin HP Hadj Hs) as Hf.
    now destruct (fitting_update_denominators w _ _ _ _ _ Hadj Hs Hf)
      as (_ & _ & _ & H).
  - now apply step_not_throw in Hs.
  - destruct ndebug; [|reflexivity]. now apply step_not_abort in Hs.
Qed.

(** With a negative remainder the first pass leaves the loop or fails the
    assert of line 288. *)
Lemma negative_first_pass_ends (w : Z) (ndebug : bool) (m : positive)
  (e : Z) (Precision : double) :
  below_one (S754_finite true m e) = true ->
  ltb zero Precision = true ->
  (ndebug = false /\
   step w ndebug (S754_finite true m e) Precision initial = Abort) \/
  (exists b', step w ndebug (S754_finite true m e) Precision initial
              = Break b' /\ (b' = initial \/ b' = mkBounds (low initial)
                                                           (low initial))).
Proof.
  intros Hb HP. cbn [below_one] in Hb. apply andb_prop in Hb as [He Hc].
  apply Z.leb_le in He. apply canonical_fexp in Hc.
  assert (HtL : testLow (S754_finite true m e) initial = S754_finite true m e).
  { unfold testLow. cbn [initial low numerator denominator].
    rewrite mul_one_exact by (trivial; lia). apply sub_zero_exact. }
  unfold step.
  destruct (negb ndebug && negb _) eqn:Ea.
  - left. split; [|reflexivity]. destruct ndebug; [discriminate|reflexivity].
  - right. destruct (ltb (testHigh _ initial) Precision).
    + exists initial. split; [reflexivity | now left].
    + rewrite HtL, (negative_below_positive m e Precision HP).
      eexists. split; [reflexivity | now right].
Qed.

(** The remainder of a valid value whose integer part fits: a double
    below 1 in magnitude that is either negative or in the class the
    loop is analysed for. *)
Lemma remainder_cases (w : Z) (val : double) (z : Z) :
  valid val = true -> trunc val = Some z -> in_range w z = true ->
  intPart_of w val = z /\
  ((exists m e, remainder w val = S754_finite true m e /\
                below_one (S754_finite true m e) = true) \/
   (int_below 0 (remainder w val) /\ is_finite (remainder w val) = true)).
Proof.
  intros Hv Hz Hr.
  destruct (remainder_in_range w val z Hz Hr) as [Hi Hrem].
  split; [exact Hi|].
  pose proof (remainder_below_one val z Hv Hz) as Hb.
  rewrite <- Hrem in Hb.
  destruct (remainder w val) as [s|s| |[] m e]; try discriminate Hb.
  - right. split; [cbn; lia | reflexivity].
  - left. now exists m, e.
  - right. split; [|reflexivity]. split; [reflexivity | apply ile_zero; lia].
Qed.

(** The bounds a call reaches have determinant 1. *)
Lemma reached_adjacent (w : Z) (ndebug : bool) (val Precision : double)
  (z : Z) (k : nat) (bk : bounds) :
  2 <= w <= 53 ->
  valid val = true -> trunc val = Some z -> in_range w z = true ->
  ltb zero Precision = true ->
  passes w k ndebug (remainder w val) Precision initial = Continue bk ->
  adjacent w bk.
Proof.
  intros Hw Hv Hz Hr HP Hk.
  assert (Hi : adjacent w initial)
    by (apply initial_adjacent; apply MaxValue_53 in Hw; lia).
  destruct (remainder_cases w val z Hv Hz Hr)
    as [_ [(m & e & Er & Hb) | [Hc Hf]]].
  - rewrite Er in Hk. destruct k as [|k]; cbn [passes] in Hk.
    + now injection Hk as <-.
    + destruct (step w ndebug (S754_finite true m e) Precision initial)
        as [| b1 | |] eqn:Hs; try discriminate Hk.
      now apply negative_first_pass in Hs.
  - exact (passes_adjacent w ndebug _ Precision k initial bk Hw Hc Hf HP Hi Hk).
Qed.

Lemma wrap_add_wrap (w a c : Z) :
  0 <= w -> wrap w (a + wrap w c) = wrap w (a + c).
Proof.
  intros Hw. unfold wrap. f_equal.
  replace (a + ((c + 2 ^ (w - 1)) mod 2 ^ w - 2 ^ (w - 1)) + 2 ^ (w - 1))
    with (a + (c + 2 ^ (w - 1)) mod 2 ^ w) by lia.
  rewrite Z.add_mod_idemp_r by (apply Z.pow_nonzero; lia).
  f_equal. lia.
Qed.

Lemma plus_integer_wrap (w : Z) (f : Fraction) (k : Z) :
  0 <= w ->
  plus_integer w f k
  = mkFraction (wrap w (numerator f + k * denominator f)) (denominator f).
Proof.
  intros Hw. unfold plus_integer, iadd, imul.
  now rewrite wrap_add_wrap.
Qed.

(** Every pass that goes round again converted a quotient that fits
    [int_type] and stored the two exact candidates. *)
Theorem updates_within_int_type (w : Z) (ndebug : bool)
  (val Precision : double) (z : Z) (k : nat) (bk b' : bounds) :
  2 <= w <= 53 ->
  valid val = true -> trunc val = Some z -> in_range w z = true ->
  ltb zero Precision = true ->
  passes w k ndebug (remainder w val) Precision initial = Continue bk ->
  step w ndebug (remainder w val) Precision bk = Continue b' ->
  exists n : Z,
    0 <= n <= MaxValue w /\
    ((ltb (x2 (remainder w val) bk) (x1 (remainder w val) bk) = true /\
      trunc (x1 (remainder w val) bk) = Some n /\
      (n + 1) * denominator (low bk) + denominator (high bk) <= MaxValue w /\
      b' = mkBounds
             (mkFraction ((n + 1) * numerator (low bk) + numerator (high bk))
                         ((n + 1) * denominator (low bk)
                          + denominator (high bk)))
             (mkFraction (n * numerator (low bk) + numerator (high bk))
                         (n * denominator (low bk) + denominator (high bk))))
     \/
     (ltb (x2 (remainder w val) bk) (x1 (remainder w val) bk) = false /\
      trunc (x2 (remainder w val) bk) = Some n /\
      denominator (low bk) + (n + 1) * denominator (high bk) <= MaxValue w /\
      b' = mkBounds
             (mkFraction (numerator (low bk) + n * numerator (high bk))
                         (denominator (low bk) + n * denominator (high bk)))
             (mkFraction (numerator (low bk) + (n + 1) * numerator (high bk))
                         (denominator (low bk)
                          + (n + 1) * denominator (high bk))))).
Proof.
  intros Hw Hv Hz Hr HP Hk Hs.
  pose proof (reached_adjacent w ndebug val Precision z k bk Hw Hv Hz Hr HP Hk)
    as Hadj.
  destruct (remainder_cases w val z Hv Hz Hr)
    as [_ [(m & e & Er & Hb) | [Hc Hf]]].
  - exfalso. rewrite Er in Hk, Hs.
    apply (passes_first w ndebug (S754_finite true m e) Precision k initial
             bk b'); trivial.
    intros b1. now apply negative_first_pass.
  - destruct (step_continue_inv w _ _ _ _ _ Hs) as (HtH & HtL & Hu).
    destruct (checked_update w _ Precision bk Hw Hc Hf HP Hadj HtH HtL)
      as [H1 H2].
    pose proof Hadj as (_ & _ & Hld & Hhd & _).
    destruct Hu as [(Hx & Hg & Hu) | (Hx & Hg & Hu)].
    + destruct (H1 Hg) as (n & Hn & Ht & Hfit & E).
      exists n. split; [nia|]. left.
      do 3 (split; [assumption|]). congruence.
    + destruct (H2 Hg) as (n & Hn & Ht & Hfit & E).
      exists n. split; [nia|]. right.
      do 3 (split; [assumption|]). congruence.
Qed.

(** The first pass of [toFract<int>(0.3)]: [n = 2], from 0/1 and 1/1 to
    1/4 and 1/3. *)
Lemma updates_within_int_type_witness :
  exists n : Z,
    0 <= n <= MaxValue int32 /\
    ((ltb (x2 (remainder int32 three_tenths) initial)
          (x1 (remainder int32 three_tenths) initial) = true /\
      trunc (x1 (remainder int32 three_tenths) initial) = Some n /\
      (n + 1) * denominator (low initial) + denominator (high initial)
      <= MaxValue int32 /\
      mkBounds (mkFraction 1 4) (mkFraction 1 3)
      = mkBounds
          (mkFraction ((n + 1) * numerator (low initial)
                       + numerator (high initial))
                      ((n + 1) * denominator (low initial)
                       + denominator (high initial)))
          (mkFraction (n * numerator (low initial) + numerator (high initial))
                      (n * denominator (low initial)
                       + denominator (high initial))))
     \/
     (ltb (x2 (remainder int32 three_tenths) initial)
          (x1 (remainder int32 three_tenths) initial) = false /\
      trunc (x2 (remainder int32 three_tenths) initial) = Some n /\
      denominator (low initial) + (n + 1) * denominator (high initial)
      <= MaxValue int32 /\
      mkBounds (mkFraction 1 4) (mkFraction 1 3)
      = mkBounds
          (mkFraction (numerator (low initial) + n * numerator (high initial))
                      (denominator (low initial)
                       + n * denominator (high initial)))
          (mkFraction (numerator (low initial)
                       + (n + 1) * numerator (high initial))
                      (denominator (low initial)
                       + (n + 1) * denominator (high initial))))).
Proof.
  apply (updates_within_int_type int32 false three_tenths DBL_EPSILON 0 0%nat
           initial (mkBounds (mkFraction 1 4) (mkFraction 1 3))).
  - unfold int32. lia.
  - vm_compute. reflexivity.
  - vm_compute. reflexivity.
  - vm_compute. reflexivity.
  - vm_compute. reflexivity.
  - reflexivity.
  - vm_compute. reflexivity.
Defined.

(** The interval between the bounds only narrows: the new bounds lie
    between the old ones, as exact fractions. *)
Theorem bounds_nested (w : Z) (ndebug : bool)
  (val Precision : double) (z : Z) (k : nat) (bk b' : bounds) :
  2 <= w <= 53 ->
  valid val = true -> trunc val = Some z -> in_range w z = true ->
  ltb zero Precision = true ->
  passes w k ndebug (remainder w val) Precision initial = Continue bk ->
  step w ndebug (remainder w val) Precision bk = Continue b' ->
  numerator (low bk) * denominator (low b')
  <= numerator (low b') * denominator (low bk)
  /\ numerator (low b') * denominator (high b')
     < numerator (high b') * denominator (low b')
  /\ numerator (high b') * denominator (high bk)
     <= numerator (high bk) * denominator (high b').
Proof.
  intros Hw Hv Hz Hr HP Hk Hs.
  pose proof (reached_adjacent w ndebug val Precision z k bk Hw Hv Hz Hr HP Hk)
    as (Hln & Hhn & Hld & Hhd & Hdet).
  pose proof (conj Hln (conj Hhn (conj Hld (conj Hhd Hdet)))) as Hadj.
  destruct (remainder_cases w val z Hv Hz Hr)
    as [_ [(m & e & Er & Hb) | [Hc Hf]]].
  - exfalso. rewrite Er in Hk, Hs.
    apply (passes_first w ndebug (S754_finite true m e) Precision k initial
             bk b'); trivial.
    intros b1. now apply negative_first_pass.
  - destruct (step_continue_inv w _ _ _ _ _ Hs) as (HtH & HtL & Hu).
    destruct (checked_update w _ Precision bk Hw Hc Hf HP Hadj HtH HtL)
      as [H1 H2].
    destruct Hu as [(Hx & Hg & Hu) | (Hx & Hg & Hu)].
    + destruct (H1 Hg) as (n & Hn & _ & _ & E).
      assert (Eb : b' = mkBounds
             (mkFraction ((n + 1) * numerator (low bk) + numerator (high bk))
                         ((n + 1) * denominator (low bk)
                          + denominator (high bk)))
             (mkFraction (n * numerator (low bk) + numerator (high bk))
                         (n * denominator (low bk) + denominator (high bk))))
        by congruence.
      rewrite Eb. cbn [low high numerator denominator]. repeat split; nia.
    + destruct (H2 Hg) as (n & Hn & _ & _ & E).
      assert (Eb : b' = mkBounds
             (mkFraction (numerator (low bk) + n * numerator (high bk))
                         (denominator (low bk) + n * denominator (high bk)))
             (mkFraction (numerator (low bk) + (n + 1) * numerator (high bk))
                         (denominator (low bk)
                          + (n + 1) * denominator (high bk))))
        by congruence.
      rewrite Eb. cbn [low high numerator denominator]. repeat split; nia.
Qed.

(** The same pass: 0/1 <= 1/4 < 1/3 <= 1/1. *)
Lemma bounds_nested_witness :
  numerator (low initial) * 4 <= 1 * denominator (low initial)
  /\ 1 * 3 < 1 * 4
  /\ 1 * denominator (high initial) <= numerator (high initial) * 3.
Proof.
  apply (bounds_nested int32 false three_tenths DBL_EPSILON 0 0%nat
           initial (mkBounds (mkFraction 1 4) (mkFraction 1 3))).
  - unfold int32. lia.
  - vm_compute. reflexivity.
  - vm_compute. reflexivity.
  - vm_compute. reflexivity.
  - vm_compute. reflexivity.
  - reflexivity.
  - vm_compute. reflexivity.
Defined.

(** ** What a call returns *)

(** How a call can end, whatever its budget. *)
Lemma toFract_outcome (w : Z) (fuel : nat) (ndebug : bool)
  (val Precision : double) (z : Z) :
  2 <= w <= 53 ->
  valid val = true -> trunc val = Some z -> in_range w z = true ->
  ltb zero Precision = true ->
  match toFract w fuel ndebug val Precision with
  | Returned _ | OutOfFuel => True
  | AssertionFailed => ndebug = false
  | BadRational | InvalidArgument _ => False
  end.
Proof.
  intros Hw Hv Hz Hr HP.
  pose proof (MaxValue_53 w Hw) as HM.
  unfold toFract. rewrite (remainder_not_above_one w val z Hv Hz Hr).
  destruct (remainder_cases w val z Hv Hz Hr)
    as [_ [(m & e & Er & Hb) | [Hc Hf]]].
  - rewrite Er. destruct fuel as [|fuel]; [exact I|].
    cbn [loop].
    destruct (negative_first_pass_ends w ndebug m e Precision Hb HP)
      as [[Hn ->] | (b' & -> & _)]; [exact Hn | exact I].
  - assert (Hi : adjacent w initial) by (apply initial_adjacent; lia).
    exact (loop_outcome w fuel ndebug _ Precision initial
             (intPart_of w val) Hw Hc Hf HP Hi).
Qed.

(** What a returned fraction is made of: a fraction [n/d] of [0, 1] in
    lowest terms with [d] at most [MaxValue], and the integer part added
    to it in [int_type]. *)
Lemma returned_parts (w : Z) (fuel : nat) (ndebug : bool)
  (val Precision : double) (z : Z) (f : Fraction) :
  2 <= w <= 53 ->
  valid val = true -> trunc val = Some z -> in_range w z = true ->
  ltb zero Precision = true ->
  toFract w fuel ndebug val Precision = Returned f ->
  exists n : Z,
    0 <= n <= denominator f /\ 1 <= denominator f <= MaxValue w /\
    Z.gcd n (denominator f) = 1 /\
    numerator f = wrap w (n + z * denominator f).
Proof.
  intros Hw Hv Hz Hr HP. unfold toFract.
  rewrite (remainder_not_above_one w val z Hv Hz Hr).
  destruct (remainder_in_range w val z Hz Hr) as [-> _].
  intros Hl.
  destruct (loop_returned_inv _ _ _ _ _ _ _ _ Hl)
    as (k & bk & b' & _ & Hk & Hb & ->).
  pose proof (reached_adjacent w ndebug val Precision z k bk Hw Hv Hz Hr HP Hk)
    as (Hln & Hhn & Hld & Hhd & Hdet).
  rewrite plus_integer_wrap by lia. cbn [numerator denominator].
  destruct (step_break_inv _ _ _ _ _ _ Hb)
    as [(_ & ->) | [(_ & _ & ->) | (_ & _ & _ & ->)]]; cbn [high].
  - exists (numerator (high bk)). repeat split; try lia.
    apply (determinant_gcd _ _ (numerator (low bk)) (denominator (low bk))).
    lia.
  - exists (numerator (low bk)). repeat split; try lia.
    apply (determinant_gcd _ _ (- numerator (high bk))
             (- denominator (high bk))).
    lia.
  - exists (numerator (high bk)). repeat split; try lia.
    apply (determinant_gcd _ _ (numerator (low bk)) (denominator (low bk))).
    lia.
Qed.



(** ** Values that are not fractions: NaN, the infinities, integers *)

(** The sign of a rounded result is the sign it was given; nothing else
    depends on it. *)
Lemma binary_round_aux_with_sign (s : bool) (m e : Z) (l : location) :
  binary_round_aux prec emax s m e l
  = match binary_round_aux prec emax false m e l with
    | S754_zero _ => S754_zero s
    | S754_infinity _ => S754_infinity s
    | S754_finite _ m' e' => S754_finite s m' e'
    | S754_nan => S754_nan
    end.
Proof.
  unfold binary_round_aux.
  destruct (shr_fexp prec emax m e l) as [mrs' e'].
  destruct (shr_fexp prec emax _ e' loc_Exact) as [mrs'' e''].
  destruct (shr_m mrs''); [reflexivity | | reflexivity].
  destruct (e'' <=? emax - prec); reflexivity.
Qed.

Lemma binary_round_with_sign (s : bool) (m : positive) (e : Z) :
  binary_round prec emax s m e
  = match binary_round prec emax false m e with
    | S754_zero _ => S754_zero s
    | S754_infinity _ => S754_infinity s
    | S754_finite _ m' e' => S754_finite s m' e'
    | S754_nan => S754_nan
    end.
Proof.
  unfold binary_round. destruct (shl_align m e _) as [mz ez].
  apply binary_round_aux_with_sign.
Qed.

(** [double(k)] is finite as long as [k] has fewer than 1024 bits. *)
Lemma of_int_finite (k : Z) :
  Z.abs k < 2 ^ 1023 -> is_finite (of_int k) = true.
Proof.
  intros Hk. unfold of_int.
  assert (Hp : forall p : positive, Zpos p < 2 ^ 1023 ->
               is_finite (binary_round prec emax false p 0) = true).
  { intros p Hlt.
    pose proof (round_lower p 0 0 ltac:(lia) (ile_zero (Zpos p) 0 ltac:(lia)))
      as H.
    cbv zeta in H. rewrite fexp_eq in H.
    pose proof (digits2_pos_le p 1023 ltac:(lia) Hlt) as Hd.
    destruct (binary_round prec emax false p 0); try reflexivity.
    - destruct H as [_ H]. lia.
    - contradiction. }
  destruct k as [|p|p]; cbn [binary_normalize].
  - reflexivity.
  - apply Hp. lia.
  - rewrite binary_round_with_sign. specialize (Hp p ltac:(lia)).
    destruct (binary_round prec emax false p 0); trivial.
Qed.

Lemma MinValue_small (w : Z) : w <= 1023 -> Z.abs (MinValue w) < 2 ^ 1023.
Proof.
  intros Hw. unfold MinValue. rewrite Z.abs_opp.
  destruct (Z.le_gt_cases 1 w) as [H1|H1].
  - rewrite Z.abs_eq by (apply Z.pow_nonneg; lia).
    apply Z.pow_lt_mono_r; lia.
  - rewrite Z.pow_neg_r by lia. reflexivity.
Qed.

(** A NaN passes the range check of line 274, every comparison with it
    being false; the assert of line 288 is what stops it. *)
Theorem nan_passes_range_check (w : Z) (fuel : nat) (ndebug : bool)
  (Precision : double) :
  toFract w fuel ndebug S754_nan Precision <> InvalidArgument (MaxValue w)
  /\ toFract w (S fuel) false S754_nan Precision = AssertionFailed.
Proof.
  assert (Hr : remainder w S754_nan = S754_nan) by reflexivity.
  unfold toFract. rewrite Hr.
  change (ltb one (abs S754_nan)) with false. cbv iota.
  split; [apply loop_not_invalid_argument|].
  cbn [loop]. unfold step.
  replace (bracketed S754_nan initial) with false
    by (vm_compute; reflexivity).
  reflexivity.
Qed.

(** An infinity is refused with the range error, for every width and
    every tolerance. *)
Theorem infinity_refused (w : Z) (fuel : nat) (ndebug : bool) (s : bool)
  (Precision : double) :
  w <= 1023 ->
  toFract w fuel ndebug (S754_infinity s) Precision
  = InvalidArgument (MaxValue w).
Proof.
  intros Hw. unfold toFract, remainder, intPart_of, to_int.
  cbn [trunc].
  pose proof (of_int_finite (MinValue w) (MinValue_small w Hw)) as Hf.
  destruct (of_int (MinValue w)) as [s'|s'| |s' m e]; try discriminate Hf.
  - reflexivity.
  - reflexivity.
Qed.

(** [toFract<int>(+inf, 1E-9)]. *)
Lemma infinity_refused_witness :
  toFract int32 4 false (S754_infinity false) tol_1e9
  = InvalidArgument (MaxValue int32).
Proof.
  apply (infinity_refused int32 4 false false tol_1e9). unfold int32. lia.
Defined.

Lemma sub_diag_valid (x : double) :
  is_finite x = true -> x <> S754_zero true ->
  sub x x = S754_zero false.
Proof.
  destruct x as [[]|s| |s m e]; try discriminate; intros _ Hx.
  - congruence.
  - reflexivity.
  - rewrite sub_same_exponent, Z.sub_diag. destruct s; reflexivity.
Qed.

(** Dividing by 1 is exact. *)
Lemma div_one_exact (s : bool) (m : positive) (e : Z) :
  fexp prec emax (Zpos (digits2_pos m) + e) = e -> e <= 971 ->
  div (S754_finite s m e) (of_int 1) = S754_finite s m e.
Proof.
  intros Hc He.
  change (of_int 1) with (S754_finite false 4503599627370496 (-52)).
  unfold div, SFdiv, SFdiv_core_binary.
  change (Zdigits2 (Zpos 4503599627370496)) with 53.
  cbn [Zdigits2]. rewrite xorb_false_r.
  set (d := Zpos (digits2_pos m)) in *.
  assert (Hd : 1 <= d) by (unfold d; lia).
  rewrite fexp_eq in *.
  replace (d + e - (53 + -52)) with (d + e - 1) by lia.
  replace (e - -52) with (e + 52) by lia.
  set (e' := Z.min (Z.max (d + e - 1 - 53) (-1074)) (e + 52)).
  assert (Hk : e' = e \/ e' = e - 1) by (unfold e'; lia).
  assert (Hdiv : forall k, 0 <= k ->
            Z.div_eucl (Zpos m * 2 ^ (52 + k)) (Zpos 4503599627370496)
            = (Zpos m * 2 ^ k, 0)).
  { intros k Hk0.
    pose proof (Z_div_mod (Zpos m * 2 ^ (52 + k)) (Zpos 4503599627370496)
                  ltac:(lia)) as H.
    destruct (Z.div_eucl _ _) as [q r].
    change (Zpos 4503599627370496) with (2 ^ 52) in H.
    rewrite Z.pow_add_r in H by lia.
    assert (0 < 2 ^ k) by (apply pow2_pos; lia).
    assert (q = Zpos m * 2 ^ k) by nia. subst q. f_equal. nia. }
  destruct Hk as [Hk|Hk].
  - replace (e + 52 - e') with 52 by lia. cbv iota.
    rewrite Z.shiftl_mul_pow2 by lia.
    change 52 with (52 + 0) at 1.
    rewrite (Hdiv 0) by lia. rewrite Z.pow_0_r, Z.mul_1_r.
    change (new_location (Zpos 4503599627370496) 0) with loc_Exact.
    rewrite Hk. apply binary_round_aux_canonical; [rewrite fexp_eq|]; lia.
  - replace (e + 52 - e') with 53 by lia. cbv iota.
    rewrite Z.shiftl_mul_pow2 by lia.
    change 53 with (52 + 1) at 1.
    rewrite (Hdiv 1) by lia.
    change (new_location (Zpos 4503599627370496) 0) with loc_Exact.
    rewrite <- (iter_xO_mul m 1).
    rewrite binary_round_aux_shr; [f_equal; lia | rewrite fexp_eq | ]; lia.
Qed.

(** *** Rounding gives valid doubles *)

Lemma binary_round_aux_bounded (s : bool) (m e : Z) (l : location) :
  match binary_round_aux prec emax s m e l with
  | S754_finite _ _ e' => e' <= 971
  | _ => True
  end.
Proof.
  unfold binary_round_aux.
  destruct (shr_fexp prec emax m e l) as [mrs' e'].
  destruct (shr_fexp prec emax _ e' loc_Exact) as [mrs'' e''].
  destruct (shr_m mrs''); trivial.
  destruct (Z.leb_spec e'' (emax - prec)); trivial.
Qed.

Lemma binary_round_valid (s : bool) (m : positive) (e : Z) :
  valid (binary_round prec emax s m e) = true.
Proof.
  rewrite binary_round_with_sign.
  pose proof (round_lower m e 0 ltac:(lia) (ile_zero (Zpos m) e ltac:(lia)))
    as H.
  cbv zeta in H.
  assert (Hb : match binary_round prec emax false m e with
               | S754_finite _ _ e' => e' <= 971 | _ => True end).
  { unfold binary_round. destruct (shl_align m e _) as [mz ez].
    apply binary_round_aux_bounded. }
  destruct (binary_round prec emax false m e) as [s'|s'| |s' m' e'];
    try reflexivity.
  destruct H as (_ & _ & _ & Hc).
  unfold valid, valid_binary, bounded. rewrite Hc. cbn [andb].
  apply Z.leb_le. exact Hb.
Qed.

Lemma of_int_valid (k : Z) : valid (of_int k) = true.
Proof.
  unfold of_int. destruct k; cbn [binary_normalize];
    [reflexivity | apply binary_round_valid..].
Qed.

(** Widening a float loses nothing: the double has the same sign and the
    same value, [m' * 2^e' = m * 2^e] (both sides scaled by [2^1074] to
    stay in the integers), on a mantissa shifted to the left. *)
Theorem float_widening_exact (s : bool) (m : positive) (e : Z) :
  valid_float (S754_finite s m e) = true ->
  exists e' : Z,
    e' <= e /\
    double_of_float (S754_finite s m e)
    = S754_finite s (shl_pos m (e - e')) e' /\
    Zpos (shl_pos m (e - e')) * 2 ^ (e' + 1074) = Zpos m * 2 ^ (e + 1074).
Proof.
  unfold valid_float, valid_binary, bounded, canonical_mantissa.
  intros H. apply andb_prop in H as [Hc He].
  apply Z.eqb_eq in Hc. apply Z.leb_le in He.
  unfold fexp in Hc. 
  pose proof (Pos2Z.is_pos (digits2_pos m)) as Hd.
  set (d := Zpos (digits2_pos m)) in *.
  exists (fexp prec emax (d + e)). rewrite fexp_eq.
  change (emin 24 128) with (-149) in Hc.
  change IntDef.Z.max with Z.max in Hc.
  assert (Hle : Z.max (d + e - 53) (-1074) <= e) by lia.
  split; [exact Hle|]. split.
  - cbn [double_of_float]. rewrite binary_normalize_cond_Zopp.
    apply binary_round_left; [apply fexp_eq | exact Hle | lia].
  - rewrite shl_pos_mul by lia. rewrite <- Z.mul_assoc, <- Z.pow_add_r by lia.
    do 2 f_equal. lia.
Qed.

(** [0.75f]. *)
Lemma float_widening_exact_witness :
  exists e' : Z,
    e' <= -24 /\
    double_of_float three_quarters_f
    = S754_finite false (shl_pos 12582912 (-24 - e')) e' /\
    Zpos (shl_pos 12582912 (-24 - e')) * 2 ^ (e' + 1074)
    = Zpos 12582912 * 2 ^ (-24 + 1074).
Proof.
  apply (float_widening_exact false 12582912 (-24)).
  vm_compute. reflexivity.
Defined.

Lemma double_of_float_valid (x : float) : valid (double_of_float x) = true.
Proof.
  destruct x as [s|s| |s m e]; try reflexivity.
  cbn [double_of_float]. rewrite binary_normalize_cond_Zopp.
  apply binary_round_valid.
Qed.

(** ** The number of passes *)

(** *** Rounding a quotient

    A quotient comes with the position of what was cut off; the two
    stages of the rounding are followed for any such position. *)

(** The first stage shifts the mantissa to the target exponent. *)
Lemma round_first_stage (m e N : Z) (l : location) :
  0 <= m ->
  let fe := fexp prec emax (Zdigits2 m + e) in
  e <= fe ->
  0 <= N <= 2 ^ 53 -> ile N m e ->
  exists mrs',
    shr_fexp prec emax m e l = (mrs', fe) /\
    0 <= shr_m mrs' < 2 ^ 53 /\
    (-1074 < fe -> 2 ^ 52 <= shr_m mrs') /\
    ile N (shr_m mrs') fe.
Proof.
  intros Hm fe Hle HN Hile.
  assert (Hfe : fe = Z.max (Zdigits2 m + e - 53) (-1074)) by apply fexp_eq.
  assert (H0 : shr_m (shr_record_of_loc m l) = m)
    by (destruct l as [|[]]; reflexivity).
  assert (Hdig : m < 2 ^ Zdigits2 m /\ (0 < m -> 2 ^ (Zdigits2 m - 1) <= m)
                 /\ 0 <= Zdigits2 m).
  { destruct m as [|M|M]; [cbn; lia | | lia].
    cbn [Zdigits2]. pose proof (digits2_pos_bounds M) as [H1 H2].
    repeat split; lia. }
  destruct Hdig as (Hmu & Hml & Hd0).
  set (d := Zdigits2 m) in *.
  unfold shr_fexp. fold d. fold fe. unfold shr.
  destruct (fe - e) as [|p|p] eqn:Hk; [| |lia].
  - exists (shr_record_of_loc m l). rewrite H0.
    assert (fe = e) by lia.
    split; [f_equal; lia|].
    assert (Hd53 : d <= 53) by lia.
    assert (m < 2 ^ 53).
    { apply Z.lt_le_trans with (1 := Hmu). apply Z.pow_le_mono_r; lia. }
    split; [lia|]. split.
    + intros Hn. assert (d = 53) by lia.
      destruct (Z.eq_dec m 0) as [->|Hne]; [cbn in d; lia|].
      replace 52 with (d - 1) by lia. apply Hml. lia.
    + now replace fe with e by lia.
  - exists (iter_pos shr_1 p (shr_record_of_loc m l)).
    assert (Hm1 : shr_m (iter_pos shr_1 p (shr_record_of_loc m l))
                  = m / 2 ^ Zpos p)
      by (rewrite shr_m_iter, H0 by lia; reflexivity).
    rewrite Hm1.
    assert (Hp : 0 < 2 ^ Zpos p) by (apply pow2_pos; lia).
    split; [f_equal; lia|].
    assert (Hge : 0 <= m / 2 ^ Zpos p) by (apply Z.div_pos; lia).
    assert (Hlt : m / 2 ^ Zpos p < 2 ^ 53).
    { apply Z.div_lt_upper_bound; [lia|].
      rewrite <- Z.pow_add_r by lia.
      apply Z.lt_le_trans with (1 := Hmu). apply Z.pow_le_mono_r; lia. }
    assert (Hnormal : -1074 < fe -> 2 ^ 52 <= m / 2 ^ Zpos p).
    { intros Hn. apply Z.div_le_lower_bound; [lia|].
      rewrite <- Z.pow_add_r by lia.
      replace (Zpos p + 52) with (d - 1) by lia.
      apply Hml. destruct (Z.eq_dec m 0) as [->|Hne]; [cbn in d; lia | lia]. }
    split; [lia|]. split; [exact Hnormal|].
    destruct (Z.le_gt_cases fe 0) as [Hf|Hf].
    + replace fe with (e + Zpos p) by lia.
      apply ile_div; trivial; lia.
    + specialize (Hnormal ltac:(lia)). unfold ile.
      rewrite (Z.max_l 0 (- fe)), (Z.max_r 0 fe) by lia.
      rewrite Z.pow_0_r, Z.mul_1_r.
      assert (2 <= 2 ^ fe).
      { change 2 with (2 ^ 1) at 1. apply Z.pow_le_mono_r; lia. }
      change (2 ^ 53) with (2 ^ 52 * 2) in HN. nia.
Qed.

(** The second stage rounds to nearest and makes room for a carry. *)
Lemma round_second_stage (m1 fe N : Z) (l : location) :
  0 <= N <= 2 ^ 53 ->
  0 <= m1 < 2 ^ 53 -> (-1074 < fe -> 2 ^ 52 <= m1) -> -1074 <= fe ->
  ile N m1 fe ->
  match
    (let '(mrs'', e'') :=
       shr_fexp prec emax (round_nearest_even m1 l) fe loc_Exact in
     match shr_m mrs'' with
     | Z0 => S754_zero false
     | Zpos m => if e'' <=? emax - prec then S754_finite false m e''
                 else S754_infinity false
     | Zneg _ => S754_nan
     end)
  with
  | S754_infinity s => s = false
  | S754_zero _ => N <= 0
  | S754_finite s m' e' =>
      s = false /\ ile N (Zpos m') e' /\
      canonical_mantissa prec emax m' e' = true
  | S754_nan => False
  end.
Proof.
  intros HN Hm1 Hnormal Hfe Hile1.
  pose proof (round_nearest_even_range m1 l) as [Hr1 Hr2].
  unfold shr_fexp.
  destruct (round_nearest_even m1 l) as [|p2|p2] eqn:Hm2; [ | | lia].
  - cbn [Zdigits2 shr_record_of_loc]. rewrite fexp_eq.
    destruct (Z.max (0 + fe - 53) (-1074) - fe) as [|q|q] eqn:Hk2;
      try lia; cbn [shr shr_m]; apply (ile_zero_mantissa N fe);
      replace 0 with m1 by lia; exact Hile1.
  - cbn [Zdigits2 shr_record_of_loc].
    destruct (Z.eq_dec (Zpos p2) (2 ^ 53)) as [Heq|Hne].
    + injection Heq as ->.
      change (Zpos (digits2_pos 9007199254740992)) with 54.
      rewrite fexp_eq. replace (Z.max (54 + fe - 53) (-1074) - fe) with 1
        by lia.
      cbn [shr iter_pos shr_1 shr_m].
      destruct (fe + 1 <=? emax - prec); [|reflexivity].
      split; [reflexivity|]. split.
      * apply (proj1 (ile_shift N (Zpos 4503599627370496) (fe + 1) 1
                        ltac:(lia))).
        replace (fe + 1 - 1) with fe by lia.
        apply (ile_mono N N m1); [lia | | exact Hile1].
        change (Zpos 4503599627370496 * 2 ^ 1) with (2 ^ 53). lia.
      * apply canonical_fexp.
        change (Zpos (digits2_pos 4503599627370496)) with 53.
        rewrite fexp_eq. lia.
    + assert (Hp2 : Zpos p2 < 2 ^ 53) by lia.
      assert (Hd2 : Zpos (digits2_pos p2) <= 53)
        by (apply digits2_pos_le; lia).
      rewrite fexp_eq.
      destruct (Z.max (Zpos (digits2_pos p2) + fe - 53) (-1074) - fe)
        as [|q|q] eqn:Hk2; try lia; cbn [shr shr_m];
        (destruct (fe <=? emax - prec); [|reflexivity];
         split; [reflexivity|]; split;
         [ apply (ile_mono N N m1); [lia | lia | exact Hile1] |];
         apply canonical_fexp; rewrite fexp_eq).
      * lia.
      * destruct (Z.eq_dec fe (-1074)) as [Hs|Hs]; [lia|].
        specialize (Hnormal ltac:(lia)).
        assert (52 < Zpos (digits2_pos p2))
          by (apply digits2_pos_gt; lia).
        lia.
Qed.

(** Rounding a mantissa that is not too short, with what was cut off at
    any position: the result is not below an integer of at most 53 bits
    that the mantissa is not below, and it is canonical. *)
Lemma round_aux_lower_loc (m e N : Z) (l : location) :
  0 <= m ->
  e <= fexp prec emax (Zdigits2 m + e) ->
  0 <= N <= 2 ^ 53 -> ile N m e ->
  match binary_round_aux prec emax false m e l with
  | S754_infinity s => s = false
  | S754_zero _ => N <= 0
  | S754_finite s m' e' =>
      s = false /\ ile N (Zpos m') e' /\
      canonical_mantissa prec emax m' e' = true
  | S754_nan => False
  end.
Proof.
  intros Hm Hle HN Hile.
  destruct (round_first_stage m e N l Hm Hle HN Hile)
    as (mrs' & E1 & Hb & Hn & Hi).
  unfold binary_round_aux. rewrite E1.
  apply round_second_stage; trivial.
  rewrite fexp_eq. lia.
Qed.

Lemma Zdigits2_ge (q k : Z) : 0 <= k -> 2 ^ k <= q -> k < Zdigits2 q.
Proof.
  intros Hk Hq. pose proof (pow2_pos k Hk).
  destruct q as [|Q|Q]; try lia.
  cbn [Zdigits2]. now apply digits2_pos_gt.
Qed.

(** The quotient of the mantissas, as [SFdiv_core_binary] prepares it for
    rounding: it is not too short for its exponent, and it is not below
    1 when the dividend is not below the divisor. *)
Lemma div_core_spec (ma mb : positive) (ea eb : Z) :
  exists (q e' : Z) (l : location),
    SFdiv_core_binary prec emax (Zpos ma) ea (Zpos mb) eb = (q, e', l) /\
    0 <= q /\
    e' <= fexp prec emax (Zdigits2 q + e') /\
    (-1074 <= ea -> -1074 <= eb ->
     Zpos mb * 2 ^ (eb + 1074) <= Zpos ma * 2 ^ (ea + 1074) ->
     ile 1 q e').
Proof.
  unfold SFdiv_core_binary. cbn [Zdigits2].
  pose proof (digits2_pos_bounds ma) as [Hal Hau].
  pose proof (digits2_pos_bounds mb) as [Hbl Hbu].
  pose proof (Pos2Z.is_pos (digits2_pos ma)) as Hda0.
  pose proof (Pos2Z.is_pos (digits2_pos mb)) as Hdb0.
  set (da := Zpos (digits2_pos ma)) in *.
  set (db := Zpos (digits2_pos mb)) in *.
  rewrite fexp_eq.
  set (X := da + ea - (db + eb)).
  set (e' := Z.min (Z.max (X - 53) (-1074)) (ea - eb)).
  set (s := ea - eb - e').
  assert (Hs : 0 <= s) by (unfold s, e'; lia).
  assert (Hm' : match s with
                | 0 => Zpos ma
                | Zpos _ => Z.shiftl (Zpos ma) s
                | Zneg _ => 0
                end = Zpos ma * 2 ^ s).
  { destruct s as [|p|p] eqn:Es; [rewrite Z.pow_0_r; lia | | lia].
    apply Z.shiftl_mul_pow2. lia. }
  rewrite Hm'. clear Hm'.
  assert (H2s : 0 < 2 ^ s) by (apply pow2_pos; lia).
  pose proof (Z_div_mod (Zpos ma * 2 ^ s) (Zpos mb) ltac:(lia)) as Hdm.
  destruct (Z.div_eucl (Zpos ma * 2 ^ s) (Zpos mb)) as [q r].
  destruct Hdm as [Hq Hr].
  exists q, e', (new_location (Zpos mb) r). split; [reflexivity|].
  assert (Hq0 : 0 <= q) by nia.
  split; [exact Hq0|].
  (* a long enough quotient when the exponent is above the smallest *)
  assert (Hlong : -1074 < e' -> 2 ^ (X - e' - 1) <= q /\ 53 <= X - e').
  { intros He'. assert (Ht : 53 <= X - e') by (unfold e' in *; lia).
    split; [|exact Ht].
    assert (Hpow : 2 ^ (X - e' - 1) * 2 ^ db = 2 ^ (da - 1) * 2 ^ s).
    { rewrite <- !Z.pow_add_r by lia. f_equal. unfold X, s. lia. }
    assert (H2t : 0 < 2 ^ (X - e' - 1)) by (apply pow2_pos; lia).
    assert (Hlt : 2 ^ (X - e' - 1) * Zpos mb < Zpos ma * 2 ^ s + Zpos mb)
      by nia.
    nia. }
  split.
  - rewrite fexp_eq.
    destruct (Z.le_gt_cases e' (-1074)) as [Hlow|Hhigh]; [lia|].
    destruct (Hlong Hhigh) as [Hq2 Ht].
    pose proof (Zdigits2_ge q (X - e' - 1) ltac:(lia) Hq2).
    unfold e' in *. lia.
  - intros Hea Heb HV. unfold ile.
    destruct (Z.le_gt_cases e' 0) as [He0|He0].
    + rewrite (Z.max_r 0 (- e')), (Z.max_l 0 e') by lia.
      rewrite Z.pow_0_r, Z.mul_1_r, Z.mul_1_l.
      assert (H2e : 0 < 2 ^ (- e')) by (apply pow2_pos; lia).
      assert (H2k : 0 < 2 ^ (eb + 1074)) by (apply pow2_pos; lia).
      assert (Hview : Zpos ma * 2 ^ (ea + 1074) * 2 ^ (- e')
                      = Zpos ma * 2 ^ s * 2 ^ (eb + 1074)).
      { rewrite <- !Z.mul_assoc, <- !Z.pow_add_r by (unfold s in *; lia).
        do 2 f_equal. unfold s. lia. }
      assert (Hmain : Zpos mb * 2 ^ (- e') <= Zpos ma * 2 ^ s).
      { apply (Z.mul_le_mono_pos_r _ _ (2 ^ (eb + 1074))); [exact H2k|].
        rewrite <- Hview.
        replace (Zpos mb * 2 ^ (- e') * 2 ^ (eb + 1074))
          with (Zpos mb * 2 ^ (eb + 1074) * 2 ^ (- e')) by ring.
        apply Z.mul_le_mono_nonneg_r; lia. }
      nia.
    + rewrite (Z.max_l 0 (- e')), (Z.max_r 0 e') by lia.
      rewrite Z.pow_0_r, Z.mul_1_l.
      destruct (Hlong ltac:(lia)) as [Hq2 Ht].
      assert (0 < 2 ^ (X - e' - 1)) by (apply pow2_pos; lia).
      assert (0 < 2 ^ e') by (apply pow2_pos; lia).
      nia.
Qed.

(** A quotient of positive finite doubles is a zero, an infinity or a
    canonical double; it is not below 1 when the dividend is not below
    the divisor. *)
Lemma div_positive (ma mb : positive) (ea eb : Z) :
  -1074 <= ea -> -1074 <= eb ->
  match div (S754_finite false ma ea) (S754_finite false mb eb) with
  | S754_zero _ =>
      ~ Zpos mb * 2 ^ (eb + 1074) <= Zpos ma * 2 ^ (ea + 1074)
  | S754_infinity s => s = false
  | S754_finite s m e =>
      s = false /\ canonical_mantissa prec emax m e = true /\
      (Zpos mb * 2 ^ (eb + 1074) <= Zpos ma * 2 ^ (ea + 1074) ->
       ile 1 (Zpos m) e)
  | S754_nan => False
  end.
Proof.
  intros Hea Heb. unfold div, SFdiv.
  destruct (div_core_spec ma mb ea eb) as (q & e' & l & -> & Hq & He' & HV).
  cbn [xorb].
  destruct (Z_le_dec (Zpos mb * 2 ^ (eb + 1074))
              (Zpos ma * 2 ^ (ea + 1074))) as [Hv|Hv].
  - pose proof (round_aux_lower_loc q e' 1 l Hq He' ltac:(lia)
                  (HV Hea Heb Hv)) as H.
    destruct (binary_round_aux prec emax false q e' l); trivial.
    + lia.
    + destruct H as (H1 & H2 & H3). repeat split; trivial.
  - pose proof (round_aux_lower_loc q e' 0 l Hq He' ltac:(lia)
                  (ile_zero q e' Hq)) as H.
    destruct (binary_round_aux prec emax false q e' l); trivial.
    destruct H as (H1 & H2 & H3). repeat split; trivial. tauto.
Qed.

(** *** The operations give valid doubles *)

Lemma digits2_pos_mul (a b : positive) :
  Zpos (digits2_pos a) + Zpos (digits2_pos b) - 1
  <= Zpos (digits2_pos (a * b)).
Proof.
  pose proof (digits2_pos_bounds a) as [Ha _].
  pose proof (digits2_pos_bounds b) as [Hb _].
  pose proof (Pos2Z.is_pos (digits2_pos a)).
  pose proof (Pos2Z.is_pos (digits2_pos b)).
  assert (H2 : 2 ^ (Zpos (digits2_pos a) + Zpos (digits2_pos b) - 2)
               <= Zpos (a * b)).
  { replace (Zpos (digits2_pos a) + Zpos (digits2_pos b) - 2)
      with ((Zpos (digits2_pos a) - 1) + (Zpos (digits2_pos b) - 1)) by lia.
    rewrite Z.pow_add_r, Pos2Z.inj_mul by lia.
    apply Z.mul_le_mono_nonneg; try lia; apply Z.pow_nonneg; lia. }
  apply digits2_pos_gt in H2. lia.
Qed.

Lemma mul_valid (x y : double) :
  valid x = true -> valid y = true -> valid (mul x y) = true.
Proof.
  destruct x as [sx|sx| |sx mx ex], y as [sy|sy| |sy my ey];
    try reflexivity.
  intros Hx Hy.
  apply valid_finite in Hx as [Hcx _]. apply valid_finite in Hy as [Hcy _].
  rewrite fexp_eq in Hcx, Hcy.
  unfold mul, SFmul. rewrite binary_round_aux_with_sign.
  pose proof (digits2_pos_mul mx my) as Hd.
  pose proof (Pos2Z.is_pos (digits2_pos mx)).
  pose proof (Pos2Z.is_pos (digits2_pos my)).
  pose proof (round_aux_lower_loc (Zpos (mx * my)) (ex + ey) 0 loc_Exact
                ltac:(lia)) as Hr.
  cbn [Zdigits2] in Hr. rewrite fexp_eq in Hr.
  specialize (Hr ltac:(lia) ltac:(lia)
                 (ile_zero (Zpos (mx * my)) (ex + ey) ltac:(lia))).
  pose proof (binary_round_aux_bounded false (Zpos (mx * my)) (ex + ey)
                loc_Exact) as Hb.
  destruct (binary_round_aux prec emax false (Zpos (mx * my)) (ex + ey)
              loc_Exact) as [s'|s'| |s' m' e']; try reflexivity.
  destruct Hr as (_ & _ & Hc).
  unfold valid, valid_binary, bounded. rewrite Hc. cbn [andb].
  apply Z.leb_le. exact Hb.
Qed.

Lemma binary_normalize_valid (m e : Z) (s : bool) :
  valid (binary_normalize prec emax m e s) = true.
Proof.
  destruct m; cbn [binary_normalize];
    [reflexivity | apply binary_round_valid..].
Qed.

Lemma sub_valid (x y : double) :
  valid x = true -> valid y = true -> valid (sub x y) = true.
Proof.
  destruct x as [sx|sx| |sx mx ex], y as [sy|sy| |sy my ey];
    intros Hx Hy; try reflexivity; try exact Hx; try exact Hy.
  - destruct sx, sy; reflexivity.
  - destruct sx, sy; reflexivity.
  - unfold sub, SFsub. apply binary_normalize_valid.
Qed.

Lemma below_one_valid (x : double) : below_one x = true -> valid x = true.
Proof.
  destruct x as [s|s| |s m e]; try discriminate; try reflexivity.
  cbn [below_one]. intros H. apply andb_prop in H as [He Hc].
  apply Z.leb_le in He.
  unfold valid, valid_binary, bounded. rewrite Hc. cbn [andb].
  apply Z.leb_le. unfold emax, prec. lia.
Qed.

Lemma tests_valid (val : double) (b : bounds) :
  valid val = true ->
  valid (testLow val b) = true /\ valid (testHigh val b) = true.
Proof.
  intros Hv. unfold testLow, testHigh.
  split; apply sub_valid; try apply mul_valid; trivial; apply of_int_valid.
Qed.

(** *** Canonical doubles and 1 *)

Lemma ge_one_exponent (m : positive) (e : Z) :
  fexp prec emax (Zpos (digits2_pos m) + e) = e ->
  ile 1 (Zpos m) e -> -52 <= e.
Proof.
  rewrite fexp_eq. intros Hc Hi.
  destruct (Z.le_gt_cases (-52) e) as [H|H]; trivial. exfalso.
  pose proof (digits2_pos_bounds m) as [_ Hmu].
  unfold ile in Hi. rewrite (Z.max_r 0 (- e)), (Z.max_l 0 e) in Hi by lia.
  rewrite Z.pow_0_r in Hi.
  assert (2 ^ Zpos (digits2_pos m) <= 2 ^ (- e))
    by (apply Z.pow_le_mono_r; lia).
  lia.
Qed.

Lemma exponent_ge_one (m : positive) (e : Z) :
  fexp prec emax (Zpos (digits2_pos m) + e) = e ->
  -52 <= e -> ile 1 (Zpos m) e.
Proof.
  rewrite fexp_eq. intros Hc He.
  pose proof (digits2_pos_bounds m) as [Hml _].
  assert (Hd : Zpos (digits2_pos m) = 53) by lia. rewrite Hd in Hml.
  unfold ile. destruct (Z.le_gt_cases 0 e) as [H|H].
  - rewrite (Z.max_l 0 (- e)), (Z.max_r 0 e) by lia.
    pose proof (pow2_pos e H). nia.
  - rewrite (Z.max_r 0 (- e)), (Z.max_l 0 e) by lia.
    rewrite Z.pow_0_r.
    assert (2 ^ (- e) <= 2 ^ (53 - 1)) by (apply Z.pow_le_mono_r; lia).
    lia.
Qed.

(** *** The multiplier is at least 1 *)

(** Of two quotients [a / b] and [b / a], the larger is not below 1. *)
Lemma larger_quotient (ma mb : positive) (ea eb : Z) :
  fexp prec emax (Zpos (digits2_pos ma) + ea) = ea ->
  fexp prec emax (Zpos (digits2_pos mb) + eb) = eb ->
  let a := S754_finite false ma ea in
  let b := S754_finite false mb eb in
  (ltb (div b a) (div a b) = true -> int_below 1 (div a b)) /\
  (ltb (div b a) (div a b) = false -> int_below 1 (div b a)).
Proof.
  intros Hca Hcb a b.
  assert (Hea : -1074 <= ea) by (rewrite fexp_eq in Hca; lia).
  assert (Heb : -1074 <= eb) by (rewrite fexp_eq in Hcb; lia).
  pose proof (div_positive ma mb ea eb Hea Heb) as H1.
  pose proof (div_positive mb ma eb ea Heb Hea) as H2.
  fold a b in H1, H2.
  assert (Htot : Zpos mb * 2 ^ (eb + 1074) <= Zpos ma * 2 ^ (ea + 1074) \/
                 Zpos ma * 2 ^ (ea + 1074) <= Zpos mb * 2 ^ (eb + 1074))
    by lia.
  destruct (div a b) as [s1|s1| |s1 m1 e1], (div b a) as [s2|s2| |s2 m2 e2];
    try contradiction; cbn [int_below]; split; intros Hlt;
    try (exfalso; lia); try (cbv in Hlt; discriminate Hlt);
    try (subst; reflexivity).
  all: repeat match goal with
         | H : _ /\ _ |- _ => destruct H
         | H : ?s = false |- _ => subst s
         end.
  all: try (cbv in Hlt; discriminate Hlt).
  all: try (split; [reflexivity|]).
  all: try match goal with
         | H : canonical_mantissa _ _ _ _ = true |- _ =>
             apply canonical_fexp in H
         end.
  all: try match goal with
         | H : canonical_mantissa _ _ _ _ = true |- _ =>
             apply canonical_fexp in H
         end.
  all: try tauto.
  - (* x2 < x1, both finite *)
    destruct Htot as [Hv|Hv]; [tauto|].
    match goal with
    | H1 : fexp _ _ (Zpos (digits2_pos m1) + e1) = e1,
      H2 : fexp _ _ (Zpos (digits2_pos m2) + e2) = e2,
      Hi : _ -> ile 1 (Zpos m2) e2 |- _ =>
        pose proof (ge_one_exponent m2 e2 H2 (Hi Hv)) as He2;
        apply (exponent_ge_one m1 e1 H1)
    end.
    unfold ltb, SFltb in Hlt. cbn [SFcompare] in Hlt.
    destruct (Z.compare_spec e2 e1); try lia; discriminate Hlt.
  - (* not x2 < x1, both finite *)
    destruct Htot as [Hv|Hv]; [|tauto].
    match goal with
    | H1 : fexp _ _ (Zpos (digits2_pos m1) + e1) = e1,
      H2 : fexp _ _ (Zpos (digits2_pos m2) + e2) = e2,
      Hi : _ -> ile 1 (Zpos m1) e1 |- _ =>
        pose proof (ge_one_exponent m1 e1 H1 (Hi Hv)) as He1;
        apply (exponent_ge_one m2 e2 H2)
    end.
    unfold ltb, SFltb in Hlt. cbn [SFcompare] in Hlt.
    destruct (Z.compare_spec e2 e1); try lia; discriminate Hlt.
Qed.

Lemma trunc_lower (N k : Z) (x : double) :
  int_below N x -> trunc x = Some k -> N <= k.
Proof.
  destruct x as [s|s| |s m e]; cbn [int_below trunc]; try discriminate.
  - intros H [= <-]. exact H.
  - intros [-> Hi] Hk. cbn [cond_Zopp] in Hk.
    assert (Ek : k = if 0 <=? e then Zpos m * 2 ^ e
                     else Z.quot (Zpos m) (2 ^ (- e))) by congruence.
    clear Hk. subst k. unfold ile in Hi.
    destruct (Z.leb_spec 0 e) as [He|He].
    + rewrite (Z.max_l 0 (- e)), (Z.max_r 0 e) in Hi by lia.
      rewrite Z.pow_0_r in Hi. lia.
    + rewrite (Z.max_r 0 (- e)), (Z.max_l 0 e) in Hi by lia.
      rewrite Z.pow_0_r, Z.mul_1_r in Hi.
      assert (0 < 2 ^ (- e)) by (apply pow2_pos; lia).
      rewrite Z.quot_div_nonneg by lia.
      apply Z.div_le_lower_bound; lia.
Qed.

(** Each pass that goes round again at least doubles the sum of the two
    denominators: the multiplier is at least 1. *)
Lemma step_doubles (w : Z) (ndebug : bool) (val Precision : double)
  (b b' : bounds) :
  2 <= w <= 53 ->
  int_below 0 val -> is_finite val = true -> valid val = true ->
  ltb zero Precision = true ->
  adjacent w b ->
  step w ndebug val Precision b = Continue b' ->
  2 * (denominator (low b) + denominator (high b))
  <= denominator (low b') + denominator (high b').
Proof.
  intros Hw Hval Hfin Hv HP Hadj Hs.
  pose proof Hadj as (Hln & Hhn & Hld & Hhd & Hdet).
  pose proof (MaxValue_53 w Hw) as HM.
  assert (H53 : 2 ^ 52 < 2 ^ 53) by reflexivity.
  destruct (step_continue_inv w _ _ _ _ _ Hs) as (HtH & HtL & Hu).
  destruct (checked_update w val Precision b Hw Hval Hfin HP Hadj HtH HtL)
    as [H1 H2].
  destruct (tests_valid val b Hv) as [HvL HvH].
  pose proof (not_below_positive _ _ HP HtH) as HpH.
  pose proof (not_below_positive _ _ HP HtL) as HpL.
  destruct (testHigh_shape val b Hval Hfin ltac:(lia) ltac:(lia))
    as [HnH HiH].
  pose proof (testLow_shape val b Hval Hfin ltac:(lia) ltac:(lia)) as HnL.
  destruct (positive_finite _ HpH HnH HiH) as (mh & eh & Eh).
  assert (Hn1 : forall n,
             (ltb (x2 val b) (x1 val b) = true ->
              trunc (x1 val b) = Some n -> 1 <= n) /\
             (ltb (x2 val b) (x1 val b) = false ->
              trunc (x2 val b) = Some n -> 1 <= n)).
  { intros n. unfold x1, x2. rewrite Eh in *.
    destruct (positive_class _ HpL HnL) as [El | (ml & el & El)];
      rewrite El in *.
    - split; intros Hx Ht; [discriminate Hx | discriminate Ht].
    - apply valid_finite in HvH as [HcH _].
      apply valid_finite in HvL as [HcL _].
      destruct (larger_quotient mh ml eh el HcH HcL) as [L1 L2].
      cbv zeta in L1, L2.
      split; intros Hx Ht.
      + exact (trunc_lower 1 n _ (L1 Hx) Ht).
      + exact (trunc_lower 1 n _ (L2 Hx) Ht). }
  destruct Hu as [(Hx & Hg & Hu) | (Hx & Hg & Hu)].
  - destruct (H1 Hg) as (n & Hn & Ht & _ & E).
    pose proof (proj1 (Hn1 n) Hx Ht) as Hge.
    assert (Eb : b' = mkBounds
             (mkFraction ((n + 1) * numerator (low b) + numerator (high b))
                         ((n + 1) * denominator (low b)
                          + denominator (high b)))
             (mkFraction (n * numerator (low b) + numerator (high b))
                         (n * denominator (low b) + denominator (high b))))
      by congruence.
    rewrite Eb. cbn [low high denominator]. nia.
  - destruct (H2 Hg) as (n & Hn & Ht & _ & E).
    pose proof (proj2 (Hn1 n) Hx Ht) as Hge.
    assert (Eb : b' = mkBounds
             (mkFraction (numerator (low b) + n * numerator (high b))
                         (denominator (low b) + n * denominator (high b)))
             (mkFraction (numerator (low b) + (n + 1) * numerator (high b))
                         (denominator (low b)
                          + (n + 1) * denominator (high b))))
      by congruence.
    rewrite Eb. cbn [low high denominator]. nia.
Qed.

Lemma passes_double (w : Z) (ndebug : bool) (val Precision : double)
  (k : nat) (b bk : bounds) :
  2 <= w <= 53 ->
  int_below 0 val -> is_finite val = true -> valid val = true ->
  ltb zero Precision = true ->
  adjacent w b ->
  passes w k ndebug val Precision b = Continue bk ->
  2 ^ Z.of_nat k * (denominator (low b) + denominator (high b))
  <= denominator (low bk) + denominator (high bk).
Proof.
  intros Hw Hval Hfin Hv HP. revert b.
  induction k as [|k IH]; intros b Hb Hk; cbn [passes] in Hk.
  - injection Hk as <-. change (Z.of_nat 0) with 0.
    rewrite Z.pow_0_r. lia.
  - destruct (step w ndebug val Precision b) as [| b1 | |] eqn:Hs;
      try discriminate Hk.
    pose proof (step_update_fits w _ _ _ _ _ Hw Hval Hfin HP Hb Hs) as Hf.
    destruct (fitting_update_denominators w _ _ _ _ _ Hb Hs Hf)
      as (_ & _ & _ & H4).
    pose proof (step_doubles w _ _ _ _ _ Hw Hval Hfin Hv HP Hb Hs) as Hd.
    specialize (IH b1 H4 Hk).
    rewrite Nat2Z.inj_succ, Z.pow_succ_r by lia.
    assert (0 < 2 ^ Z.of_nat k) by (apply pow2_pos; lia).
    nia.
Qed.

(** The bounds reached after [k] passes: the sum of their denominators
    is at least [2^(k+1)], so that [k + 2 <= w]. *)
Lemma reached_size (w : Z) (ndebug : bool) (val Precision : double)
  (z : Z) (k : nat) (bk : bounds) :
  2 <= w <= 53 ->
  valid val = true -> trunc val = Some z -> in_range w z = true ->
  ltb zero Precision = true ->
  passes w k ndebug (remainder w val) Precision initial = Continue bk ->
  2 ^ (Z.of_nat k + 1) <= denominator (low bk) + denominator (high bk)
  /\ Z.of_nat k + 2 <= w.
Proof.
  intros Hw Hv Hz Hr HP Hk.
  pose proof (reached_adjacent w ndebug val Precision z k bk Hw Hv Hz Hr HP Hk)
    as (_ & _ & Hld & Hhd & _).
  assert (Hsize : 2 ^ (Z.of_nat k + 1)
                  <= denominator (low bk) + denominator (high bk)).
  { destruct (remainder_cases w val z Hv Hz Hr)
      as [_ [(m & e & Er & Hb) | [Hc Hf]]].
    - rewrite Er in Hk. destruct k as [|k]; cbn [passes] in Hk.
      + injection Hk as <-. cbn [initial low high denominator].
        change (2 ^ (Z.of_nat 0 + 1)) with 2. lia.
      + destruct (step w ndebug (S754_finite true m e) Precision initial)
          as [| b1 | |] eqn:Hs; try discriminate Hk.
        now apply negative_first_pass in Hs.
    - assert (Hi : adjacent w initial)
        by (apply initial_adjacent; apply MaxValue_53 in Hw; lia).
      assert (Hvr : valid (remainder w val) = true).
      { apply below_one_valid.
        destruct (remainder_in_range w val z Hz Hr) as [_ ->].
        now apply remainder_below_one. }
      pose proof (passes_double w ndebug _ Precision k initial bk
                    Hw Hc Hf Hvr HP Hi Hk) as Hd.
      cbn [initial low high denominator] in Hd.
      rewrite Z.pow_add_r by lia. lia. }
  split; [exact Hsize|].
  assert (Hlt : 2 ^ (Z.of_nat k + 1) < 2 ^ w).
  { unfold MaxValue in Hld, Hhd.
    replace w with (w - 1 + 1) at 1 by lia.
    rewrite (Z.pow_add_r 2 (w - 1) 1) by lia. lia. }
  apply Z.pow_lt_mono_r_iff in Hlt; lia.
Qed.

(** The loop is left within [w - 1] passes. *)
Lemma toFract_within_width (w : Z) (fuel : nat) (ndebug : bool)
  (val Precision : double) (z : Z) :
  2 <= w <= 53 ->
  valid val = true -> trunc val = Some z -> in_range w z = true ->
  ltb zero Precision = true ->
  w - 1 <= Z.of_nat fuel ->
  toFract w fuel ndebug val Precision <> OutOfFuel.
Proof.
  intros Hw Hv Hz Hr HP Hfuel. unfold toFract.
  destruct (ltb one _); [discriminate|].
  intros Hout. apply loop_out_of_fuel in Hout as [bk Hk].
  destruct (reached_size w ndebug val Precision z fuel bk Hw Hv Hz Hr HP Hk)
    as [_ H].
  lia.
Qed.

(** ** Taking the integer part away loses nothing *)

Lemma cond_Zopp_add (s : bool) (a b : Z) :
  cond_Zopp s a + cond_Zopp s b = cond_Zopp s (a + b).
Proof. destruct s; simpl; lia. Qed.

(** A canonical double written with a longer mantissa rounds to
    itself. *)
Lemma binary_round_canonical_shift (s : bool) (m P : positive) (e k : Z) :
  fexp prec emax (Zpos (digits2_pos m) + e) = e -> e <= 971 ->
  0 <= k -> Zpos P = Zpos m * 2 ^ k ->
  binary_round prec emax s P (e - k) = S754_finite s m e.
Proof.
  intros Hc He Hk HP.
  assert (EP : P = shl_pos m k).
  { apply Pos2Z.inj. rewrite HP. symmetry. now apply shl_pos_mul. }
  subst P. destruct k as [|p|p]; [| |lia].
  - cbn [shl_pos]. rewrite Z.sub_0_r.
    rewrite (binary_round_left s m e e); trivial; [|lia].
    now rewrite Z.sub_diag.
  - cbn [shl_pos].
    rewrite (binary_round_right s m p (e - Zpos p)).
    + f_equal. lia.
    + replace (e - Zpos p + Zpos p) with e by lia. exact Hc.
    + lia.
Qed.

(** A value less its integer part, and the integer part added back. *)
Lemma remainder_split (val : double) (z : Z) :
  valid val = true -> trunc val = Some z ->
  (add (of_int z) (sub val (of_int z)) = val \/ val = S754_zero true)
  /\ ((exists s0, sub val (of_int z) = S754_zero s0) \/
      (exists s m e m' e', val = S754_finite s m e /\
                           sub val (of_int z) = S754_finite s m' e')).
Proof.
  intros Hv Hz.
  destruct val as [s|s| |s m e]; try discriminate Hz.
  - (* a zero *)
    injection Hz as <-. destruct s.
    + split; [now right | left; now exists true].
    + split; [now left | left; now exists false].
  - apply valid_finite in Hv as [Hc He].
    unfold trunc in Hz.
    assert (Hz' : z = cond_Zopp s (if 0 <=? e then Zpos m * 2 ^ e
                                   else Z.quot (Zpos m) (2 ^ (- e))))
      by congruence.
    clear Hz. subst z.
    destruct (0 <=? e) eqn:He0;
      [apply Z.leb_le in He0 | apply Z.leb_gt in He0].
    + (* an integer already *)
      assert (Hi : of_int (cond_Zopp s (Zpos m * 2 ^ e)) = S754_finite s m e).
      { destruct e as [|p|p]; [| |lia].
        - rewrite Z.pow_0_r, Z.mul_1_r, of_int_cond_Zopp.
          rewrite (binary_round_left s m 0 0) by (trivial; lia).
          reflexivity.
        - rewrite <- iter_xO_mul, of_int_cond_Zopp.
          now rewrite binary_round_right. }
      rewrite Hi, sub_same_exponent, Z.sub_diag.
      replace (binary_normalize prec emax (cond_Zopp s 0) e false)
        with (S754_zero false) by (destruct s; reflexivity).
      split; [now left | left; now exists false].
    + assert (Hk : 0 < 2 ^ (- e)) by (apply Z.pow_pos_nonneg; lia).
      rewrite Z.quot_div_nonneg by lia.
      rewrite fexp_eq in Hc.
      destruct (Zpos m / 2 ^ (- e)) as [|q|q] eqn:Hq.
      * (* the integer part is 0 *)
        replace (cond_Zopp s 0) with 0 by (destruct s; reflexivity).
        rewrite sub_zero_exact.
        split; [now left | right; now exists s, m, e, m, e].
      * assert (Hm : 2 ^ (- e) <= Zpos m).
        { destruct (Z.le_gt_cases (2 ^ (- e)) (Zpos m)) as [H|H]; trivial.
          rewrite Z.div_small in Hq by lia. discriminate. }
        pose proof (digits2_pos_gt _ _ Hm) as Hg.
        assert (Hd : Zpos (digits2_pos m) = 53) by lia.
        pose proof (digits2_pos_bounds m) as [Hml Hmu]. rewrite Hd in Hml, Hmu.
        assert (He52 : -52 <= e) by lia.
        assert (Hdq : Zpos (digits2_pos q) = 53 + e).
        { apply digits2_pos_unique. rewrite <- Hq. split.
          - apply Z.div_le_lower_bound; [lia|].
            rewrite <- Z.pow_add_r by lia.
            replace (- e + (53 + e - 1)) with (53 - 1) by lia. exact Hml.
          - apply Z.div_lt_upper_bound; [lia|].
            rewrite <- Z.pow_add_r by lia.
            replace (- e + (53 + e)) with 53 by lia. exact Hmu. }
        rewrite of_int_cond_Zopp.
        rewrite (binary_round_left s q 0 e);
          [ | rewrite fexp_eq; lia | lia | lia ].
        rewrite sub_same_exponent.
        replace (0 - e) with (- e) by lia.
        assert (HQ : Zpos (shl_pos q (- e)) = Zpos q * 2 ^ (- e))
          by (apply shl_pos_mul; lia).
        assert (Hr : Zpos m - Zpos (shl_pos q (- e)) = Zpos m mod 2 ^ (- e)).
        { rewrite HQ, <- Hq. rewrite Z.mod_eq by lia. lia. }
        rewrite Hr.
        pose proof (Z.mod_pos_bound (Zpos m) (2 ^ (- e)) Hk) as [Hr0 Hr1].
        destruct (Zpos m mod 2 ^ (- e)) as [|r|r] eqn:Hmod; [| |lia].
        -- (* nothing after the point *)
           replace (binary_normalize prec emax (cond_Zopp s 0) e false)
             with (S754_zero false) by (destruct s; reflexivity).
           split; [|left; now exists false].
           left. cbn [add SFadd]. f_equal. apply Pos2Z.inj. lia.
        -- rewrite binary_normalize_cond_Zopp.
           assert (Hdr : Zpos (digits2_pos r) <= - e)
             by (apply digits2_pos_le; lia).
           pose proof (Pos2Z.is_pos (digits2_pos r)).
           set (fr := fexp prec emax (Zpos (digits2_pos r) + e)).
           assert (Hfr : fr = Z.max (Zpos (digits2_pos r) + e - 53) (-1074))
             by apply fexp_eq.
           rewrite (binary_round_left s r e fr);
             [ | reflexivity | lia | lia ].
           split; [|right; exists s, m, e, (shl_pos r (e - fr)), fr;
                   split; reflexivity].
           left. unfold add, SFadd.
           rewrite Z.min_r by lia.
           rewrite (shl_align_left _ e fr) by lia.
           rewrite (shl_align_left _ fr fr) by lia.
           cbn [fst]. rewrite cond_Zopp_add, <- Pos2Z.inj_add.
           rewrite binary_normalize_cond_Zopp.
           set (P := (_ + _)%positive).
           assert (HP : Zpos P = Zpos m * 2 ^ (e - fr)).
           { unfold P. rewrite Pos2Z.inj_add, !shl_pos_mul by lia.
             rewrite Z.sub_diag, Z.pow_0_r, Z.mul_1_r.
             rewrite <- HQ. lia. }
           pose proof (binary_round_canonical_shift s m P e (e - fr)) as HB.
           replace (e - (e - fr)) with fr in HB by lia.
           apply HB; [rewrite fexp_eq; lia | lia | lia | exact HP].
      * pose proof (Z.div_pos (Zpos m) (2 ^ (- e))). lia.
Qed.

(** Lines 272-273: the integer part and the remainder add up to the
    value again, without rounding; the remainder is a zero or a double
    of the sign of the value, below 1 in magnitude. *)
Theorem integer_part_split (w : Z) (val : double) (z : Z) :
  valid val = true -> trunc val = Some z -> in_range w z = true ->
  intPart_of w val = z
  /\ below_one (remainder w val) = true
  /\ (add (of_int z) (remainder w val) = val \/ val = S754_zero true)
  /\ ((exists s0, remainder w val = S754_zero s0) \/
      (exists s m e m' e', val = S754_finite s m e /\
                           remainder w val = S754_finite s m' e')).
Proof.
  intros Hv Hz Hr.
  destruct (remainder_in_range w val z Hz Hr) as [Hip Hrem].
  split; [exact Hip|].
  split; [rewrite Hrem; now apply remainder_below_one|].
  rewrite Hrem. now apply remainder_split.
Qed.

(** [-2.75] is [-2] and [-0.75]. *)
Lemma integer_part_split_witness :
  intPart_of int32 minus_2_75 = -2
  /\ below_one (remainder int32 minus_2_75) = true
  /\ (add (of_int (-2)) (remainder int32 minus_2_75) = minus_2_75
      \/ minus_2_75 = S754_zero true)
  /\ ((exists s0, remainder int32 minus_2_75 = S754_zero s0) \/
      (exists s m e m' e', minus_2_75 = S754_finite s m e /\
                           remainder int32 minus_2_75 = S754_finite s m' e')).
Proof.
  apply (integer_part_split int32 minus_2_75 (-2)).
  - vm_compute. reflexivity.
  - vm_compute. reflexivity.
  - vm_compute. reflexivity.
Defined.

(** ** Calls that return *)

(** A call returns or fails an assert, within [w - 1] passes: it raises
    neither the range error nor [bad_rational].  What it returns has a
    denominator between 1 and [MaxValue], and its numerator is the
    numerator of a fraction of [0, 1] in lowest terms plus the integer
    part times the denominator, computed in [int_type]. *)
Theorem toFract_returns (w : Z) (fuel : nat) (ndebug : bool)
  (val Precision : double) (z : Z) :
  2 <= w <= 53 ->
  valid val = true -> trunc val = Some z -> in_range w z = true ->
  ltb zero Precision = true ->
  w - 1 <= Z.of_nat fuel ->
  (exists f,
      toFract w fuel ndebug val Precision = Returned f /\
      1 <= denominator f <= MaxValue w /\
      exists n : Z,
        0 <= n <= denominator f /\ Z.gcd n (denominator f) = 1 /\
        numerator f = wrap w (n + z * denominator f)) \/
  (ndebug = false /\ toFract w fuel ndebug val Precision = AssertionFailed).
Proof.
  intros Hw Hv Hz Hr HP Hfuel.
  pose proof (toFract_outcome w fuel ndebug val Precision z Hw Hv Hz Hr HP)
    as Ho.
  pose proof (toFract_within_width w fuel ndebug val Precision z
                Hw Hv Hz Hr HP Hfuel) as Hb.
  destruct (toFract w fuel ndebug val Precision) as [f|mx| | |] eqn:Hf;
    try contradiction; [left | right; now split].
  exists f. split; [reflexivity|].
  destruct (returned_parts w fuel ndebug val Precision z f Hw Hv Hz Hr HP Hf)
    as (n & Hn & Hd & Hg & E).
  split; [exact Hd|]. exists n. now repeat split.
Qed.

(** [toFract<int>(0.3)] without asserts, given 31 passes. *)
Lemma toFract_returns_witness :
  (exists f,
      toFract int32 31 true three_tenths DBL_EPSILON = Returned f /\
      1 <= denominator f <= MaxValue int32 /\
      exists n : Z,
        0 <= n <= denominator f /\ Z.gcd n (denominator f) = 1 /\
        numerator f = wrap int32 (n + 0 * denominator f)) \/
  (true = false /\
   toFract int32 31 true three_tenths DBL_EPSILON = AssertionFailed).
Proof.
  apply (toFract_returns int32 31 true three_tenths DBL_EPSILON 0).
  - unfold int32. lia.
  - vm_compute. reflexivity.
  - vm_compute. reflexivity.
  - vm_compute. reflexivity.
  - vm_compute. reflexivity.
  - vm_compute. discriminate.
Defined.

(** The one-argument overloads: their tolerances, [DBL_EPSILON] and
    [FLT_EPSILON], are positive, and the double made of a float is a valid
    one, so that without asserts both return a fraction with a
    denominator between 1 and [MaxValue] whenever the integer part fits. *)
Theorem one_argument_overloads (w : Z) (fuel : nat) :
  2 <= w <= 53 ->
  w - 1 <= Z.of_nat fuel ->
  (forall (val : double) (z : Z),
      valid val = true -> trunc val = Some z -> in_range w z = true ->
      exists f, toFract_double w fuel true val = Returned f /\
                1 <= denominator f <= MaxValue w)
  /\ (forall (x : float) (z : Z),
      trunc (double_of_float x) = Some z -> in_range w z = true ->
      exists f, toFract_float w fuel true x = Returned f /\
                1 <= denominator f <= MaxValue w).
Proof.
  intros Hw Hfuel.
  assert (Hd : ltb zero DBL_EPSILON = true) by reflexivity.
  assert (Hf : ltb zero FLT_EPSILON = true) by reflexivity.
  split.
  - intros val z Hv Hz Hr. unfold toFract_double.
    pose proof (toFract_outcome w fuel true val DBL_EPSILON z Hw Hv Hz Hr Hd)
      as Ho.
    pose proof (toFract_within_width w fuel true val DBL_EPSILON z
                  Hw Hv Hz Hr Hd Hfuel) as Hb.
    destruct (toFract w fuel true val DBL_EPSILON) as [f|mx| | |] eqn:E;
      try contradiction; [|discriminate Ho].
    exists f. split; [reflexivity|].
    destruct (returned_parts w fuel true val _ z f Hw Hv Hz Hr Hd E)
      as (n & _ & Hden & _). exact Hden.
  - intros x z Hz Hr. unfold toFract_float.
    pose proof (double_of_float_valid x) as Hv.
    pose proof (toFract_outcome w fuel true _ FLT_EPSILON z Hw Hv Hz Hr Hf)
      as Ho.
    pose proof (toFract_within_width w fuel true _ FLT_EPSILON z
                  Hw Hv Hz Hr Hf Hfuel) as Hb.
    destruct (toFract w fuel true (double_of_float x) FLT_EPSILON)
      as [f|mx| | |] eqn:E; try contradiction; [|discriminate Ho].
    exists f. split; [reflexivity|].
    destruct (returned_parts w fuel true _ _ z f Hw Hv Hz Hr Hf E)
      as (n & _ & Hden & _). exact Hden.
Qed.

(** The overloads for [int], given 31 passes. *)
Lemma one_argument_overloads_witness :
  (forall (val : double) (z : Z),
      valid val = true -> trunc val = Some z -> in_range int32 z = true ->
      exists f, toFract_double int32 31 true val = Returned f /\
                1 <= denominator f <= MaxValue int32)
  /\ (forall (x : float) (z : Z),
      trunc (double_of_float x) = Some z -> in_range int32 z = true ->
      exists f, toFract_float int32 31 true x = Returned f /\
                1 <= denominator f <= MaxValue int32).
Proof.
  apply (one_argument_overloads int32 31).
  - unfold int32. lia.
  - vm_compute. discriminate.
Defined.

(** An integer value comes back as that integer over 1, as long as the
    tolerance is positive and not above 1: the first pass finds
    [testLow = 0].  Converting the result back gives the value, bit for
    bit. *)
Theorem integer_value_exact (w : Z) (fuel : nat) (ndebug : bool)
  (val Precision : double) (z : Z) :
  trunc val = Some z -> in_range w z = true ->
  of_int z = val ->
  ltb zero Precision = true -> ltb one Precision = false ->
  toFract w (S fuel) ndebug val Precision = Returned (mkFraction z 1)
  /\ toFloat (mkFraction z 1) = val.
Proof.
  intros Hz Hr Hi HP Hp1.
  destruct (remainder_in_range w val z Hz Hr) as [Hip Hrem].
  assert (Hnz : val <> S754_zero true).
  { rewrite <- Hi. unfold of_int.
    destruct z as [|p|p]; cbn [binary_normalize]; [discriminate| |].
    - pose proof (binary_round_sign false p 0) as Hs.
      destruct (binary_round prec emax false p 0); try discriminate.
      congruence.
    - pose proof (round_lower p 0 1 ltac:(lia)) as Hl.
      rewrite binary_round_with_sign.
      destruct (binary_round prec emax false p 0); try discriminate.
      exfalso. cbv zeta in Hl.
      assert (ile 1 (Zpos p) 0) by (unfold ile; cbn; lia).
      specialize (Hl H). lia. }
  assert (Hrz : remainder w val = S754_zero false).
  { rewrite Hrem, Hi. apply sub_diag_valid; [|exact Hnz].
    destruct val; try discriminate Hz; reflexivity. }
  split.
  - unfold toFract. rewrite Hrz, Hip.
    change (ltb one (abs (S754_zero false))) with false. cbv iota.
    cbn [loop]. unfold step.
    replace (bracketed (S754_zero false) initial) with true
      by (vm_compute; reflexivity).
    replace (testHigh (S754_zero false) initial) with one
      by (vm_compute; reflexivity).
    replace (testLow (S754_zero false) initial) with zero
      by (vm_compute; reflexivity).
    rewrite Bool.andb_false_r, Hp1, HP.
    unfold plus_integer, iadd, imul.
    cbn [high low initial numerator denominator].
    rewrite Z.mul_1_r, (wrap_in_range w z Hr), Z.add_0_l.
    now rewrite (wrap_in_range w z Hr).
  - unfold toFloat. cbn [numerator denominator]. rewrite Hi.
    pose proof (of_int_valid z) as Hv. rewrite Hi in Hv.
    destruct val as [[]|s| |s m e]; try discriminate Hz.
    + congruence.
    + reflexivity.
    + apply valid_finite in Hv as [Hc He]. now apply div_one_exact.
Qed.

(** [toFract<int>(5.0, 1E-9)] is 5/1, and 5/1 is 5.0. *)
Lemma integer_value_exact_witness :
  toFract int32 1 false five tol_1e9 = Returned (mkFraction 5 1)
  /\ toFloat (mkFraction 5 1) = five.
Proof.
  apply (integer_value_exact int32 0 false five tol_1e9 5).
  - vm_compute. reflexivity.
  - vm_compute. reflexivity.
  - reflexivity.
  - vm_compute. reflexivity.
  - vm_compute. reflexivity.
Defined.

(** [toFloat] of a fraction whose denominator is not zero is a number. *)
Theorem toFloat_not_nan (f : Fraction) :
  denominator f <> 0 ->
  Z.abs (numerator f) < 2 ^ 1023 -> Z.abs (denominator f) < 2 ^ 1023 ->
  toFloat f <> S754_nan.
Proof.
  intros Hd0 Hn Hd. unfold toFloat.
  pose proof (of_int_finite _ Hn) as Fn.
  pose proof (of_int_finite _ Hd) as Fd.
  assert (Hz : forall s, of_int (denominator f) <> S754_zero s).
  { intros s. unfold of_int.
    destruct (denominator f) as [|p|p]; [congruence| |];
      cbn [binary_normalize]; [|rewrite binary_round_with_sign];
      pose proof (round_lower p 0 1 ltac:(lia)) as Hl; cbv zeta in Hl;
      assert (Hi : ile 1 (Zpos p) 0) by (unfold ile; cbn; lia);
      specialize (Hl Hi);
      destruct (binary_round prec emax false p 0); try discriminate;
      lia. }
  destruct (of_int (numerator f)) as [sn|sn| |sn mn en];
    try discriminate Fn;
    destruct (of_int (denominator f)) as [sd|sd| |sd md ed];
    try discriminate Fd; try (now elim (Hz sd)).
  - discriminate.
  - unfold div, SFdiv.
    pose proof (div_core_nonneg mn md en ed) as Hq.
    destruct (SFdiv_core_binary prec emax (Zpos mn) en (Zpos md) ed)
      as [[mz ez] lz]. cbn [fst] in Hq.
    now apply binary_round_aux_not_nan.
Qed.

(** [toFloat(1/3)]. *)
Lemma toFloat_not_nan_witness : toFloat (mkFraction 1 3) <> S754_nan.
Proof.
  apply (toFloat_not_nan (mkFraction 1 3)).
  - cbn. lia.
  - cbn. lia.
  - cbn. lia.
Defined.

(** The sum of the two denominators at least doubles on every pass that
    goes round again, so that it is at least [2^(k+1)] after [k] passes:
    with [w] bits there are at most [w - 2] of them, and the loop is left
    within [w - 1] passes. *)
Theorem passes_bounded_by_width (w : Z) (ndebug : bool)
  (val Precision : double) (z : Z) :
  2 <= w <= 53 ->
  valid val = true -> trunc val = Some z -> in_range w z = true ->
  ltb zero Precision = true ->
  (forall (k : nat) (bk : bounds),
      passes w k ndebug (remainder w val) Precision initial = Continue bk ->
      2 ^ (Z.of_nat k + 1) <= denominator (low bk) + denominator (high bk)
      /\ Z.of_nat k + 2 <= w)
  /\ (forall fuel : nat,
       w - 1 <= Z.of_nat fuel ->
       toFract w fuel ndebug val Precision <> OutOfFuel).
Proof.
  intros Hw Hv Hz Hr HP. split.
  - intros k bk Hk.
    exact (reached_size w ndebug val Precision z k bk Hw Hv Hz Hr HP Hk).
  - intros fuel Hfuel.
    exact (toFract_within_width w fuel ndebug val Precision z
             Hw Hv Hz Hr HP Hfuel).
Qed.

(** [toFract<int>(0.3)]: at most 30 passes go round again. *)
Lemma passes_bounded_by_width_witness :
  (forall (k : nat) (bk : bounds),
      passes int32 k false (remainder int32 three_tenths) DBL_EPSILON initial
      = Continue bk ->
      2 ^ (Z.of_nat k + 1) <= denominator (low bk) + denominator (high bk)
      /\ Z.of_nat k + 2 <= int32)
  /\ (forall fuel : nat,
       int32 - 1 <= Z.of_nat fuel ->
       toFract int32 fuel false three_tenths DBL_EPSILON <> OutOfFuel).
Proof.
  apply (passes_bounded_by_width int32 false three_tenths DBL_EPSILON 0).
  - unfold int32. lia.
  - vm_compute. reflexivity.
  - vm_compute. reflexivity.
  - vm_compute. reflexivity.
  - vm_compute. reflexivity.
Defined.

(** ** A tolerance above 1 *)

(** The exponent of a rounded result: the target exponent, or one more
    when the mantissa was rounded up to [2^53]. *)
Lemma round_aux_exponent (M : positive) (e : Z) :
  let fe := fexp prec emax (Zpos (digits2_pos M) + e) in
  e <= fe ->
  match binary_round_aux prec emax false (Zpos M) e loc_Exact with
  | S754_finite _ m' e' =>
      e' = fe \/ (e' = fe + 1 /\ m' = 4503599627370496%positive)
  | _ => True
  end.
Proof.
  intros fe Hle.
  unfold binary_round_aux, shr_fexp. cbn [Zdigits2 shr_record_of_loc].
  fold fe.
  pose proof (digits2_pos_bounds M) as [HMl HMu].
  assert (Hfe : fe = Z.max (Zpos (digits2_pos M) + e - 53) (-1074))
    by apply fexp_eq.
  set (d := Zpos (digits2_pos M)) in *.
  assert (Hd : 1 <= d) by (unfold d; lia).
  destruct (fe - e) as [|p|p] eqn:Hk; [| |lia].
  - cbn [shr shr_m loc_of_shr_record round_nearest_even Zdigits2
         shr_record_of_loc shr_r shr_s].
    fold d. fold fe. rewrite Hk. cbn [shr shr_m].
    destruct (e <=? emax - prec); [left; lia | exact I].
  - cbn [shr]. set (mrs' := iter_pos shr_1 p _).
    assert (Hm1 : shr_m mrs' = Zpos M / 2 ^ Zpos p)
      by (apply shr_m_iter; cbn; lia).
    replace (e + Zpos p) with fe by lia.
    assert (Hp : 0 < 2 ^ Zpos p) by (apply pow2_pos; lia).
    assert (Hm1ge : 0 <= shr_m mrs')
      by (rewrite Hm1; apply Z.div_pos; lia).
    assert (Hm1lt : shr_m mrs' < 2 ^ 53).
    { rewrite Hm1. apply Z.div_lt_upper_bound; [lia|].
      rewrite <- Z.pow_add_r by lia.
      apply Z.lt_le_trans with (1 := HMu). apply Z.pow_le_mono_r; lia. }
    pose proof (round_nearest_even_range (shr_m mrs')
                  (loc_of_shr_record mrs')) as [Hr1 Hr2].
    destruct (round_nearest_even (shr_m mrs') (loc_of_shr_record mrs'))
      as [|p2|p2] eqn:Hm2; [ | | lia].
    + cbn [Zdigits2]. rewrite fexp_eq.
      destruct (Z.max (0 + fe - 53) (-1074) - fe) as [|q|q] eqn:Hk2;
        try lia; cbn [shr shr_m]; exact I.
    + cbn [Zdigits2].
      destruct (Z.eq_dec (Zpos p2) (2 ^ 53)) as [Heq|Hne].
      * injection Heq as ->.
        change (Zpos (digits2_pos 9007199254740992)) with 54.
        rewrite fexp_eq. replace (Z.max (54 + fe - 53) (-1074) - fe) with 1
          by lia.
        cbn [shr iter_pos shr_1 shr_m].
        destruct (fe + 1 <=? emax - prec); [|exact I].
        right. split; reflexivity.
      * assert (Hp2 : Zpos p2 < 2 ^ 53) by lia.
        assert (Hd2 : Zpos (digits2_pos p2) <= 53)
          by (apply digits2_pos_le; lia).
        rewrite fexp_eq.
        destruct (Z.max (Zpos (digits2_pos p2) + fe - 53) (-1074) - fe)
          as [|q|q] eqn:Hk2; try lia; cbn [shr shr_m];
          (destruct (fe <=? emax - prec); [left; reflexivity | exact I]).
Qed.

Lemma round_exponent (M : positive) (e : Z) :
  let fe := fexp prec emax (Zpos (digits2_pos M) + e) in
  match binary_round prec emax false M e with
  | S754_finite _ m' e' =>
      e' = fe \/ (e' = fe + 1 /\ m' = 4503599627370496%positive)
  | _ => True
  end.
Proof.
  intros fe. unfold binary_round. fold fe.
  destruct (Z.le_gt_cases fe e) as [Hfe|Hfe].
  - rewrite shl_align_left by trivial.
    pose proof (round_aux_exponent (shl_pos M (e - fe)) fe) as H.
    cbv zeta in H. rewrite digits2_pos_shl in H by lia.
    replace (Zpos (digits2_pos M) + (e - fe) + fe)
      with (Zpos (digits2_pos M) + e) in H by lia.
    fold fe in H. apply H. lia.
  - rewrite shl_align_none by lia.
    pose proof (round_aux_exponent M e) as H. cbv zeta in H. fold fe in H.
    apply H. lia.
Qed.

(** [1 - r] for a canonical [r] of [(0, 1)] is at most 1, so that it is
    below every tolerance above 1. *)
Lemma one_minus_fraction_below (m : positive) (e : Z) (P : double) :
  fexp prec emax (Zpos (digits2_pos m) + e) = e -> e <= -53 ->
  ltb one P = true ->
  ltb (sub one (S754_finite false m e)) P = true.
Proof.
  intros Hc He HP. rewrite fexp_eq in Hc.
  pose proof (digits2_pos_bounds m) as [Hml Hmu].
  pose proof (Pos2Z.is_pos (digits2_pos m)) as Hdp.
  assert (Hm : Zpos m < 2 ^ (- e)).
  { apply Z.lt_le_trans with (1 := Hmu). apply Z.pow_le_mono_r; lia. }
  assert (HPc : P = S754_infinity false \/
                exists mp ep, P = S754_finite false mp ep /\ -52 <= ep).
  { destruct P as [sp|[]| |[] mp ep]; try discriminate HP.
    - now left.
    - right. exists mp, ep. split; [reflexivity|].
      unfold ltb, SFltb, one in HP. cbn [SFcompare] in HP.
      destruct (Z.compare_spec (-52) ep); try lia; discriminate HP. }
  assert (Hx : sub one (S754_finite false m e) = one \/
               (exists s0, sub one (S754_finite false m e) = S754_zero s0) \/
               exists m' e', sub one (S754_finite false m e)
                             = S754_finite false m' e' /\ e' <= -53).
  { unfold one, sub, SFsub. rewrite Z.min_r by lia.
    rewrite (shl_align_left _ (-52) e) by lia.
    rewrite (shl_align_left _ e e) by lia.
    cbn [fst cond_Zopp].
    rewrite !shl_pos_mul by lia.
    rewrite Z.sub_diag, Z.pow_0_r, Z.mul_1_r.
    change (Zpos 4503599627370496) with (2 ^ 52).
    rewrite <- Z.pow_add_r by lia.
    replace (52 + (-52 - e)) with (- e) by lia.
    destruct (2 ^ (- e) - Zpos m) as [|D|D] eqn:HD; [lia | | lia].
    cbn [binary_normalize].
    assert (HDlt : Zpos D < 2 ^ (- e)) by lia.
    pose proof (digits2_pos_le D (- e) ltac:(lia) HDlt) as HdD.
    pose proof (round_exponent D e) as Hx. cbv zeta in Hx.
    pose proof (round_lower D e 0 ltac:(lia)
                  (ile_zero (Zpos D) e ltac:(lia))) as Hl.
    cbv zeta in Hl. rewrite fexp_eq in Hx, Hl.
    destruct (binary_round prec emax false D e) as [s'|s'| |s' m' e'].
    - right; left. now exists s'.
    - destruct Hl as [_ Hl]. lia.
    - contradiction.
    - destruct Hl as (-> & _). destruct Hx as [Hx | [Hx ->]].
      + right; right. exists m', e'. split; [reflexivity | lia].
      + destruct (Z.eq_dec e' (-52)) as [->|Hne].
        * left. reflexivity.
        * right; right. eexists _, e'. split; [reflexivity | lia]. }
  destruct Hx as [-> | [[s0 ->] | (m' & e' & -> & He')]]; [exact HP | |].
  - destruct HPc as [-> | (mp & ep & -> & _)]; reflexivity.
  - destruct HPc as [-> | (mp & ep & -> & Hep)]; [reflexivity|].
    unfold ltb, SFltb. cbn [SFcompare].
    destruct (Z.compare_spec e' ep); try lia; reflexivity.
Qed.

(** With a tolerance above 1 the first pass ends the loop on the
    [testHigh] test, whatever the value: a value that is not negative
    comes back as its integer part plus one, over 1. *)
Theorem tolerance_above_one (w : Z) (fuel : nat) (ndebug : bool)
  (val Precision : double) (z : Z) :
  valid val = true -> trunc val = Some z -> in_range w z = true ->
  ltb val zero = false ->
  ltb one Precision = true ->
  toFract w (S fuel) ndebug val Precision
  = Returned (mkFraction (wrap w (1 + z)) 1).
Proof.
  intros Hv Hz Hr Hpos HP.
  destruct (remainder_in_range w val z Hz Hr) as [Hip Hrem].
  pose proof (remainder_below_one val z Hv Hz) as Hb.
  destruct (remainder_split val z Hv Hz) as [_ Hs].
  rewrite <- Hrem in Hb, Hs. clear Hrem.
  unfold toFract.
  rewrite (remainder_not_above_one w val z Hv Hz Hr), Hip.
  assert (Hr' : (exists s0, remainder w val = S754_zero s0) \/
                exists m e, remainder w val = S754_finite false m e).
  { destruct Hs as [Hs | (s & m & e & m' & e' & Ev & Er)]; [now left|].
    right. subst val. destruct s; [discriminate Hpos|]. now exists m', e'. }
  assert (Hres : forall b, high b = mkFraction 1 1 ->
            plus_integer w (high b) z = mkFraction (wrap w (1 + z)) 1).
  { intros b ->. unfold plus_integer, iadd, imul. cbn [numerator denominator].
    rewrite Z.mul_1_r, (wrap_in_range w z Hr). reflexivity. }
  cbn [loop]. unfold step.
  destruct Hr' as [[s0 Er] | (m & e & Er)]; rewrite Er in *.
  - replace (bracketed (S754_zero s0) initial) with true
      by (destruct s0; vm_compute; reflexivity).
    replace (testHigh (S754_zero s0) initial) with one
      by (destruct s0; vm_compute; reflexivity).
    rewrite Bool.andb_false_r, HP. f_equal. now apply Hres.
  - cbn [below_one] in Hb. apply andb_prop in Hb as [He Hc].
    apply Z.leb_le in He. apply canonical_fexp in Hc.
    assert (HtH : testHigh (S754_finite false m e) initial
                  = sub one (S754_finite false m e)).
    { unfold testHigh. cbn [initial high numerator denominator].
      rewrite mul_one_exact by (trivial; lia). reflexivity. }
    assert (Hbr : bracketed (S754_finite false m e) initial = true).
    { unfold bracketed. cbn [initial low high].
      replace (toFloat (mkFraction 0 1)) with zero by (vm_compute; reflexivity).
      replace (toFloat (mkFraction 1 1)) with one by (vm_compute; reflexivity).
      apply andb_true_intro. split; [reflexivity|].
      unfold leb, SFleb, one. cbn [SFcompare].
      destruct (Z.compare_spec e (-52)); try lia; reflexivity. }
    rewrite Hbr, Bool.andb_false_r, HtH.
    rewrite (one_minus_fraction_below m e Precision Hc He HP).
    f_equal. now apply Hres.
Qed.

(** [toFract<int>(0.3, 2.0)] is 1/1. *)
Lemma tolerance_above_one_witness :
  toFract int32 1 false three_tenths two
  = Returned (mkFraction (wrap int32 (1 + 0)) 1).
Proof.
  apply (tolerance_above_one int32 0 false three_tenths two 0).
  - vm_compute. reflexivity.
  - vm_compute. reflexivity.
  - vm_compute. reflexivity.
  - vm_compute. reflexivity.
  - vm_compute. reflexivity.
Defined.

(** On the first pass the asserts of lines 288-289 hold exactly when the
    remainder is not negative. *)
Theorem first_pass_asserts (w : Z) (val : double) (z : Z) :
  valid val = true -> trunc val = Some z -> in_range w z = true ->
  bracketed (remainder w val) initial = negb (ltb (remainder w val) zero).
Proof.
  intros Hv Hz Hr.
  destruct (remainder_in_range w val z Hz Hr) as [_ Hrem].
  pose proof (remainder_below_one val z Hv Hz) as Hb.
  rewrite <- Hrem in Hb. clear Hrem.
  unfold bracketed. cbn [initial low high].
  replace (toFloat (mkFraction 0 1)) with zero by (vm_compute; reflexivity).
  replace (toFloat (mkFraction 1 1)) with one by (vm_compute; reflexivity).
  destruct (remainder w val) as [[]|s| |[] m e]; try discriminate Hb;
    try reflexivity.
  cbn [below_one] in Hb. apply andb_prop in Hb as [He _].
  apply Z.leb_le in He.
  change (ltb (S754_finite false m e) zero) with false.
  change (leb zero (S754_finite false m e)) with true.
  cbn [negb andb].
  unfold leb, SFleb, one. cbn [SFcompare].
  destruct (Z.compare_spec e (-52)); try lia; reflexivity.
Qed.

(** [-2.75]: the remainder is negative and the asserts fail. *)
Lemma first_pass_asserts_witness :
  bracketed (remainder int32 minus_2_75) initial
  = negb (ltb (remainder int32 minus_2_75) zero).
Proof.
  apply (first_pass_asserts int32 minus_2_75 (-2)).
  - vm_compute. reflexivity.
  - vm_compute. reflexivity.
  - vm_compute. reflexivity.
Defined.

(** ** [toString] *)

Example toString_negative : toString (mkFraction (-3) 4) = "-3/4"%string.
Proof. reflexivity. Qed.

Example toString_zero : toString (mkFraction 0 1) = "0/1"%string.
Proof. reflexivity. Qed.

Lemma string_of_uint_slash_free (d : Decimal.uint) :
  slash_free (NilEmpty.string_of_uint d) = true.
Proof. induction d; cbn; trivial. Qed.

Lemma Z_to_string_slash_free (k : Z) : slash_free (Z_to_string k) = true.
Proof.
  unfold Z_to_string. destruct (Z.to_int k); cbn;
    apply string_of_uint_slash_free.
Qed.

Lemma Z_to_string_inj (k k' : Z) : Z_to_string k = Z_to_string k' -> k = k'.
Proof.
  unfold Z_to_string. intros H. apply DecimalZ.to_int_inj.
  apply (f_equal NilEmpty.int_of_string) in H.
  rewrite !NilEmpty.isi in H. congruence.
Qed.

(** Two texts without the separator, each followed by it: equal wholes
    have equal parts. *)
Lemma append_slash_inj (s s' t t' : string) :
  slash_free s = true -> slash_free s' = true ->
  (s ++ "/" ++ t = s' ++ "/" ++ t')%string -> s = s' /\ t = t'.
Proof.
  revert s'. induction s as [|c s IH]; intros [|c' s']; cbn; intros Hs Hs' H.
  - injection H as H. now split.
  - injection H as Hc H. subst c'. discriminate Hs'.
  - injection H as Hc H. subst c. discriminate Hs.
  - injection H as Hc H. subst c'.
    apply andb_prop in Hs as [_ Hs]. apply andb_prop in Hs' as [_ Hs'].
    destruct (IH s' Hs Hs' H) as [-> ->]. now split.
Qed.

(** The text of a fraction determines the fraction: two fractions print
    alike only when they have the same numerator and the same
    denominator. *)
Theorem toString_injective (f g : Fraction) :
  toString f = toString g -> f = g.
Proof.
  destruct f as [n d], g as [n' d']. unfold toString.
  cbn [numerator denominator]. intros H.
  apply append_slash_inj in H; try apply Z_to_string_slash_free.
  destruct H as [Hn Hd].
  apply Z_to_string_inj in Hn, Hd. now subst.
Qed.

Lemma toString_injective_witness :
  mkFraction 1 3 = mkFraction 1 3.
Proof.
  apply (toString_injective (mkFraction 1 3) (mkFraction 1 3)).
  reflexivity.
Defined.
